(** * Table translation pipeline: a shallow embedding

    The development follows the Python modules of the repository:

    - [core/llm_translator.py]: the eligibility filter, the translation
      cache, the batch dispatch over a worker pool, the final review and
      the global translator;
    - [tools/translate_pdf_range.py]: the page range detector, the
      extraction of the tables and the normalization of their cells, the
      shading detector, the merge inferencer, the translation of the
      tables, the materializer that writes the destination table, and
      the process that chains them;
    - [tools/generate_cns_json.py]: the deduplication of the clauses.

    Python values are modelled as follows.  A [str] is a list of Unicode
    code points ([list Z]); a [dict] used as a cache is a [gmap]; a [dict]
    used as an ordered field map is an association list; page coordinates
    and fill intensities are exact rationals ([Q]); list indices are [nat]
    and differences of indices are [Z].

    The worker pool of [translate_batch] is a step function over the
    atomic sections of its workers: a schedule, the list of the futures
    the scheduler picks in turn, stands for one interleaving of the
    threads, and the statements about the pool quantify over schedules.
    The backend is a function of the request and of its rank among the
    requests of the process, so that it may fail or answer differently
    over time.

    The file has three parts: the embedding of the code, the predicates
    the statements are written with, and the results, module by module. *)

From Stdlib Require Import ZArith QArith Qround Lia List Bool String Ascii Sorted.
From stdpp Require Import base option list gmap.

Local Open Scope Z_scope.

(* ================================================================== *)
(** * Python strings *)
(* ================================================================== *)

(** A Python [str]: a sequence of code points. *)
Abbreviation pystr := (list Z).

(** ASCII literals, for readable constants. *)
Definition of_ascii (s : string) : pystr :=
  List.map (fun a => Z.of_N (N_of_ascii a)) (list_ascii_of_string s).

(** [Py_UNICODE_ISSPACE]: the characters [str.strip()] removes and the
    regular expression class [\s] accepts (one table in CPython). *)
Definition Py_UNICODE_ISSPACE (c : Z) : bool :=
  ((9 <=? c) && (c <=? 13)) || ((28 <=? c) && (c <=? 31)) || (c =? 32)
  || (c =? 133) || (c =? 160) || (c =? 5760)
  || ((8192 <=? c) && (c <=? 8202))
  || (c =? 8232) || (c =? 8233) || (c =? 8239) || (c =? 8287) || (c =? 12288).

(** The digit zero of every run of decimal digits (Unicode category Nd,
    CPython 3.11 / Unicode 14.0); each run has ten consecutive code points. *)
Definition decimal_zeros : list Z :=
  [48; 1632; 1776; 1984; 2406; 2534; 2662; 2790; 2918; 3046; 3174; 3302;
   3430; 3558; 3664; 3792; 3872; 4160; 4240; 6112; 6160; 6470; 6608; 6784;
   6800; 6992; 7088; 7232; 7248; 42528; 43216; 43264; 43472; 43504; 43600;
   44016; 65296; 66720; 68912; 69734; 69872; 69942; 70096; 70384; 70736;
   70864; 71248; 71360; 71472; 71904; 72016; 72784; 73040; 73120; 92768;
   92864; 93008; 120782; 120792; 120802; 120812; 120822; 123200; 123632;
   125264; 130032].

(** The regular expression class [\d] on [str] patterns. *)
Definition Py_UNICODE_ISDECIMAL (c : Z) : bool :=
  existsb (fun z => (z <=? c) && (c <=? z + 9)) decimal_zeros.

Fixpoint lstrip (s : pystr) : pystr :=
  match s with
  | c :: s' => if Py_UNICODE_ISSPACE c then lstrip s' else s
  | [] => []
  end.

(** [text.strip()] *)
Definition strip (s : pystr) : pystr := rev (lstrip (rev (lstrip s))).

Fixpoint pystr_eqb (s t : pystr) : bool :=
  match s, t with
  | [], [] => true
  | a :: s', b :: t' => (a =? b) && pystr_eqb s' t'
  | _, _ => false
  end.

Fixpoint startswith (p s : pystr) : bool :=
  match p, s with
  | [], _ => true
  | a :: p', b :: s' => (a =? b) && startswith p' s'
  | _ :: _, [] => false
  end.

(** [needle in text]: exact, case-sensitive substring test. *)
Fixpoint py_in (needle text : pystr) : bool :=
  startswith needle text ||
  match text with
  | [] => false
  | _ :: text' => py_in needle text'
  end.

(* ================================================================== *)
(** * Regular expressions ([re.match]) *)
(* ================================================================== *)

(** The fragment of [re] syntax the patterns of the translator use:
    character classes, concatenation and the quantifiers [*] and [+]. *)
Inductive regex : Type :=
| Void : regex
| Eps : regex
| Class : (Z -> bool) -> regex
| Cat : regex -> regex -> regex
| Alt : regex -> regex -> regex
| Star : regex -> regex.

Definition Plus (r : regex) : regex := Cat r (Star r).

Fixpoint nullable (r : regex) : bool :=
  match r with
  | Void => false
  | Eps => true
  | Class _ => false
  | Cat r1 r2 => nullable r1 && nullable r2
  | Alt r1 r2 => nullable r1 || nullable r2
  | Star _ => true
  end.

(** Brzozowski derivative with respect to one character. *)
Fixpoint deriv (c : Z) (r : regex) : regex :=
  match r with
  | Void => Void
  | Eps => Void
  | Class p => if p c then Eps else Void
  | Cat r1 r2 =>
      if nullable r1
      then Alt (Cat (deriv c r1) r2) (deriv c r2)
      else Cat (deriv c r1) r2
  | Alt r1 r2 => Alt (deriv c r1) (deriv c r2)
  | Star r1 => Cat (deriv c r1) (Star r1)
  end.

Fixpoint fullmatch (r : regex) (s : pystr) : bool :=
  match s with
  | [] => nullable r
  | c :: s' => fullmatch (deriv c r) s'
  end.

(** [re.match(r'^body$', text) is not None].  Without [re.MULTILINE] the
    anchor [$] holds at the end of the string and just before a newline
    that ends the string. *)
Definition re_match_anchored (body : regex) (text : pystr) : bool :=
  fullmatch (Cat body (Alt Eps (Class (fun c => c =? 10)))) text.

(* ================================================================== *)
(** * core/llm_translator.py: eligibility *)
(* ================================================================== *)

(** [[\u4e00-\u9fff]] *)
Definition is_cjk (c : Z) : bool := (19968 <=? c) && (c <=? 40959).

(** [_is_chinese].  The quotient [chinese_chars / total_chars > 0.3] is a
    comparison of two string lengths; it is written here as the exact
    comparison [3 * total < 10 * chinese], which agrees with the
    floating-point one for every string shorter than 2^50 characters. *)
Definition _is_chinese (text : pystr) : bool :=
  match text with
  | [] => true
  | _ =>
      let chinese_chars := Z.of_nat (length (List.filter is_cjk text)) in
      let total_chars :=
        Z.of_nat (length (List.filter (fun c => negb (Py_UNICODE_ISSPACE c)) text)) in
      if total_chars =? 0 then true
      else 3 * total_chars <? 10 * chinese_chars
  end.

(** [[\d\s\.\-\+\/%\u00b0\u2103\u03a9]]: digits, whitespace and the
    symbols [. - + / %], degree, degree Celsius and capital omega. *)
Definition numeric_class (c : Z) : bool :=
  Py_UNICODE_ISDECIMAL c || Py_UNICODE_ISSPACE c
  || (c =? 46) || (c =? 45) || (c =? 43) || (c =? 47) || (c =? 37)
  || (c =? 176) || (c =? 8451) || (c =? 937).

(** [^[...]+$] over the class above *)
Definition numeric_pattern : regex := Plus (Class numeric_class).

Definition upper_class (c : Z) : bool := (65 <=? c) && (c <=? 90).

(** [[\-\d\.]] *)
Definition code_tail_class (c : Z) : bool :=
  (c =? 45) || Py_UNICODE_ISDECIMAL c || (c =? 46).

(** [^[A-Z]+\s*\d+[\-\d\.]*$] *)
Definition standard_pattern : regex :=
  Cat (Plus (Class upper_class))
      (Cat (Star (Class Py_UNICODE_ISSPACE))
           (Cat (Plus (Class Py_UNICODE_ISDECIMAL))
                (Star (Class code_tail_class)))).

(** [_should_translate] *)
Definition _should_translate (text : pystr) : bool :=
  match text with
  | [] => false
  | _ =>
      if (length (strip text) <? 3)%nat then false
      else if _is_chinese text then false
      else if re_match_anchored numeric_pattern text then false
      else if re_match_anchored standard_pattern (strip text) then false
      else true
  end.

(** The texts of the eligibility examples. *)
Definition text_220V : pystr := of_ascii "220V " ++ [177] ++ of_ascii "10%".
Definition text_IEC : pystr := of_ascii "IEC 62368-1".
Definition text_PASS : pystr := of_ascii "PASS".
Definition text_tongguo : pystr := [36890; 36942].


(* ================================================================== *)
(** * core/llm_translator.py: the translator object *)
(* ================================================================== *)

(** The Azure OpenAI client.  [create n text] is the text of the reply
    ([response.choices[0].message.content]) to the [n]-th request the
    process sends, asking for the translation of [text]; [None] stands for
    any exception raised by the request or by reading the reply.  Indexing
    by [n] lets the backend answer the same text differently over time. *)
Definition AzureOpenAI : Type := nat -> pystr -> option pystr.

(** [self]: the fields of [LLMTranslator], and the log of the requests sent
    upstream (a ghost field, used to count the calls). *)
Record LLMTranslator : Type := {
  enabled : bool;
  client : option AzureOpenAI;
  _cache : gmap pystr pystr;
  max_workers : nat;
  requests : list pystr
}.

Definition set_cache (self : LLMTranslator) (c : gmap pystr pystr) : LLMTranslator :=
  {| enabled := enabled self; client := client self; _cache := c;
     max_workers := max_workers self; requests := requests self |}.

Definition log_request (self : LLMTranslator) (text : pystr) : LLMTranslator :=
  {| enabled := enabled self; client := client self; _cache := _cache self;
     max_workers := max_workers self; requests := requests self ++ [text] |}.

(** What [__init__] reads from the process: whether [openai] imports, the
    value of [AZURE_OPENAI_API_KEY], and the outcome of the constructor
    [AzureOpenAI(...)] ([None] when it raises). *)
Record environment : Type := {
  HAS_OPENAI : bool;
  AZURE_OPENAI_API_KEY : option pystr;
  AzureOpenAI_new : option AzureOpenAI
}.

Definition disabled_translator (workers : nat) : LLMTranslator :=
  {| enabled := false; client := None; _cache := ∅;
     max_workers := workers; requests := [] |}.

(** [LLMTranslator.__init__] *)
Definition __init__ (env : environment) (workers : nat) : LLMTranslator :=
  if negb (HAS_OPENAI env) then disabled_translator workers
  else
    match AZURE_OPENAI_API_KEY env with
    | None | Some [] => disabled_translator workers
    | Some (_ :: _) =>
        match AzureOpenAI_new env with
        | Some c =>
            {| enabled := true; client := Some c; _cache := ∅;
               max_workers := workers; requests := [] |}
        | None => disabled_translator workers
        end
    end.

(** The request of [translate]: [self.client.chat.completions.create(...)]
    followed by [.content.strip()]. *)
Definition completion (self : LLMTranslator) (text : pystr) : option pystr :=
  match client self with
  | Some create => strip <$> create (length (requests self)) text
  | None => None
  end.

(** [translate], run without interruption by another thread. *)
Definition translate (self : LLMTranslator) (text : pystr) : pystr * LLMTranslator :=
  if negb (enabled self) || negb (_should_translate text) then (text, self)
  else
    let cache_key := strip text in
    match _cache self !! cache_key with
    | Some hit => (hit, self)
    | None =>
        match completion self text with
        | Some result =>
            (result, set_cache (log_request self text)
                               (<[cache_key := result]> (_cache self)))
        | None => (text, log_request self text)
        end
    end.

(* ------------------------------------------------------------------ *)
(** ** The worker pool of [translate_batch] *)
(* ------------------------------------------------------------------ *)

(** One submitted call [_translate_single_for_batch(text, i)].  Between its
    two critical sections ([with self._cache_lock]) the call of [translate]
    holds no lock, so the worker can be interleaved with the others at
    three points: before the cache look-up, before the upstream request,
    and before the cache store. *)
Inductive task : Type :=
| Pending (text : pystr)
| Calling (text : pystr)
| Storing (text result : pystr)
| Finished (result : pystr).

Definition is_pending (t : task) : bool :=
  match t with Pending _ => true | _ => false end.
Definition is_running (t : task) : bool :=
  match t with Calling _ | Storing _ _ => true | _ => false end.
Definition is_finished (t : task) : bool :=
  match t with Finished _ => true | _ => false end.

(** The executor: the translator shared by the workers, the futures in
    submission order, and the order in which they completed (the order
    [as_completed] yields them). *)
Record pool : Type := {
  translator : LLMTranslator;
  tasks : list task;
  completed : list nat
}.

(** A pending future is taken by a worker when the futures submitted
    before it have been taken and fewer than [max_workers] are running. *)
Definition can_start (p : pool) (i : nat) : bool :=
  forallb (fun t => negb (is_pending t)) (take i (tasks p))
  && (length (List.filter is_running (tasks p)) <? max_workers (translator p))%nat.

Definition set_task (p : pool) (i : nat) (t : task) (self : LLMTranslator) : pool :=
  {| translator := self;
     tasks := <[i := t]> (tasks p);
     completed := if is_finished t then completed p ++ [i] else completed p |}.

(** One atomic step of the worker that runs future [i].  [None]: the
    scheduler cannot pick [i] (no such future, or it cannot start yet).
    Picking a finished future changes nothing. *)
Definition pool_step (i : nat) (p : pool) : option pool :=
  let self := translator p in
  match tasks p !! i with
  | None => None
  | Some (Pending text) =>
      if can_start p i then
        if negb (enabled self) || negb (_should_translate text)
        then Some (set_task p i (Finished text) self)
        else
          match _cache self !! strip text with
          | Some hit => Some (set_task p i (Finished hit) self)
          | None => Some (set_task p i (Calling text) self)
          end
      else None
  | Some (Calling text) =>
      match completion self text with
      | Some result => Some (set_task p i (Storing text result) (log_request self text))
      | None => Some (set_task p i (Finished text) (log_request self text))
      end
  | Some (Storing text result) =>
      Some (set_task p i (Finished result)
                     (set_cache self (<[strip text := result]> (_cache self))))
  | Some (Finished _) => Some p
  end.

(** A schedule is the sequence of futures the scheduler picks. *)
Fixpoint run_schedule (sched : list nat) (p : pool) : option pool :=
  match sched with
  | [] => Some p
  | i :: sched' =>
      match pool_step i p with
      | Some p' => run_schedule sched' p'
      | None => None
      end
  end.

(** The schedule of a pool that runs one future after the other. *)
Definition sequential_schedule (n : nat) : list nat :=
  flat_map (fun i => [i; i; i]) (seq 0 n).

(** The first loop of [translate_batch]: cached items are resolved at
    once, the others are queued with their original index. *)
Definition batch_scan (cache : gmap pystr pystr)
    (acc : list pystr * list pystr * list nat) (item : nat * pystr)
    : list pystr * list pystr * list nat :=
  let '(results, to_translate, indices) := acc in
  let '(i, text) := item in
  if _should_translate text then
    match cache !! strip text with
    | Some hit => (<[i := hit]> results, to_translate, indices)
    | None => (results, to_translate ++ [text], indices ++ [i])
    end
  else acc.

Definition enumerate {A : Type} (l : list A) : list (nat * A) :=
  imap (fun i x => (i, x)) l.

(** The loop over [as_completed(futures)]: every completed future writes
    its result to the slot [indices[batch_idx]].  (The [except] branch of
    the loop is dead: [_translate_single_for_batch] catches every
    exception itself.) *)
Definition collect (indices : list nat) (p : pool) (results : list pystr) : list pystr :=
  fold_left
    (fun results batch_idx =>
       match tasks p !! batch_idx, indices !! batch_idx with
       | Some (Finished translated), Some original_idx =>
           <[original_idx := translated]> results
       | _, _ => results
       end)
    (completed p) results.

(** [translate_batch] under the schedule [sched] of its worker pool.
    [None]: [sched] is not an execution of the pool that completes every
    future. *)
Definition translate_batch (self : LLMTranslator) (texts : list pystr)
    (sched : list nat) : option (list pystr * LLMTranslator) :=
  if negb (enabled self) then Some (texts, self)
  else
    let '(results, to_translate, indices) :=
      fold_left (batch_scan (_cache self)) (enumerate texts) (texts, [], []) in
    match to_translate with
    | [] => Some (results, self)
    | _ =>
        match run_schedule sched
                {| translator := self; tasks := Pending <$> to_translate;
                   completed := [] |} with
        | Some p =>
            if forallb is_finished (tasks p)
            then Some (collect indices p results, translator p)
            else None
        | None => None
        end
    end.

(* ------------------------------------------------------------------ *)
(** ** [final_review] *)
(* ------------------------------------------------------------------ *)

(** A [Dict[str, str]] of named fields, in insertion order. *)
Abbreviation fields := (list (pystr * pystr)).

(** [d[key] = value] *)
Fixpoint dict_set (d : fields) (key value : pystr) : fields :=
  match d with
  | [] => [(key, value)]
  | (k, v) :: d' =>
      if pystr_eqb k key then (k, value) :: d' else (k, v) :: dict_set d' key value
  end.

Definition needs_review (value : pystr) : bool :=
  match value with
  | [] => false
  | _ => negb (_is_chinese value) && _should_translate value
  end.

(** [final_review] under the schedule [sched] of the pool of its batch. *)
Definition final_review (self : LLMTranslator) (texts : fields)
    (sched : list nat) : option (fields * LLMTranslator) :=
  if negb (enabled self) then Some (texts, self)
  else
    let to_review :=
      fold_left (fun d kv => if needs_review kv.2 then dict_set d kv.1 kv.2 else d)
                texts [] in
    match to_review with
    | [] => Some (texts, self)
    | _ =>
        match translate_batch self (to_review.*2) sched with
        | Some (translated, self') =>
            Some (fold_left
                    (fun result ik =>
                       match translated !! ik.1 with
                       | Some v => dict_set result ik.2 v
                       | None => result
                       end)
                    (enumerate (to_review.*1)) texts,
                  self')
        | None => None
        end
    end.

(* ================================================================== *)
(** * tools/translate_pdf_range.py: the range detector *)
(* ================================================================== *)

Definition START_MARKER : pystr :=
  of_ascii "OVERVIEW OF ENERGY SOURCES AND SAFEGUARDS".

Definition END_MARKERS : list pystr :=
  [of_ascii "ATTACHMENT TO TEST REPORT"; of_ascii "ATTACHMENTS TO TEST REPORT"].

(** A page is what [page.extract_text()] returns: a text or [None]. *)
Abbreviation pdf_page := (option pystr).

Definition page_text (pg : pdf_page) : pystr := default [] pg.

Definition has_start_marker (pg : pdf_page) : bool := py_in START_MARKER (page_text pg).

Definition has_end_marker (pg : pdf_page) : bool :=
  existsb (fun end_marker => py_in end_marker (page_text pg)) END_MARKERS.

(** The loop [for i, page in enumerate(pdf.pages)] from page [i] on, with
    its two variables; [n] is [len(pdf.pages)]. *)
Fixpoint scan_pages (n i : nat) (pages : list pdf_page)
    (start_page : option nat) (end_page : nat) : option nat * nat :=
  match pages with
  | [] => (start_page, end_page)
  | pg :: pages' =>
      let start_page :=
        match start_page with
        | None => if has_start_marker pg then Some i else None
        | Some _ => start_page
        end in
      let end_page := if has_end_marker pg then i else end_page in
      if negb (end_page =? n)%nat then (start_page, end_page)
      else scan_pages n (S i) pages' start_page end_page
  end.

(** [find_translation_range] *)
Definition find_translation_range (pages : list pdf_page) : nat * nat :=
  let n := length pages in
  let '(start_page, end_page) := scan_pages n 0 pages None n in
  (default 0%nat start_page, end_page).

(** The index of the first element that satisfies [f], from index [i]. *)
Fixpoint first_index {A : Type} (f : A -> bool) (i : nat) (l : list A) : option nat :=
  match l with
  | [] => None
  | x :: l' => if f x then Some i else first_index f (S i) l'
  end.




(* ================================================================== *)
(** * tools/translate_pdf_range.py: page geometry *)
(* ================================================================== *)

(** A cell of [table_obj.cells]: the tuple [(x0, top, x1, bottom)]. *)
Abbreviation cell := (Q * Q * Q * Q)%type.

(** The value of [rect.get('non_stroking_color')]: absent, a number, or
    anything else (a tuple of colour components, ...). *)
Inductive color_value : Type :=
| ColorNone
| ColorNumber (c : Q)
| ColorOther.

(** An element of [page.rects]. *)
Record page_rect : Type := {
  fill : bool;
  non_stroking_color : color_value;
  rect_x0 : Q; rect_top : Q; rect_x1 : Q; rect_bottom : Q
}.

(** An element of the list [_extract_filled_rects] returns. *)
Record filled_rect : Type := {
  x0 : Q; top : Q; x1 : Q; bottom : Q; color : Q
}.

Definition Qltb (a b : Q) : bool := negb (Qle_bool b a).

(** The bounds of the grey interval: [0.7 < color < 1.0]. *)
Definition GRAY_LOW : Q := 7 # 10.
Definition GRAY_HIGH : Q := 1.

(** [_extract_filled_rects] *)
Definition _extract_filled_rects (rects : list page_rect) : list filled_rect :=
  flat_map
    (fun rect =>
       if negb (fill rect) then []
       else
         match non_stroking_color rect with
         | ColorNone => []
         | ColorNumber c =>
             if Qltb GRAY_LOW c && Qltb c GRAY_HIGH
             then [{| x0 := rect_x0 rect; top := rect_top rect;
                      x1 := rect_x1 rect; bottom := rect_bottom rect;
                      color := c |}]
             else []
         | ColorOther => []
         end)
    rects.

(** [tolerance = 5] *)
Definition tolerance : Q := 5.

(** The test of the inner loop of [_analyze_row_backgrounds]. *)
Definition covers (rect : filled_rect) (c : cell) : bool :=
  let '(cx0, ctop, cx1, cbottom) := c in
  Qle_bool (x0 rect) (cx0 + tolerance)
  && Qle_bool (cx1 - tolerance) (x1 rect)
  && Qle_bool (top rect) (ctop + tolerance)
  && Qle_bool (cbottom - tolerance) (bottom rect).

(** [_analyze_row_backgrounds]; [rows] only gives the number of rows. *)
Definition _analyze_row_backgrounds (cells : list cell) (rows : list (list pystr))
    (col_count : nat) (filled_rects : list filled_rect) : list bool :=
  (fun r_idx =>
     let cell_idx := (r_idx * col_count)%nat in
     match cells !! cell_idx with
     | None => false
     | Some c => existsb (fun rect => covers rect c) filled_rects
     end)
  <$> seq 0 (length rows).

(** [round(x, 0)]: to the nearest integer, ties to the even one. *)
Definition py_round (x : Q) : Z :=
  let f := Qfloor x in
  match (x - inject_Z f ?= 1 # 2)%Q with
  | Lt => f
  | Gt => f + 1
  | Eq => if Z.even f then f else f + 1
  end.

(** Insertion in a sorted list without duplicates. *)
Fixpoint insert_sorted (v : Z) (l : list Z) : list Z :=
  match l with
  | [] => [v]
  | w :: l' =>
      if v <? w then v :: l
      else if v =? w then l
      else w :: insert_sorted v l'
  end.

(** [sorted(set(l))] *)
Definition sorted_set (l : list Z) : list Z := fold_right insert_sorted [] l.

(** [l.index(v)]; [None] for [ValueError]. *)
Fixpoint index (v : Z) (l : list Z) : option nat :=
  match l with
  | [] => None
  | w :: l' => if v =? w then Some 0%nat else S <$> index v l'
  end.

(** An element of [merge_info]. *)
Record MergeSpan : Type := {
  row : nat; col : nat; colspan : Z; rowspan : Z
}.

Definition x_coords_of (cells : list cell) : list Z :=
  sorted_set (List.map (fun c : cell => py_round c.1.1.1) cells
              ++ List.map (fun c : cell => py_round c.1.2) cells).

Definition y_coords_of (cells : list cell) : list Z :=
  sorted_set (List.map (fun c : cell => py_round c.1.1.2) cells
              ++ List.map (fun c : cell => py_round c.2) cells).

(** The body of the loop [for cell in cells] of [_analyze_merged_cells]:
    the spans it appends for one cell. *)
Definition cell_merge (x_coords y_coords : list Z) (n_rows : nat) (c : cell)
    : list MergeSpan :=
  let '(cx0, ctop, cx1, cbottom) := c in
  match index (py_round cx0) x_coords, index (py_round cx1) x_coords,
        index (py_round ctop) y_coords, index (py_round cbottom) y_coords with
  | Some start_col, Some end_col, Some start_row, Some end_row =>
      let colspan := Z.of_nat end_col - Z.of_nat start_col in
      let rowspan := Z.of_nat end_row - Z.of_nat start_row in
      if (1 <? colspan) || (1 <? rowspan) then
        if (start_row <? n_rows)%nat then
          [{| row := start_row; col := start_col;
              colspan := colspan; rowspan := rowspan |}]
        else []
      else []
  | _, _, _, _ => []
  end.

(** [_analyze_merged_cells] *)
Definition _analyze_merged_cells (cells : list cell) (rows : list (list pystr))
    (col_count : nat) : list MergeSpan :=
  match rows, col_count, cells with
  | [], _, _ => []
  | _, O, _ => []
  | _, _, [] => []
  | _, _, _ =>
      let x_coords := x_coords_of cells in
      let y_coords := y_coords_of cells in
      if (length x_coords <? 2)%nat || (length y_coords <? 2)%nat then []
      else flat_map (cell_merge x_coords y_coords (length rows)) cells
  end.

(** A table of four columns and three rows whose first cell spans three
    columns and two rows; every grid cell is 10 wide and 10 high. *)
Definition qcell (a b c d : Z) : cell := (inject_Z a, inject_Z b, inject_Z c, inject_Z d).

Definition synthetic_cells : list cell :=
  [ qcell 0 0 30 20;  qcell 30 0 40 10;
                      qcell 30 10 40 20;
    qcell 0 20 10 30; qcell 10 20 20 30; qcell 20 20 30 30; qcell 30 20 40 30 ].

Definition synthetic_rows : list (list pystr) :=
  [ [of_ascii "A"; []; []; of_ascii "b"];
    [[]; []; []; of_ascii "c"];
    [of_ascii "d"; of_ascii "e"; of_ascii "f"; of_ascii "g"] ].


(* ================================================================== *)
(** * tools/translate_pdf_range.py: the materializer *)
(* ================================================================== *)

(** An element of the list [extract_tables_from_range] returns. *)
Record table_data : Type := {
  page : nat;
  rows : list (list pystr);
  col_count : nat;
  merge_info : list MergeSpan;
  row_backgrounds : list bool
}.

(** The value of a [w:vMerge] element: [w:val="restart"], or no value. *)
Inductive vMerge_val : Type :=
| restart
| continuation.

(** A cell [w:tc] of the destination table: the text of its paragraphs
    and the children of its [w:tcPr] the materializer writes. *)
Record tc : Type := {
  text : pystr;
  shd : option pystr;
  gridSpan : option Z;
  vMerge : option vMerge_val
}.

(** A destination table: its [w:tr] elements, each a list of [w:tc]. *)
Abbreviation docx_table := (list (list tc)).

Definition empty_tc : tc :=
  {| text := []; shd := None; gridSpan := None; vMerge := None |}.

(** [doc.add_table(rows=n_rows, cols=n_cols)] *)
Definition add_table (n_rows n_cols : nat) : docx_table :=
  replicate n_rows (replicate n_cols empty_tc).

(** [cell.text = cell_text or ""], then [_set_cell_shading(cell, "D9D9D9")]
    when the row is shaded. *)
Definition fill_cell (needs_gray_bg : bool) (cell_text : pystr) (c : tc) : tc :=
  {| text := cell_text;
     shd := if needs_gray_bg then Some (of_ascii "D9D9D9") else shd c;
     gridSpan := gridSpan c; vMerge := vMerge c |}.

(** The loop [for c_idx, cell_text in enumerate(row)]. *)
Definition fill_row (needs_gray_bg : bool) (row_texts : list pystr) (tr : list tc)
    : list tc :=
  fold_left
    (fun tr item =>
       match tr !! item.1 with
       | None => tr
       | Some c => <[item.1 := fill_cell needs_gray_bg item.2 c]> tr
       end)
    (enumerate row_texts) tr.

(** The loop [for r_idx, row in enumerate(rows)]. *)
Definition fill_table (rows : list (list pystr)) (row_backgrounds : list bool)
    (table : docx_table) : docx_table :=
  fold_left
    (fun table item =>
       match table !! item.1 with
       | None => table
       | Some tr =>
           let needs_gray_bg := default false (row_backgrounds !! item.1) in
           <[item.1 := fill_row needs_gray_bg item.2 tr]> table
       end)
    (enumerate rows) table.

(** [range(n)] for a Python integer [n]. *)
Definition range (n : Z) : list nat := seq 0 (Z.to_nat n).

(** The cells one span adds to [merged_cells]: those it covers, its
    origin apart. *)
Definition covered_cells (m : MergeSpan) : list (nat * nat) :=
  flat_map
    (fun dr =>
       flat_map
         (fun dc =>
            if (0 <? dr)%nat || (0 <? dc)%nat
            then [((row m + dr)%nat, (col m + dc)%nat)]
            else [])
         (range (colspan m)))
    (range (rowspan m)).

Definition merged_cells_of (merge_info : list MergeSpan) : gset (nat * nat) :=
  list_to_set (flat_map covered_cells merge_info).

(** Removing every child of the paragraphs but [w:pPr]. *)
Definition clear_tc (c : tc) : tc :=
  {| text := []; shd := shd c; gridSpan := gridSpan c; vMerge := vMerge c |}.

Definition set_gridSpan (v : Z) (c : tc) : tc :=
  {| text := text c; shd := shd c; gridSpan := Some v; vMerge := vMerge c |}.

Definition set_vMerge (v : vMerge_val) (c : tc) : tc :=
  {| text := text c; shd := shd c; gridSpan := gridSpan c; vMerge := Some v |}.

(** What [_apply_merge_to_table] does to the cell it addresses for the
    span [m] at row offset [dr]. *)
Definition merge_cell (merged_cells : gset (nat * nat)) (m : MergeSpan) (dr : nat)
    (c : tc) : tc :=
  let c := if bool_decide (((row m + dr)%nat, col m) ∈ merged_cells)
           then clear_tc c else c in
  let c := if 1 <? colspan m then set_gridSpan (colspan m) c else c in
  if 1 <? rowspan m
  then set_vMerge (if (dr =? 0)%nat then restart else continuation) c
  else c.

(** The body of the loop [for dr in range(rowspan)]. *)
Definition apply_merge_row (merged_cells : gset (nat * nat)) (m : MergeSpan)
    (table : docx_table) (dr : nat) : docx_table :=
  let row_idx := (row m + dr)%nat in
  match table !! row_idx with
  | None => table
  | Some tr =>
      match tr !! col m with
      | None => table
      | Some c => <[row_idx := <[col m := merge_cell merged_cells m dr c]> tr]> table
      end
  end.

(** [_apply_merge_to_table] *)
Definition _apply_merge_to_table (table : docx_table) (merge_info : list MergeSpan)
    (merged_cells : gset (nat * nat)) : docx_table :=
  fold_left
    (fun table m => fold_left (apply_merge_row merged_cells m) (range (rowspan m)) table)
    merge_info table.

(** The body of the loop [for t_idx, table_data in enumerate(translated_tables)]
    of [insert_tables_to_template]: the table it adds to the document, or
    [None] when it skips a table without rows. *)
Definition insert_table (data : table_data) : option docx_table :=
  match rows data with
  | [] => None
  | _ =>
      let new_table := add_table (length (rows data)) (col_count data) in
      let merged_cells := merged_cells_of (merge_info data) in
      let filled := fill_table (rows data) (row_backgrounds data) new_table in
      Some (_apply_merge_to_table filled (merge_info data) merged_cells)
  end.

(** The tables [insert_tables_to_template] adds to the template, in order. *)
Definition insert_tables_to_template (translated_tables : list table_data)
    : list docx_table :=
  omap insert_table translated_tables.

(** The cell at [(r, c)] of a destination table. *)
Definition tc_at (table : docx_table) (r c : nat) : option tc :=
  table !! r ≫= fun tr => tr !! c.

(** The text the source table has at [(r, c)]. *)
Definition source_text (data : table_data) (r c : nat) : pystr :=
  default [] (rows data !! r ≫= fun row_texts => row_texts !! c).

(** The synthetic table of the merge example, with stray text under the
    span. *)
Definition stray_table : table_data :=
  {| page := 1;
     rows := [ [of_ascii "A"; of_ascii "x"; of_ascii "y"; of_ascii "b"];
               [of_ascii "p"; of_ascii "q"; of_ascii "r"; of_ascii "c"];
               [of_ascii "d"; of_ascii "e"; of_ascii "f"; of_ascii "g"] ];
     col_count := 4;
     merge_info := [{| row := 0; col := 0; colspan := 3; rowspan := 2 |}];
     row_backgrounds := [true; false; false] |}.


(* ================================================================== *)
(** * Example translators *)
(* ================================================================== *)

Definition enabled_translator (c : AzureOpenAI) (workers : nat) : LLMTranslator :=
  {| enabled := true; client := Some c; _cache := ∅;
     max_workers := workers; requests := [] |}.

(** A backend that answers every request with the same (Chinese) text. *)
Definition fixed_backend : AzureOpenAI := fun _ _ => Some [31526; 21512].

(** A backend that breaks the output contract: it prefixes the text it
    was given with a comment and leaves it untranslated. *)
Definition chatty_backend : AzureOpenAI :=
  fun _ text => Some (of_ascii "Translation: " ++ text).

Definition text_hello : pystr := of_ascii "hello world".

(** An environment in which initialization fails: no API key. *)
Definition env_no_key : environment :=
  {| HAS_OPENAI := true; AZURE_OPENAI_API_KEY := None;
     AzureOpenAI_new := Some fixed_backend |}.



(* ================================================================== *)
(** * tools/translate_pdf_range.py: cell texts *)
(* ================================================================== *)

(** [[ \t]] *)
Definition is_blank (c : Z) : bool := (c =? 32) || (c =? 9).

(** [re.sub(r'[ \t]+', ' ', text)]: every maximal run of spaces and tabs
    becomes one space.  [in_run] tells that the previous character was in
    the run. *)
Fixpoint sub_blank_runs (in_run : bool) (text : pystr) : pystr :=
  match text with
  | [] => []
  | c :: text' =>
      if is_blank c
      then (if in_run then [] else [32]) ++ sub_blank_runs true text'
      else c :: sub_blank_runs false text'
  end.

(** [re.sub(r'\n{3,}', '\n\n', text)]: every maximal run of three or more
    newlines becomes two.  [pending] counts the newlines of the current
    run, which are written when the run ends. *)
Fixpoint sub_newline_runs (pending : nat) (text : pystr) : pystr :=
  match text with
  | [] => replicate (Nat.min pending 2) 10
  | c :: text' =>
      if c =? 10 then sub_newline_runs (S pending) text'
      else replicate (Nat.min pending 2) 10 ++ c :: sub_newline_runs 0 text'
  end.

(** [_normalize_cell]; a cell of [table_obj.extract()] is a text or
    [None]. *)
Definition _normalize_cell (c : option pystr) : pystr :=
  match c with
  | None => []
  | Some text => strip (sub_newline_runs 0 (sub_blank_runs false text))
  end.

(** [[a-zA-Z]] *)
Definition is_ascii_letter (c : Z) : bool :=
  ((97 <=? c) && (c <=? 122)) || ((65 <=? c) && (c <=? 90)).

(** [_needs_translation].  As in [_is_chinese], the quotient
    [chinese_chars / total_chars > 0.9] of two lengths is written as the
    exact comparison [9 * total < 10 * chinese]. *)
Definition _needs_translation (text : pystr) : bool :=
  match text with
  | [] => false
  | _ =>
      let chinese_chars := Z.of_nat (length (List.filter is_cjk text)) in
      let total_chars :=
        Z.of_nat (length (List.filter (fun c => is_ascii_letter c || is_cjk c) text)) in
      if total_chars =? 0 then false
      else if 9 * total_chars <? 10 * chinese_chars then false
      else true
  end.

(* ================================================================== *)
(** * tools/translate_pdf_range.py: the extraction of the tables *)
(* ================================================================== *)

(** A table object of [page.find_tables]: its [cells] and the rows
    [extract()] returns, whose cells are texts or [None]. *)
Record pdf_table : Type := {
  table_cells : list cell;
  extract : list (list (option pystr))
}.

(** The geometry of a page: its [rects], and the tables [find_tables]
    returns ([None] when it raises). *)
Record page_geometry : Type := {
  rects : list page_rect;
  find_tables : option (list pdf_table)
}.

(** [sep.join(l)] *)
Fixpoint join (sep : pystr) (l : list pystr) : pystr :=
  match l with
  | [] => []
  | [s] => s
  | s :: l' => s ++ sep ++ join sep l'
  end.

(** The loop [for row in tbl] of [extract_tables_from_range]: empty rows
    are skipped, the cells of the others are normalized. *)
Definition normalize_rows (tbl : list (list (option pystr))) : list (list pystr) :=
  flat_map
    (fun raw_row =>
       match raw_row with
       | [] => []
       | _ => [_normalize_cell <$> raw_row]
       end)
    tbl.

(** [max_cols] at the end of that loop. *)
Definition max_cols (rows : list (list pystr)) : nat :=
  fold_left (fun m normalized_row => Nat.max m (length normalized_row)) rows 0%nat.

(** [is_header_table] *)
Definition is_header_table (rows : list (list pystr)) : bool :=
  let first_row_text := join [32] (default [] (head rows)) in
  (length rows <=? 2)%nat
  && (py_in (of_ascii "IEC 62368-1") first_row_text
      || py_in (of_ascii "Requirement + Test") first_row_text
      || py_in (of_ascii "Result - Remark") first_row_text
      || (py_in (of_ascii "Clause") first_row_text
          && py_in (of_ascii "Verdict") first_row_text)).

(** The body of the loop [for table_obj in page_table_objs]: the entry it
    appends to [tables], or [None] when it skips the table.  (A table
    object is always true, so that the test [if not table_obj] never
    skips one.) *)
Definition extract_table (page_num : nat) (filled_rects : list filled_rect)
    (table_obj : pdf_table) : option table_data :=
  match extract table_obj with
  | [] => None
  | tbl =>
      let rows := normalize_rows tbl in
      match rows with
      | [] => None
      | _ =>
          if is_header_table rows then None
          else
            Some {| page := page_num;
                    rows := rows;
                    col_count := max_cols rows;
                    merge_info :=
                      _analyze_merged_cells (table_cells table_obj) rows (max_cols rows);
                    row_backgrounds :=
                      _analyze_row_backgrounds (table_cells table_obj) rows
                                               (max_cols rows) filled_rects |}
      end
  end.

(** The body of the loop [for page_idx in range(start_page, end_page)]:
    the tables of one page; [None] when [pdf.pages[page_idx]] raises
    [IndexError]. *)
Definition extract_page (pages : list page_geometry) (page_idx : nat)
    : option (list table_data) :=
  match pages !! page_idx with
  | None => None
  | Some pg =>
      let page_num := (page_idx + 1)%nat in
      let filled_rects := _extract_filled_rects (rects pg) in
      match find_tables pg with
      | None => Some []
      | Some page_table_objs =>
          Some (omap (extract_table page_num filled_rects) page_table_objs)
      end
  end.

(** [extract_tables_from_range]; [None] when a page index is out of
    range. *)
Definition extract_tables_from_range (pages : list page_geometry)
    (start_page end_page : nat) : option (list table_data) :=
  fold_left
    (fun acc page_idx =>
       match acc, extract_page pages page_idx with
       | Some tables, Some page_tables => Some (tables ++ page_tables)
       | _, _ => None
       end)
    (seq start_page (end_page - start_page)) (Some []).

(* ================================================================== *)
(** * core/llm_translator.py: the global translator *)
(* ================================================================== *)

(** [get_translator]: the global [_translator] is created at the first
    call, with the default [max_workers = 5]. *)
Definition get_translator (env : environment) (_translator : option LLMTranslator)
    : LLMTranslator :=
  match _translator with
  | None => __init__ env 5
  | Some t => t
  end.

(** [llm_translate]; the second component is the global afterwards. *)
Definition llm_translate (env : environment) (_translator : option LLMTranslator)
    (text : pystr) : pystr * option LLMTranslator :=
  let '(result, self') := translate (get_translator env _translator) text in
  (result, Some self').

(* ================================================================== *)
(** * tools/translate_pdf_range.py: the translation of the tables *)
(* ================================================================== *)

(** The position [(t_idx, r_idx, c_idx)] of a cell. *)
Abbreviation position := (nat * nat * nat)%type.

(** [if cell and _needs_translation(cell)] *)
Definition selected (cell_text : pystr) : bool :=
  match cell_text with
  | [] => false
  | _ => _needs_translation cell_text
  end.

(** The first loop of [translate_tables]: [text_positions] paired with
    [all_texts]. *)
Definition selected_cells (tables : list table_data) : list (position * pystr) :=
  flat_map
    (fun t =>
       flat_map
         (fun r =>
            flat_map
              (fun c =>
                 if selected c.2 then [((t.1, r.1, c.1), c.2)] else [])
              (enumerate r.2))
         (enumerate (rows t.2)))
    (enumerate tables).

Definition set_rows (table : table_data) (new_rows : list (list pystr)) : table_data :=
  {| page := page table; rows := new_rows; col_count := col_count table;
     merge_info := merge_info table; row_backgrounds := row_backgrounds table |}.

(** [translated_tables[t_idx]['rows'][r_idx][c_idx] = v]; [None] for the
    [IndexError] of an assignment outside the tables. *)
Definition set_cell (tables : list table_data) (pos : position) (v : pystr)
    : option (list table_data) :=
  let '(t_idx, r_idx, c_idx) := pos in
  match tables !! t_idx with
  | None => None
  | Some table =>
      match rows table !! r_idx with
      | None => None
      | Some row_texts =>
          if (c_idx <? length row_texts)%nat
          then Some (<[t_idx := set_rows table (<[r_idx := <[c_idx := v]> row_texts]>
                                                  (rows table))]> tables)
          else None
      end
  end.

(** The last loop of [translate_tables], on the copy of the tables;
    [None] when [translated_texts[i]] or the assignment raises. *)
Definition fill_back (text_positions : list position) (translated_texts : list pystr)
    (translated_tables : list table_data) : option (list table_data) :=
  fold_left
    (fun acc item =>
       match acc, translated_texts !! item.1 with
       | Some translated_tables, Some v => set_cell translated_tables item.2 v
       | _, _ => None
       end)
    (enumerate text_positions) (Some translated_tables).

(** [translate_tables], from the global [_translator] and under the
    schedule [sched] of the pool of its batch; the second component is
    the global afterwards.  [None]: [sched] is not an execution of the
    pool, or the last loop raises. *)
Definition translate_tables (env : environment) (_translator : option LLMTranslator)
    (tables : list table_data) (sched : list nat)
    : option (list table_data * option LLMTranslator) :=
  let translator := get_translator env _translator in
  let all_texts := (selected_cells tables).*2 in
  let text_positions := (selected_cells tables).*1 in
  match all_texts with
  | [] =>
      match fill_back text_positions [] tables with
      | Some translated_tables => Some (translated_tables, Some translator)
      | None => None
      end
  | _ =>
      match translate_batch translator all_texts sched with
      | Some (translated_texts, translator') =>
          match fill_back text_positions translated_texts tables with
          | Some translated_tables => Some (translated_tables, Some translator')
          | None => None
          end
      | None => None
      end
  end.

(* ================================================================== *)
(** * tools/translate_pdf_range.py: the whole process *)
(* ================================================================== *)

(** A page of the PDF: its text and its geometry. *)
Abbreviation pdf := (list (pdf_page * page_geometry)).

(** [process_pdf_to_docx]: the tables added to the template, and the
    global translator afterwards.  [None]: a stage raises, or [sched] is
    not an execution of the pool. *)
Definition process_pdf_to_docx (env : environment) (_translator : option LLMTranslator)
    (doc : pdf) (sched : list nat) : option (list docx_table * option LLMTranslator) :=
  let '(start_page, end_page) := find_translation_range (doc.*1) in
  match extract_tables_from_range (doc.*2) start_page end_page with
  | None => None
  | Some tables =>
      match translate_tables env _translator tables sched with
      | None => None
      | Some (translated_tables, _translator') =>
          Some (insert_tables_to_template translated_tables, _translator')
      end
  end.

(* ================================================================== *)
(** * tools/generate_cns_json.py: the clauses *)
(* ================================================================== *)

(** The body of the loop of [dedupe_clauses].  A clause is a JSON object;
    [clause_id c] stands for [c.get('clause_id', '')], a hashable value,
    [truthy] for the truth value of such a value, and the list [seen]
    for the set of the same name, which compares values as [==] does. *)
Definition dedupe_step {clause V : Type} `{EqDecision V}
    (clause_id : clause -> V) (truthy : V -> bool)
    (acc : list V * list clause) (c : clause) : list V * list clause :=
  let '(seen, result) := acc in
  let cid := clause_id c in
  if truthy cid && negb (bool_decide (cid ∈ seen))
  then (cid :: seen, result ++ [c])
  else acc.

(** [dedupe_clauses] *)
Definition dedupe_clauses {clause V : Type} `{EqDecision V}
    (clause_id : clause -> V) (truthy : V -> bool) (clauses_raw : list clause)
    : list clause :=
  (fold_left (dedupe_step clause_id truthy) clauses_raw ([], [])).2.

(* ================================================================== *)
(** * Specification-side predicates *)
(* ================================================================== *)

(** The language of a regular expression: the strings a backtracking
    search can match in full. *)
Inductive matches : regex -> pystr -> Prop :=
| matches_eps : matches Eps []
| matches_class (p : Z -> bool) (c : Z) : p c = true -> matches (Class p) [c]
| matches_cat (r1 r2 : regex) (s1 s2 : pystr) :
    matches r1 s1 -> matches r2 s2 -> matches (Cat r1 r2) (s1 ++ s2)
| matches_alt_l (r1 r2 : regex) (s : pystr) : matches r1 s -> matches (Alt r1 r2) s
| matches_alt_r (r1 r2 : regex) (s : pystr) : matches r2 s -> matches (Alt r1 r2) s
| matches_star_nil (r : regex) : matches (Star r) []
| matches_star_app (r : regex) (s1 s2 : pystr) :
    matches r s1 -> matches (Star r) s2 -> matches (Star r) (s1 ++ s2).

(** A text made of characters of the numeric class only. *)
Definition numeric_text (text : pystr) : Prop :=
  text <> [] /\ forallb numeric_class text = true.

(** A standards code: capital letters, optional whitespace, digits, then
    digits, dots and hyphens (and the final newline [$] tolerates). *)
Definition standard_code (text : pystr) : Prop :=
  exists letters spaces digits tail nl : pystr,
    text = letters ++ spaces ++ digits ++ tail ++ nl
    /\ letters <> [] /\ forallb upper_class letters = true
    /\ forallb Py_UNICODE_ISSPACE spaces = true
    /\ digits <> [] /\ forallb Py_UNICODE_ISDECIMAL digits = true
    /\ forallb code_tail_class tail = true
    /\ (nl = [] \/ nl = [10]).

(** The ratio test of [_is_chinese] in the words of the specification:
    CJK characters over non-whitespace characters exceed 0.3. *)
Definition cjk_ratio_exceeds (text : pystr) : Prop :=
  3 * Z.of_nat (length (List.filter (fun c => negb (Py_UNICODE_ISSPACE c)) text))
  < 10 * Z.of_nat (length (List.filter is_cjk text)).

(** The three ways [__init__] fails: [openai] does not import, the API key
    is unset or empty, the client constructor raises. *)
Definition init_fails (env : environment) : Prop :=
  HAS_OPENAI env = false
  \/ AZURE_OPENAI_API_KEY env = None
  \/ AZURE_OPENAI_API_KEY env = Some []
  \/ AzureOpenAI_new env = None.



(** The upper bound of the code: the first page with an end marker,
    wherever the start marker is. *)
Definition upper_bound (pages : list pdf_page) : nat :=
  default (length pages) (first_index has_end_marker 0 pages).

(** The lower bound of the code: the first page with the start marker
    among the pages scanned, which end with page [upper_bound]. *)
Definition lower_bound (pages : list pdf_page) : nat :=
  default 0%nat (first_index has_start_marker 0 (take (S (upper_bound pages)) pages)).

(** Containment of a cell boundary in a rectangle, with the tolerance. *)
Definition within_tolerance (rect : page_rect) (c : cell) : Prop :=
  let '(cx0, ctop, cx1, cbottom) := c in
  (rect_x0 rect <= cx0 + tolerance)%Q
  /\ (cx1 - tolerance <= rect_x1 rect)%Q
  /\ (rect_top rect <= ctop + tolerance)%Q
  /\ (cbottom - tolerance <= rect_bottom rect)%Q.

(** A filled rectangle of the page whose fill intensity is a number
    strictly between the two bounds, and which contains the cell. *)
Definition shades (rect : page_rect) (c : cell) : Prop :=
  fill rect = true
  /\ (exists q, non_stroking_color rect = ColorNumber q
                /\ (GRAY_LOW < q)%Q /\ (q < GRAY_HIGH)%Q)
  /\ within_tolerance rect c.

(** The address of a cell in the resolved grid: the indices of its top
    and left edges among the rounded row and column edges of the table,
    as [_analyze_merged_cells] computes [start_row] and [start_col]. *)
Definition cell_address (cells : list cell) (c : cell) : option nat * option nat :=
  (index (py_round c.1.1.2) (y_coords_of cells),
   index (py_round c.1.1.1) (x_coords_of cells)).

(** The leading cell of row [r], the cell of the table at the grid
    address [(r, 0)], lies in a grey rectangle of the page. *)
Definition leading_cell_shaded (rects : list page_rect) (cells : list cell) (r : nat)
    : Prop :=
  exists (c : cell) (rect : page_rect),
    In c cells /\ cell_address cells c = (Some r, Some 0%nat)
    /\ In rect rects /\ shades rect c.

(** A grey rectangle over the third row of the synthetic table. *)
Definition gray_third_row : page_rect :=
  {| fill := true; non_stroking_color := ColorNumber (898 # 1000);
     rect_x0 := 0; rect_top := 20; rect_x1 := 40; rect_bottom := 30 |}.

(** A page with one grey rectangle over the first row of a table of two
    rows and two columns. *)
Definition gray_band : page_rect :=
  {| fill := true; non_stroking_color := ColorNumber (898 # 1000);
     rect_x0 := 0; rect_top := 0; rect_x1 := 40; rect_bottom := 10 |}.

Definition two_row_cells : list cell :=
  [ qcell 0 0 20 10; qcell 20 0 40 10; qcell 0 10 20 20; qcell 20 10 40 20 ].

(** The span [m] addresses the cell [(R, C)]: [C] is its starting column
    and [R] one of the rows it covers. *)
Definition addresses (m : MergeSpan) (R C : nat) : Prop :=
  col m = C /\ (row m <= R < row m + Z.to_nat (rowspan m))%nat.

#[global] Instance addresses_dec (m : MergeSpan) (R C : nat) : Decision (addresses m R C) :=
  and_dec _ _.



(** The effect of the span [m] on the cell at [(R, C)]. *)
Definition span_effect (mc : gset (nat * nat)) (m : MergeSpan) (R C : nat) (c : tc) : tc :=
  if bool_decide (addresses m R C) then merge_cell mc m (R - row m) c else c.

(** The claim C1 as it is stated: every shadow cell of every span of the
    table is empty in the destination table. *)
Definition shadow_cells_empty (data : table_data) : Prop :=
  forall (table : docx_table) (m : MergeSpan) (R C : nat) (c : tc),
    insert_table data = Some table ->
    In m (merge_info data) -> In (R, C) (covered_cells m) ->
    tc_at table R C = Some c -> text c = [].

(** The destination table of [stray_table]. *)
Definition stray_output : docx_table :=
  Eval vm_compute in default [] (insert_table stray_table).

(** The span of [stray_table]. *)
Definition stray_span : MergeSpan :=
  {| row := 0; col := 0; colspan := 3; rowspan := 2 |}.

(** A degenerate table: one cell whose left and right edges round to the
    same column edge. *)
Definition degenerate_cells : list cell := [ qcell 0 0 0 10 ].

(* ================================================================== *)
(** * Specification-side predicates: the translation engine *)
(* ================================================================== *)

(** The value the first loop of [translate_batch] leaves in a slot. *)
Definition prefill (cache : gmap pystr pystr) (t : pystr) : pystr :=
  if _should_translate t then default t (cache !! strip t) else t.

(** The items the first loop queues: eligible and not in the cache. *)
Definition queued (cache : gmap pystr pystr) (item : nat * pystr) : bool :=
  _should_translate item.2 && bool_decide (cache !! strip item.2 = None).

Definition queue (cache : gmap pystr pystr) (texts : list pystr) : list (nat * pystr) :=
  List.filter (queued cache) (enumerate texts).

(** The backend of a translator: its client, or one that always fails
    when there is no client. *)
Definition backend (self : LLMTranslator) : AzureOpenAI :=
  default (fun _ _ => None) (client self).

(** Among the requests [reqs], one sent after the translator was in the
    state [self0] asked for [t] and was answered, [r] being the trimmed
    answer. *)
Definition answered (self0 : LLMTranslator) (reqs : list pystr) (t r : pystr) : Prop :=
  exists (n : nat) (content : pystr),
    (length (requests self0) <= n)%nat /\ reqs !! n = Some t
    /\ backend self0 n t = Some content /\ r = strip content.

(** ... asked for [t] and failed. *)
Definition failed (self0 : LLMTranslator) (reqs : list pystr) (t : pystr) : Prop :=
  exists n : nat,
    (length (requests self0) <= n)%nat /\ reqs !! n = Some t
    /\ backend self0 n t = None.

(** [r] is a translation recorded for the trimmed text [k]: the entry of
    the cache of [self0], or the answer to a request for a text whose
    trimmed form is [k]. *)
Definition cache_value (self0 : LLMTranslator) (reqs : list pystr) (k r : pystr) : Prop :=
  _cache self0 !! k = Some r
  \/ exists t' : pystr, strip t' = k /\ answered self0 reqs t' r.

(** What a future of the text [t] can be. *)
Definition task_ok (self0 : LLMTranslator) (reqs : list pystr) (t : pystr) (tk : task) : Prop :=
  match tk with
  | Pending t' => t' = t
  | Calling t' => t' = t
  | Storing t' r => t' = t /\ answered self0 reqs t r
  | Finished r =>
      (r = t /\ (_should_translate t = false \/ failed self0 reqs t))
      \/ cache_value self0 reqs (strip t) r
  end.

(** The invariant of the pool that runs the texts [tt] from the
    translator [self0]. *)
Record pool_inv (self0 : LLMTranslator) (tt : list pystr) (p : pool) : Prop := {
  inv_enabled : enabled (translator p) = true;
  inv_client : client (translator p) = client self0;
  inv_workers : max_workers (translator p) = max_workers self0;
  inv_requests :
    exists extra, requests (translator p) = requests self0 ++ extra
                  /\ forall t, In t extra -> In t tt;
  inv_length : length (tasks p) = length tt;
  inv_tasks :
    forall j tk t, tasks p !! j = Some tk -> tt !! j = Some t ->
                   task_ok self0 (requests (translator p)) t tk;
  inv_cache :
    forall k v, _cache (translator p) !! k = Some v ->
                cache_value self0 (requests (translator p)) k v;
  inv_completed_NoDup : NoDup (completed p);
  inv_completed :
    forall j, In j (completed p) <-> exists r, tasks p !! j = Some (Finished r)
}.

(** The loop of [collect] over an arbitrary completion order. *)
Definition collect_in (order : list nat) (indices : list nat) (tks : list task)
    (results : list pystr) : list pystr :=
  fold_left
    (fun results batch_idx =>
       match tks !! batch_idx, indices !! batch_idx with
       | Some (Finished translated), Some original_idx =>
           <[original_idx := translated]> results
       | _, _ => results
       end)
    order results.

(** What slot [i] of the result can hold for the input text [t]. *)
Definition slot_ok (self self' : LLMTranslator) (texts : list pystr) (t r : pystr) : Prop :=
  if _should_translate t then
    match _cache self !! strip t with
    | Some hit => r = hit
    | None =>
        (r = t /\ failed self (requests self') t)
        \/ (exists t', In t' texts /\ _should_translate t' = true
                       /\ strip t' = strip t
                       /\ answered self (requests self') t' r)
    end
  else r = t.

(** The queue discipline of the executor: the futures behind a pending
    future are pending. *)
Definition fifo (tks : list task) : Prop :=
  forall j j' tk tk', (j <= j')%nat -> tks !! j = Some tk -> tks !! j' = Some tk' ->
                      is_pending tk = true -> is_pending tk' = true.

(** The number of steps a future is away from completion, at most. *)
Definition rank (tk : task) : nat :=
  match tk with
  | Pending _ => 3
  | Calling _ => 2
  | Storing _ _ => 1
  | Finished _ => 0
  end.

(** The requests sent since the translator was in the state [self0]. *)
Definition new_requests (self0 : LLMTranslator) (p : pool) : list pystr :=
  drop (length (requests self0)) (requests (translator p)).

(** The invariant of a pool with one worker whose requests succeed. *)
Record serial_inv (self0 : LLMTranslator) (tt : list pystr) (p : pool) : Prop := {
  s_run :
    forall j j' tk tk', tasks p !! j = Some tk -> tasks p !! j' = Some tk' ->
                        is_running tk = true -> is_running tk' = true -> j = j';
  s_nodup : NoDup (strip <$> new_requests self0 p);
  s_keys :
    forall t, In t (new_requests self0 p) ->
              _cache (translator p) !! strip t <> None
              \/ exists j t' r, tasks p !! j = Some (Storing t' r) /\ strip t' = strip t;
  s_finished :
    forall j r t, tasks p !! j = Some (Finished r) -> tt !! j = Some t ->
                  _cache (translator p) !! strip t <> None;
  s_calling :
    forall j t, tasks p !! j = Some (Calling t) ->
                _cache (translator p) !! strip t = None
}.

(** The trimmed forms of the eligible texts of a batch that are not in
    the cache, each once. *)
Definition distinct_keys (self : LLMTranslator) (texts : list pystr) : list pystr :=
  remove_dups (strip <$> (queue (_cache self) texts).*2).


(** The claim C4 as it is stated, for one batch under one schedule: no
    two requests of the batch have the same trimmed text. *)
Definition at_most_one_request (self : LLMTranslator) (texts : list pystr)
    (sched : list nat) : Prop :=
  forall out self', translate_batch self texts sched = Some (out, self') ->
    NoDup (strip <$> drop (length (requests self)) (requests self')).

(** The claim C9 as it is stated, for one field map: a second run of
    [final_review] returns the output of the first. *)
Definition final_review_idempotent (self : LLMTranslator) (m : fields)
    (sched : list nat) : Prop :=
  forall m1 self1 m2 self2,
    final_review self m sched = Some (m1, self1) ->
    final_review self1 m1 sched = Some (m2, self2) ->
    m2 = m1.

(** A batch with a repeated text, and the schedule in which two workers
    alternate. *)
Definition repeated_texts : list pystr := [text_hello; text_hello].
Definition alternating : list nat := [0; 1; 0; 1; 0; 1]%nat.


Definition title_field : fields := [(of_ascii "title", text_hello)].

(* ================================================================== *)
(** * Specification-side predicates: the pipeline *)
(* ================================================================== *)

(** A text [str.strip()] leaves as it is: neither its first nor its last
    character is whitespace. *)
Definition starts_clean (s : pystr) : Prop :=
  match s with
  | [] => True
  | c :: _ => Py_UNICODE_ISSPACE c = false
  end.

Definition stripped (s : pystr) : Prop := starts_clean s /\ starts_clean (rev s).

(** No tab and no two adjacent spaces; [prev] tells that the character
    before the text is a space. *)
Fixpoint blank_ok (prev : bool) (text : pystr) : bool :=
  match text with
  | [] => true
  | c :: text' =>
      if is_blank c then (c =? 32) && negb prev && blank_ok true text'
      else blank_ok false text'
  end.

(** No three adjacent newlines; [k] newlines come just before the text. *)
Fixpoint newline_ok (k : nat) (text : pystr) : bool :=
  match text with
  | [] => true
  | c :: text' =>
      if c =? 10 then (k <? 2)%nat && newline_ok (S k) text'
      else newline_ok 0 text'
  end.

(** What the later stages rely on in an extracted table: it has rows, no
    row is empty, [col_count] is the length of the longest row, every cell
    is in normal form, there is one background flag for each row, and the
    table is not a page header. *)
Definition well_formed_table (t : table_data) : Prop :=
  rows t <> []
  /\ Forall (fun r => r <> [] /\ (length r <= col_count t)%nat) (rows t)
  /\ Exists (fun r => length r = col_count t) (rows t)
  /\ Forall (Forall (fun c => _normalize_cell (Some c) = c)) (rows t)
  /\ length (row_backgrounds t) = length (rows t)
  /\ is_header_table (rows t) = false.

(** A page with the synthetic table, as [find_tables] and [extract]
    report it: raw texts, an empty row, and a grey rectangle over the
    third row of the grid. *)
Definition synthetic_pdf_table : pdf_table :=
  {| table_cells := synthetic_cells;
     extract :=
       [ [Some (of_ascii "  Clause " ++ [9] ++ of_ascii " A "); None; None; Some (of_ascii "b")];
         [];
         [None; None; None; Some (of_ascii "c")];
         [Some (of_ascii "d"); Some (of_ascii "e"); Some (of_ascii "f");
          Some ([10; 10; 10; 10] ++ of_ascii "g")] ] |}.

(** The header table of a report page. *)
Definition header_pdf_table : pdf_table :=
  {| table_cells := [];
     extract := [ [Some (of_ascii "Clause"); Some (of_ascii "Requirement + Test");
                   Some (of_ascii "Result - Remark"); Some (of_ascii "Verdict")] ] |}.

Definition synthetic_page : page_geometry :=
  {| rects := [gray_third_row];
     find_tables := Some [header_pdf_table; synthetic_pdf_table] |}.

(** The table extracted from [synthetic_page]. *)
Definition synthetic_extracted : table_data :=
  Eval vm_compute in
    default {| page := 0; rows := []; col_count := 0; merge_info := [];
               row_backgrounds := [] |}
            (extract_tables_from_range [synthetic_page] 0 1 ≫= head).

(** A destination table of [n] rows of [k] cells each. *)
Definition has_shape (n k : nat) (table : docx_table) : Prop :=
  length table = n /\ Forall (fun tr => length tr = k) table.

(** The text of the cell at a position of a list of tables. *)
Definition cell_at (tables : list table_data) (pos : position) : option pystr :=
  tables !! pos.1.1 ≫= fun table =>
  rows table !! pos.1.2 ≫= fun row_texts => row_texts !! pos.2.

(** Two tables with the same frame: the same page, column count, merges
    and background flags, and rows of the same lengths. *)
Definition same_frame (d o : table_data) : Prop :=
  page o = page d /\ col_count o = col_count d /\ merge_info o = merge_info d
  /\ row_backgrounds o = row_backgrounds d
  /\ Forall2 (fun r r' : list pystr => length r' = length r) (rows d) (rows o).


(** An environment in which initialization succeeds, with the backend
    that answers every request with the same text. *)
Definition env_fixed : environment :=
  {| HAS_OPENAI := true; AZURE_OPENAI_API_KEY := Some (of_ascii "key");
     AzureOpenAI_new := Some fixed_backend |}.

(** The translation of the extracted synthetic table by that backend. *)
Definition synthetic_translated : list table_data :=
  Eval vm_compute in
    default [] (fst <$> translate_tables env_fixed None [synthetic_extracted]
                                         (sequential_schedule 1)).



(** A field map with an eligible field between two fields that are not. *)
Definition report_fields : fields :=
  [(of_ascii "standard", text_IEC); (of_ascii "title", text_hello);
   (of_ascii "verdict", text_tongguo)].


(** A one-page report: the start marker in the text of the page, and the
    synthetic table under a page header. *)
Definition synthetic_pdf : pdf :=
  [(Some (of_ascii "4 " ++ START_MARKER), synthetic_page)].

(** A cell whose rounded edges are in order: the left one before the
    right one, the top one before the bottom one. *)
Definition proper_cell (c : cell) : Prop :=
  py_round c.1.1.1 < py_round c.1.2 /\ py_round c.1.1.2 < py_round c.2.

(** The clause at index [i] is the first of the list with its id. *)
Definition first_with_id {clause V : Type} (clause_id : clause -> V)
    (clauses_raw : list clause) (i : nat) (c : clause) : Prop :=
  clauses_raw !! i = Some c
  /\ forall j c', (j < i)%nat -> clauses_raw !! j = Some c' -> clause_id c' <> clause_id c.
(* ================================================================== *)
(** * Results: Python strings and the eligibility filter *)
(* ================================================================== *)

Lemma matches_nil_nullable (r : regex) (s : pystr) :
  matches r s -> s = [] -> nullable r = true.
Proof.
  induction 1 as [| | r1 r2 s1 s2 _ IH1 _ IH2 | r1 r2 s _ IH | r1 r2 s _ IH | |];
    intros E; simpl; try reflexivity; try discriminate.
  - apply app_eq_nil in E. destruct E as [E1 E2]. rewrite IH1, IH2 by assumption. reflexivity.
  - rewrite IH by assumption. reflexivity.
  - rewrite IH by assumption. apply orb_true_r.
Qed.

Lemma nullable_matches (r : regex) : nullable r = true <-> matches r [].
Proof.
  split; [|intros H; exact (matches_nil_nullable r [] H eq_refl)].
  induction r as [| |p|r1 IH1 r2 IH2|r1 IH1 r2 IH2|r IH]; simpl; try discriminate.
  - intros _. constructor.
  - intros H. apply andb_true_iff in H. destruct H as [H1 H2].
    change (@nil Z) with (@nil Z ++ []). constructor; auto.
  - intros H. apply orb_true_iff in H. destruct H as [H|H].
    + apply matches_alt_l; auto.
    + apply matches_alt_r; auto.
  - intros _. constructor.
Qed.

Lemma deriv_sound (c : Z) (r : regex) (s : pystr) :
  matches (deriv c r) s -> matches r (c :: s).
Proof.
  revert s. induction r as [| |p|r1 IH1 r2 IH2|r1 IH1 r2 IH2|r IH]; intros s; simpl.
  - inversion 1.
  - inversion 1.
  - destruct (p c) eqn:E; inversion 1; subst. constructor. exact E.
  - destruct (nullable r1) eqn:En.
    + inversion 1 as [| | | ? ? ? Hl | ? ? ? Hr | |]; subst.
      * inversion Hl as [| |? ? s1 s2 H1 H2| | | |]; subst.
        change (c :: s1 ++ s2) with ((c :: s1) ++ s2). constructor; auto.
      * change (c :: s) with ([] ++ c :: s). constructor; [|auto].
        apply nullable_matches, En.
    + inversion 1 as [| |? ? s1 s2 H1 H2| | | |]; subst.
      change (c :: s1 ++ s2) with ((c :: s1) ++ s2). constructor; auto.
  - inversion 1; subst; [apply matches_alt_l|apply matches_alt_r]; auto.
  - inversion 1 as [| |? ? s1 s2 H1 H2| | | |]; subst.
    change (c :: s1 ++ s2) with ((c :: s1) ++ s2). constructor; auto.
Qed.

Lemma deriv_complete (c : Z) (r : regex) (s0 : pystr) :
  matches r s0 -> forall s, s0 = c :: s -> matches (deriv c r) s.
Proof.
  induction 1 as [|p d Hp|r1 r2 s1 s2 H1 IH1 H2 IH2|r1 r2 s0 H IH|r1 r2 s0 H IH
                  |r|r s1 s2 H1 IH1 H2 IH2]; intros s E; simpl.
  - discriminate.
  - injection E as -> <-. rewrite Hp. constructor.
  - destruct s1 as [|d s1].
    + simpl in E. rewrite (matches_nil_nullable r1 [] H1 eq_refl).
      apply matches_alt_r. auto.
    + simpl in E. injection E as -> <-.
      assert (matches (Cat (deriv c r1) r2) (s1 ++ s2)) as Hc
        by (constructor; auto).
      destruct (nullable r1); [apply matches_alt_l|]; exact Hc.
  - apply matches_alt_l. auto.
  - apply matches_alt_r. auto.
  - discriminate.
  - destruct s1 as [|d s1].
    + simpl in E. apply IH2 in E. exact E.
    + simpl in E. injection E as -> <-. constructor; auto.
Qed.

(** The derivative matcher decides the language. *)
Lemma fullmatch_matches (r : regex) (s : pystr) :
  fullmatch r s = true <-> matches r s.
Proof.
  revert r. induction s as [|c s IH]; intros r; simpl.
  - apply nullable_matches.
  - rewrite IH. split; [apply deriv_sound|].
    intros H. exact (deriv_complete c r (c :: s) H s eq_refl).
Qed.

Lemma matches_star_class (p : Z -> bool) (s : pystr) :
  matches (Star (Class p)) s <-> forallb p s = true.
Proof.
  split.
  - intros H. remember (Star (Class p)) as r eqn:Er.
    induction H as [| | | | | |r s1 s2 H1 _ H2 IH2]; try discriminate; [reflexivity|].
    injection Er as ->. inversion H1; subst. simpl.
    rewrite IH2 by reflexivity. rewrite andb_true_r. assumption.
  - induction s as [|c s IH]; simpl; [constructor|].
    intros H. apply andb_true_iff in H. destruct H as [Hc Hs].
    change (c :: s) with ([c] ++ s). constructor; [constructor; exact Hc|auto].
Qed.

Lemma matches_plus_class (p : Z -> bool) (s : pystr) :
  matches (Plus (Class p)) s <-> s <> [] /\ forallb p s = true.
Proof.
  unfold Plus. split.
  - inversion 1 as [| |? ? s1 s2 H1 H2| | | |]; subst.
    inversion H1; subst. apply matches_star_class in H2. simpl.
    rewrite H2, andb_true_r. split; [discriminate|assumption].
  - intros [Hne H]. destruct s as [|c s]; [contradiction|].
    simpl in H. apply andb_true_iff in H. destruct H as [Hc Hs].
    change (c :: s) with ([c] ++ s). constructor; [constructor; exact Hc|].
    apply matches_star_class, Hs.
Qed.

Lemma matches_dollar (s : pystr) :
  matches (Alt Eps (Class (fun c => c =? 10))) s <-> s = [] \/ s = [10].
Proof.
  split.
  - inversion 1 as [| | |? ? ? H1|? ? ? H1| |]; subst; inversion H1; subst; [left; reflexivity|].
    right. f_equal. apply Z.eqb_eq. assumption.
  - intros [->| ->]; [apply matches_alt_l; constructor|].
    apply matches_alt_r. constructor. reflexivity.
Qed.

(** The numeric pattern matches the non-empty texts made of characters of
    its class only (a final newline is in the class). *)
Lemma numeric_pattern_spec (text : pystr) :
  re_match_anchored numeric_pattern text = true <-> numeric_text text.
Proof.
  unfold re_match_anchored, numeric_pattern, numeric_text. rewrite fullmatch_matches. split.
  - inversion 1 as [| |? ? s1 s2 H1 H2| | | |]; subst.
    apply matches_plus_class in H1. destruct H1 as [Hne H1].
    apply matches_dollar in H2. split.
    + destruct s1; [contradiction|discriminate].
    + rewrite forallb_app, H1. destruct H2 as [->| ->]; reflexivity.
  - intros [Hne H]. rewrite <- (app_nil_r text).
    constructor; [apply matches_plus_class; auto|].
    apply matches_dollar. left. reflexivity.
Qed.

(** The standards-code pattern matches the texts made of one or more
    capital letters, optional whitespace, one or more digits and a tail of
    digits, dots and hyphens, with an optional final newline. *)
Lemma standard_pattern_spec (text : pystr) :
  re_match_anchored standard_pattern text = true <-> standard_code text.
Proof.
  unfold re_match_anchored, standard_pattern, standard_code. rewrite fullmatch_matches. split.
  - inversion 1 as [| |? ? s123 nl H123 Hnl| | | |]; subst.
    inversion H123 as [| |? ? letters s23 Hl H23| | | |]; subst.
    inversion H23 as [| |? ? spaces s3 Hs H3| | | |]; subst.
    inversion H3 as [| |? ? digits tail Hd Ht| | | |]; subst.
    apply matches_plus_class in Hl, Hd. apply matches_star_class in Hs, Ht.
    apply matches_dollar in Hnl.
    exists letters, spaces, digits, tail, nl.
    rewrite <- !app_assoc. tauto.
  - intros (letters & spaces & digits & tail & nl & -> & Hl1 & Hl2 & Hs & Hd1 & Hd2 & Ht & Hnl).
    rewrite !app_assoc. constructor; [|apply matches_dollar; exact Hnl].
    rewrite <- !app_assoc.
    constructor; [apply matches_plus_class; auto|].
    constructor; [apply matches_star_class; auto|].
    constructor; [apply matches_plus_class; auto|].
    apply matches_star_class; auto.
Qed.

Lemma lstrip_all_space (s : pystr) :
  List.filter (fun c => negb (Py_UNICODE_ISSPACE c)) s = [] -> lstrip s = [].
Proof.
  induction s as [|c s IH]; simpl; [reflexivity|].
  destruct (Py_UNICODE_ISSPACE c); simpl; [exact IH | discriminate].
Qed.

Lemma strip_all_space (s : pystr) :
  List.filter (fun c => negb (Py_UNICODE_ISSPACE c)) s = [] -> strip s = [].
Proof.
  intros H. unfold strip. rewrite (lstrip_all_space s H). reflexivity.
Qed.


Lemma is_chinese_true (text : pystr) :
  (3 <= length (strip text))%nat ->
  _is_chinese text = true <-> cjk_ratio_exceeds text.
Proof.
  intros Hlen. unfold _is_chinese, cjk_ratio_exceeds.
  destruct text as [|c text]; [simpl in Hlen; lia|].
  set (t := c :: text) in *.
  destruct (Z.eqb_spec
              (Z.of_nat (length (List.filter (fun c => negb (Py_UNICODE_ISSPACE c)) t))) 0)
    as [E|E].
  - assert (List.filter (fun c => negb (Py_UNICODE_ISSPACE c)) t = []) as E'.
    { destruct (List.filter _ t); [reflexivity | simpl in E; lia]. }
    rewrite (strip_all_space t E') in Hlen. simpl in Hlen. lia.
  - rewrite Z.ltb_lt. reflexivity.
Qed.

(** C3 (as stated): the claim lists "220V +-10%" among the texts that are
    not eligible; the filter accepts it. *)
Lemma should_translate_220V_eligible : _should_translate text_220V <> false.
Proof. vm_compute. discriminate. Qed.

(** C3 (amended): [_should_translate] returns false exactly when the text
    is empty, or its trimmed length is below 3, or its ratio of CJK to
    non-whitespace characters exceeds 0.3, or it is made of characters of
    the numeric and symbol class only, or its trimmed form is a standards
    code (capital letters, optional whitespace, digits, then digits, dots
    and hyphens); "IEC 62368-1" and the two-character Chinese text are not
    eligible, "PASS" is eligible, and so is "220V +-10%" (the letter V and
    the plus-minus sign are outside the numeric class). *)
Theorem should_translate_spec :
  (forall text : pystr,
      _should_translate text = false <->
      (text = [] \/ (length (strip text) < 3)%nat \/ cjk_ratio_exceeds text
       \/ numeric_text text \/ standard_code (strip text)))
  /\ _should_translate text_220V = true
  /\ _should_translate text_IEC = false
  /\ _should_translate text_tongguo = false
  /\ _should_translate text_PASS = true.
Proof.
  split; [|vm_compute; repeat split; reflexivity].
  intros text. rewrite <- numeric_pattern_spec, <- standard_pattern_spec.
  unfold _should_translate.
  destruct text as [|c text]; [split; auto|].
  set (t := c :: text).
  destruct (Nat.ltb_spec (length (strip t)) 3) as [Hlt|Hge].
  { split; auto. }
  pose proof (is_chinese_true t Hge) as Hch.
  destruct (_is_chinese t).
  { split; [intros _; right; right; left; apply Hch; reflexivity | reflexivity]. }
  destruct (re_match_anchored numeric_pattern t); [split; auto 6|].
  destruct (re_match_anchored standard_pattern (strip t)); [split; auto 6|].
  split; [discriminate|].
  intros [H|[H|[H|[H|H]]]]; try discriminate; try lia.
  apply Hch in H. discriminate.
Qed.

(* ================================================================== *)
(** * Results: the disabled translator *)
(* ================================================================== *)


Lemma init_fails_disabled (env : environment) (workers : nat) :
  init_fails env -> __init__ env workers = disabled_translator workers.
Proof.
  unfold init_fails, __init__.
  intros [H|[H|[H|H]]]; rewrite H; simpl; try reflexivity.
  - destruct (HAS_OPENAI env); reflexivity.
  - destruct (HAS_OPENAI env); reflexivity.
  - destruct (HAS_OPENAI env); simpl; [|reflexivity].
    destruct (AZURE_OPENAI_API_KEY env) as [[|? ?]|]; reflexivity.
Qed.

(** C10: when initialization fails the [enabled] flag is false, and
    [translate], [translate_batch] and [final_review] return their input
    and leave the translator as it is (so it stays disabled): no request
    is sent, under any schedule. *)
Theorem init_failure_is_identity (env : environment) (workers : nat) :
  init_fails env ->
  let self := __init__ env workers in
  enabled self = false
  /\ (forall t : pystr, translate self t = (t, self))
  /\ (forall (xs : list pystr) (sched : list nat),
         translate_batch self xs sched = Some (xs, self))
  /\ (forall (m : fields) (sched : list nat),
         final_review self m sched = Some (m, self)).
Proof.
  intros H. simpl. rewrite (init_fails_disabled env workers H).
  repeat split.
Qed.

Lemma init_failure_is_identity_witness :
  init_fails env_no_key
  /\ enabled (__init__ env_no_key 5) = false
  /\ translate (__init__ env_no_key 5) text_hello = (text_hello, __init__ env_no_key 5)
  /\ translate_batch (__init__ env_no_key 5) [text_hello; text_PASS] [0%nat]
     = Some ([text_hello; text_PASS], __init__ env_no_key 5).
Proof.
  assert (init_fails env_no_key) as H by (right; left; reflexivity).
  destruct (init_failure_is_identity env_no_key 5 H) as (He & Ht & Hb & _).
  split; [exact H|]. split; [exact He|]. split; [apply Ht | apply Hb].
Defined.

(* ================================================================== *)
(** * Results: the range detector *)
(* ================================================================== *)

Lemma first_index_bounds {A : Type} (f : A -> bool) (i : nat) (l : list A) (k : nat) :
  first_index f i l = Some k -> (i <= k < i + length l)%nat.
Proof.
  revert i. induction l as [|x l IH]; intros i; simpl; [discriminate|].
  destruct (f x).
  - intros [= <-]. lia.
  - intros H. apply IH in H. lia.
Qed.

(** The loop of [find_translation_range] from page [i] on, while no end
    marker has been met ([end_page] is still the page count). *)
Lemma scan_pages_spec (n i : nat) (pages : list pdf_page) (start_page : option nat) :
  (i + length pages = n)%nat ->
  scan_pages n i pages start_page n =
    match first_index has_end_marker i pages with
    | Some hi =>
        (match start_page with
         | Some s => Some s
         | None => first_index has_start_marker i (take (S (hi - i)) pages)
         end, hi)
    | None =>
        (match start_page with
         | Some s => Some s
         | None => first_index has_start_marker i pages
         end, n)
    end.
Proof.
  revert i start_page. induction pages as [|pg pages IH]; intros i sp Hn; simpl.
  { destruct sp; reflexivity. }
  simpl in Hn.
  destruct (has_end_marker pg) eqn:He.
  - assert ((i =? n)%nat = false) as -> by (apply Nat.eqb_neq; lia).
    simpl. replace (i - i)%nat with 0%nat by lia. simpl.
    destruct sp; [reflexivity|]. destruct (has_start_marker pg); reflexivity.
  - rewrite Nat.eqb_refl. simpl.
    rewrite IH by lia.
    destruct (first_index has_end_marker (S i) pages) as [hi|] eqn:Hf.
    + pose proof (first_index_bounds _ _ _ _ Hf) as Hb.
      replace (hi - i)%nat with (S (hi - S i)) by lia.
      destruct sp; [reflexivity|].
      cbn [take firstn first_index].
      destruct (has_start_marker pg); reflexivity.
    + destruct sp; [reflexivity|].
      destruct (has_start_marker pg); reflexivity.
Qed.


Lemma find_translation_range_closed (pages : list pdf_page) :
  find_translation_range pages = (lower_bound pages, upper_bound pages).
Proof.
  unfold find_translation_range, lower_bound, upper_bound.
  rewrite scan_pages_spec by lia.
  destruct (first_index has_end_marker 0 pages) as [hi|]; simpl.
  - rewrite Nat.sub_0_r. reflexivity.
  - rewrite firstn_all2 by lia. reflexivity.
Qed.










(* ================================================================== *)
(** * Results: the shading detector *)
(* ================================================================== *)







(** On a table without merged cell, listed row by row, the cell at index
    [r * col_count] leads row [r]: the first row is shaded, the second is
    not. *)
Lemma row_backgrounds_two_rows :
  _analyze_row_backgrounds two_row_cells [[[]; []]; [[]; []]] 2
    (_extract_filled_rects [gray_band]) = [true; false].
Proof. vm_compute. reflexivity. Qed.

(** Whatever the order of its cells, a table with fewer than
    [r * col_count + 1] cells gets the flag false for row [r]. *)
Lemma row_backgrounds_short (cells : list cell) (rows : list (list pystr))
    (col_count : nat) (filled_rects : list filled_rect) (r : nat) :
  (r < length rows)%nat -> (length cells <= r * col_count)%nat ->
  _analyze_row_backgrounds cells rows col_count filled_rects !! r = Some false.
Proof.
  intros Hr Hlen. unfold _analyze_row_backgrounds.
  rewrite list_lookup_fmap, lookup_seq_lt by exact Hr. simpl.
  rewrite lookup_ge_None_2 by exact Hlen. reflexivity.
Qed.

(** C7: on a table with a merged cell the flag of a row is not the
    shading of its leading cell.  In the synthetic table (seven cells, one
    of them spanning three columns and two rows; three rows of four
    columns) with a grey rectangle of fill 0.898 over the third row, the
    leading cell of the third row lies in the rectangle and no cell leads
    the second row, yet the flags are false, true, false: the code takes
    the cell at index [r * col_count], which for the second row is a cell
    of the third row and for the third row is past the seven cells. *)
Theorem row_shading_merged_table :
  leading_cell_shaded [gray_third_row] synthetic_cells 2
  /\ ~ leading_cell_shaded [gray_third_row] synthetic_cells 1
  /\ _analyze_row_backgrounds synthetic_cells synthetic_rows 4
       (_extract_filled_rects [gray_third_row]) = [false; true; false].
Proof.
  split; [|split].
  - exists (qcell 0 20 10 30), gray_third_row.
    split; [simpl; tauto|]. split; [vm_compute; reflexivity|].
    split; [left; reflexivity|].
    split; [reflexivity|]. split.
    + exists (898 # 1000). split; [reflexivity|].
      unfold GRAY_LOW, GRAY_HIGH, Qlt. simpl. lia.
    + unfold within_tolerance, qcell, tolerance, Qle. simpl. lia.
  - intros (c & rect & Hc & Ha & _).
    simpl in Hc.
    destruct Hc as [<-|[<-|[<-|[<-|[<-|[<-|[<-|[]]]]]]]];
      vm_compute in Ha; discriminate Ha.
  - vm_compute. reflexivity.
Qed.

(* ================================================================== *)
(** * Results: the merge inferencer *)
(* ================================================================== *)

Lemma insert_sorted_In (v x : Z) (l : list Z) :
  In x (insert_sorted v l) <-> x = v \/ In x l.
Proof.
  induction l as [|w l IH]; simpl; [intuition|].
  destruct (Z.ltb_spec v w); [simpl; intuition|].
  destruct (Z.eqb_spec v w); simpl; [subst; intuition|].
  rewrite IH. intuition.
Qed.

(** [sorted(set(l))] has the elements of [l]. *)
Lemma sorted_set_In (x : Z) (l : list Z) : In x (sorted_set l) <-> In x l.
Proof.
  induction l as [|v l IH]; simpl; [reflexivity|].
  rewrite insert_sorted_In, IH. intuition.
Qed.

Lemma insert_sorted_increasing (v : Z) (l : list Z) :
  StronglySorted Z.lt l -> StronglySorted Z.lt (insert_sorted v l).
Proof.
  induction 1 as [|w l Hs IH Hall]; simpl.
  - constructor; constructor.
  - destruct (Z.ltb_spec v w) as [Hlt|Hge].
    + constructor; [constructor; assumption|].
      constructor; [exact Hlt|].
      rewrite List.Forall_forall in Hall |- *. intros y Hy.
      specialize (Hall y Hy). lia.
    + destruct (Z.eqb_spec v w) as [->|Hne]; [constructor; assumption|].
      constructor; [exact IH|].
      rewrite List.Forall_forall in Hall |- *. intros y Hy.
      apply insert_sorted_In in Hy. destruct Hy as [->|Hy]; [lia|auto].
Qed.

(** [sorted(set(l))] is strictly increasing: its length is the number of
    distinct values of [l]. *)
Lemma sorted_set_increasing (l : list Z) : StronglySorted Z.lt (sorted_set l).
Proof.
  induction l as [|v l IH]; simpl; [constructor|].
  apply insert_sorted_increasing, IH.
Qed.

Lemma index_Some (v : Z) (l : list Z) :
  In v l -> exists i, index v l = Some i.
Proof.
  induction l as [|w l IH]; simpl; [intros []|].
  intros H. destruct (Z.eqb_spec v w); [eauto|].
  destruct H as [->|H]; [congruence|].
  destruct (IH H) as [i ->]. simpl. eauto.
Qed.

Lemma index_lookup (v : Z) (l : list Z) (i : nat) :
  index v l = Some i -> l !! i = Some v.
Proof.
  revert i. induction l as [|w l IH]; intros i; simpl; [discriminate|].
  destruct (Z.eqb_spec v w) as [->|Hne].
  - intros [= <-]. reflexivity.
  - destruct (index v l) as [j|]; simpl; [|discriminate].
    intros [= <-]. simpl. apply IH. reflexivity.
Qed.

Lemma cell_merge_In (xs ys : list Z) (n_rows : nat) (c : cell) (m : MergeSpan) :
  In m (cell_merge xs ys n_rows c) ->
  (1 < colspan m \/ 1 < rowspan m) /\ (row m < n_rows)%nat
  /\ index (py_round c.1.1.1) xs = Some (col m)
  /\ index (py_round c.1.1.2) ys = Some (row m)
  /\ (exists end_col, index (py_round c.1.2) xs = Some end_col
                      /\ colspan m = Z.of_nat end_col - Z.of_nat (col m))
  /\ (exists end_row, index (py_round c.2) ys = Some end_row
                      /\ rowspan m = Z.of_nat end_row - Z.of_nat (row m)).
Proof.
  unfold cell_merge. destruct c as [[[cx0 ctop] cx1] cbottom]. simpl.
  destruct (index (py_round cx0) xs) as [sc|]; [|intros []].
  destruct (index (py_round cx1) xs) as [ec|]; [|intros []].
  destruct (index (py_round ctop) ys) as [sr|]; [|intros []].
  destruct (index (py_round cbottom) ys) as [er|]; [|intros []].
  destruct ((1 <? Z.of_nat ec - Z.of_nat sc) || (1 <? Z.of_nat er - Z.of_nat sr)) eqn:E;
    [|intros []].
  destruct (Nat.ltb_spec sr n_rows) as [Hr|Hr]; [|intros []].
  intros [<-|[]]. simpl.
  apply orb_true_iff in E. rewrite !Z.ltb_lt in E.
  repeat split; eauto.
Qed.

(** C8: every span of the inferred merge set has a column span or a row
    span above 1 and an origin row below the number of extracted rows
    (its origin is the index of the rounded top-left edges, its spans are
    the index distances to the rounded bottom-right edges); the merge set
    is empty when there are fewer than 2 distinct rounded column edges or
    fewer than 2 distinct rounded row edges; and for the synthetic table
    whose first cell spans 3 columns and 2 rows it is exactly the span at
    (0, 0) with column span 3 and row span 2. *)
Theorem analyze_merged_cells_spec :
  (forall (cells : list cell) (rows : list (list pystr)) (col_count : nat)
          (m : MergeSpan),
      In m (_analyze_merged_cells cells rows col_count) ->
      (1 < colspan m \/ 1 < rowspan m) /\ (row m < length rows)%nat
      /\ exists c : cell, In c cells
           /\ index (py_round c.1.1.1) (x_coords_of cells) = Some (col m)
           /\ index (py_round c.1.1.2) (y_coords_of cells) = Some (row m)
           /\ index (py_round c.1.2) (x_coords_of cells)
              = Some (Z.to_nat (Z.of_nat (col m) + colspan m))
           /\ index (py_round c.2) (y_coords_of cells)
              = Some (Z.to_nat (Z.of_nat (row m) + rowspan m)))
  /\ (forall (cells : list cell) (rows : list (list pystr)) (col_count : nat),
         (length (x_coords_of cells) < 2)%nat \/ (length (y_coords_of cells) < 2)%nat ->
         _analyze_merged_cells cells rows col_count = [])
  /\ _analyze_merged_cells synthetic_cells synthetic_rows 4
     = [{| row := 0; col := 0; colspan := 3; rowspan := 2 |}].
Proof.
  split; [|split; [|vm_compute; reflexivity]].
  - intros cells rows col_count m. unfold _analyze_merged_cells.
    destruct rows as [|r rows]; [intros []|].
    destruct col_count as [|k]; [intros []|].
    destruct cells as [|c0 cells]; [intros []|].
    set (cs := c0 :: cells). set (rs := r :: rows).
    destruct ((length (x_coords_of cs) <? 2)%nat || (length (y_coords_of cs) <? 2)%nat);
      [intros []|].
    rewrite in_flat_map. intros (c & Hc & Hm).
    apply cell_merge_In in Hm.
    destruct Hm as (Hspan & Hrow & Hx & Hy & (ec & Hec & Ecs) & (er & Her & Ers)).
    split; [exact Hspan|]. split; [exact Hrow|].
    exists c. split; [exact Hc|]. split; [exact Hx|]. split; [exact Hy|].
    rewrite Ecs, Ers, Hec, Her. split; f_equal; lia.
  - intros cells rows col_count H. unfold _analyze_merged_cells.
    destruct rows as [|r rows]; [reflexivity|].
    destruct col_count as [|k]; [reflexivity|].
    destruct cells as [|c0 cells]; [reflexivity|].
    set (cs := c0 :: cells) in *.
    assert ((length (x_coords_of cs) <? 2)%nat || (length (y_coords_of cs) <? 2)%nat = true)
      as ->; [|reflexivity].
    apply orb_true_iff. rewrite !Nat.ltb_lt. exact H.
Qed.

Lemma analyze_merged_cells_spec_witness :
  ((1 < colspan stray_span \/ 1 < rowspan stray_span)
   /\ (row stray_span < length synthetic_rows)%nat)
  /\ _analyze_merged_cells degenerate_cells [[[]]] 1 = [].
Proof.
  destruct analyze_merged_cells_spec as (Hin & Hempty & Hex). split.
  - destruct (Hin synthetic_cells synthetic_rows 4%nat stray_span) as (H1 & H2 & _).
    + rewrite Hex. left. reflexivity.
    + split; assumption.
  - apply Hempty. left. vm_compute. lia.
Defined.

(* ================================================================== *)
(** * Results: the materializer *)
(* ================================================================== *)

Lemma fold_update_lookup {A B : Type} (f : nat -> A -> B -> B) (items : list A)
    (l : list B) (j : nat) :
  fold_left
    (fun l it =>
       match l !! it.1 with
       | None => l
       | Some c => <[it.1 := f it.1 it.2 c]> l
       end)
    (enumerate items) l !! j
  = (fun c => match items !! j with Some x => f j x c | None => c end) <$> (l !! j).
Proof.
  induction items as [|x items IH] using rev_ind.
  - simpl. destruct (l !! j); reflexivity.
  - unfold enumerate in *. rewrite imap_app, fold_left_app. simpl.
    rewrite Nat.add_0_r.
    set (l' := fold_left _ _ l) in *.
    destruct (l' !! length items) as [c|] eqn:E.
    + destruct (decide (j = length items)) as [->|Hne].
      * rewrite list_lookup_insert_eq by (eapply lookup_lt_Some; eauto).
        rewrite E in IH. destruct (l !! length items) as [c0|]; simpl in *; [|discriminate].
        injection IH as ->. rewrite lookup_ge_None_2 by lia.
        rewrite list_lookup_middle by reflexivity. reflexivity.
      * rewrite list_lookup_insert_ne by auto. rewrite IH.
        destruct (l !! j); simpl; [|reflexivity]. f_equal.
        destruct (decide (j < length items)%nat).
        -- rewrite lookup_app_l by lia. reflexivity.
        -- rewrite (lookup_ge_None_2 items j) by lia.
           rewrite (lookup_ge_None_2 (items ++ [x]) j); [reflexivity|].
           rewrite length_app. simpl. lia.
    + rewrite IH. destruct (l !! j) eqn:Ej; simpl; [|reflexivity]. f_equal.
      destruct (decide (j = length items)) as [->|Hne].
      * rewrite E in IH. discriminate.
      * destruct (decide (j < length items)%nat).
        -- rewrite lookup_app_l by lia. reflexivity.
        -- rewrite (lookup_ge_None_2 items j) by lia.
           rewrite (lookup_ge_None_2 (items ++ [x]) j); [reflexivity|].
           rewrite length_app. simpl. lia.
Qed.

Lemma tc_at_add_table (n k R C : nat) :
  tc_at (add_table n k) R C =
    if bool_decide (R < n)%nat && bool_decide (C < k)%nat then Some empty_tc else None.
Proof.
  unfold tc_at, add_table.
  destruct (decide (R < n)%nat) as [Hr|Hr].
  - rewrite (lookup_replicate_2 n _ R Hr). simpl.
    rewrite bool_decide_eq_true_2 by exact Hr. simpl.
    destruct (decide (C < k)%nat) as [Hc|Hc].
    + rewrite (lookup_replicate_2 k _ C Hc), bool_decide_eq_true_2 by exact Hc. reflexivity.
    + rewrite lookup_ge_None_2 by (rewrite length_replicate; lia).
      rewrite bool_decide_eq_false_2 by exact Hc. reflexivity.
  - rewrite lookup_ge_None_2 by (rewrite length_replicate; lia).
    rewrite bool_decide_eq_false_2 by exact Hr. reflexivity.
Qed.

Lemma fill_row_lookup (b : bool) (texts : list pystr) (tr : list tc) (C : nat) :
  fill_row b texts tr !! C =
    (fun c => match texts !! C with Some t => fill_cell b t c | None => c end)
    <$> (tr !! C).
Proof.
  unfold fill_row.
  exact (fold_update_lookup (fun _ t c => fill_cell b t c) texts tr C).
Qed.

Lemma tc_at_fill_table (rws : list (list pystr)) (bgs : list bool)
    (table : docx_table) (R C : nat) :
  tc_at (fill_table rws bgs table) R C =
    (fun c =>
       match rws !! R ≫= (fun row_texts => row_texts !! C) with
       | Some t => fill_cell (default false (bgs !! R)) t c
       | None => c
       end) <$> tc_at table R C.
Proof.
  unfold tc_at, fill_table.
  rewrite (fold_update_lookup
             (fun r row_texts tr => fill_row (default false (bgs !! r)) row_texts tr)
             rws table R).
  destruct (table !! R) as [tr|]; simpl; [|reflexivity].
  destruct (rws !! R) as [row_texts|]; simpl.
  - rewrite fill_row_lookup. reflexivity.
  - destruct (tr !! C); reflexivity.
Qed.


Lemma tc_at_apply_merge_row (mc : gset (nat * nat)) (m : MergeSpan)
    (table : docx_table) (dr R C : nat) :
  tc_at (apply_merge_row mc m table dr) R C =
    (fun c => if bool_decide (R = (row m + dr)%nat /\ C = col m)
              then merge_cell mc m dr c else c)
    <$> tc_at table R C.
Proof.
  unfold apply_merge_row, tc_at.
  destruct (table !! (row m + dr)%nat) as [tr|] eqn:Er.
  - destruct (tr !! col m) as [c|] eqn:Ec.
    + destruct (decide (R = (row m + dr)%nat)) as [->|HR].
      * rewrite list_lookup_insert_eq by (eapply lookup_lt_Some; eauto).
        rewrite Er. simpl.
        destruct (decide (C = col m)) as [->|HC].
        -- rewrite list_lookup_insert_eq by (eapply lookup_lt_Some; eauto).
           rewrite Ec. simpl. rewrite bool_decide_eq_true_2 by auto. reflexivity.
        -- rewrite list_lookup_insert_ne by auto.
           destruct (tr !! C); simpl; [|reflexivity].
           rewrite bool_decide_eq_false_2 by tauto. reflexivity.
      * rewrite list_lookup_insert_ne by auto.
        destruct (table !! R ≫= _); simpl; [|reflexivity].
        rewrite bool_decide_eq_false_2 by tauto. reflexivity.
    + destruct (table !! R) as [tr'|] eqn:Er'; simpl; [|reflexivity].
      destruct (tr' !! C) eqn:Ec'; simpl; [|reflexivity].
      rewrite bool_decide_eq_false_2; [reflexivity|].
      intros [-> ->]. congruence.
  - destruct (table !! R) as [tr'|] eqn:Er'; simpl; [|reflexivity].
    destruct (tr' !! C) eqn:Ec'; simpl; [|reflexivity].
    rewrite bool_decide_eq_false_2; [reflexivity|].
    intros [-> ->]. congruence.
Qed.


Lemma tc_at_apply_merge_rows (mc : gset (nat * nat)) (m : MergeSpan) (n : nat)
    (table : docx_table) (R C : nat) :
  tc_at (fold_left (apply_merge_row mc m) (seq 0 n) table) R C =
    (fun c => if bool_decide (col m = C /\ (row m <= R < row m + n)%nat)
              then merge_cell mc m (R - row m) c else c)
    <$> tc_at table R C.
Proof.
  induction n as [|n IH].
  - simpl. destruct (tc_at table R C); simpl; [|reflexivity].
    rewrite bool_decide_eq_false_2 by lia. reflexivity.
  - rewrite seq_S, fold_left_app. simpl.
    rewrite tc_at_apply_merge_row, IH.
    destruct (tc_at table R C) as [c|]; simpl; [|reflexivity]. f_equal.
    destruct (decide (R = (row m + n)%nat /\ C = col m)) as [[-> ->]|Hn].
    + rewrite bool_decide_eq_true_2 by auto.
      rewrite bool_decide_eq_false_2 by lia.
      rewrite bool_decide_eq_true_2 by lia.
      f_equal. lia.
    + rewrite bool_decide_eq_false_2 by exact Hn.
      destruct (decide (col m = C /\ (row m <= R < row m + n)%nat)) as [H|H].
      * rewrite !bool_decide_eq_true_2; [reflexivity|lia|exact H].
      * rewrite !bool_decide_eq_false_2; [reflexivity| |exact H].
        intros [? ?]. apply H. split; [assumption|].
        destruct (decide (R = (row m + n)%nat)); [|lia]. subst. tauto.
Qed.

Lemma tc_at_apply_merge (mc : gset (nat * nat)) (merges : list MergeSpan)
    (table : docx_table) (R C : nat) :
  tc_at (_apply_merge_to_table table merges mc) R C =
    (fun c => fold_left (fun c m => span_effect mc m R C c) merges c)
    <$> tc_at table R C.
Proof.
  unfold _apply_merge_to_table. revert table.
  induction merges as [|m merges IH]; intros table; simpl.
  - destruct (tc_at table R C); reflexivity.
  - rewrite IH. unfold range. rewrite tc_at_apply_merge_rows.
    destruct (tc_at table R C); reflexivity.
Qed.

Lemma text_merge_cell (mc : gset (nat * nat)) (m : MergeSpan) (dr : nat) (c : tc) :
  text (merge_cell mc m dr c) =
    if bool_decide (((row m + dr)%nat, col m) ∈ mc) then [] else text c.
Proof.
  unfold merge_cell.
  destruct (bool_decide _), (1 <? colspan m), (1 <? rowspan m); reflexivity.
Qed.



Lemma text_fold_span_effect (mc : gset (nat * nat)) (merges : list MergeSpan)
    (R C : nat) (c : tc) :
  text (fold_left (fun c m => span_effect mc m R C c) merges c) =
    if bool_decide ((R, C) ∈ mc)
       && existsb (fun m => bool_decide (addresses m R C)) merges
    then [] else text c.
Proof.
  revert c. induction merges as [|m merges IH]; intros c; simpl.
  - rewrite andb_false_r. reflexivity.
  - rewrite IH. unfold span_effect.
    destruct (decide (addresses m R C)) as [Ha|Ha].
    + rewrite (bool_decide_eq_true_2 _ Ha). simpl. rewrite text_merge_cell.
      destruct Ha as [<- Hr].
      replace (row m + (R - row m))%nat with R by lia.
      destruct (bool_decide ((R, col m) ∈ mc)); simpl; [|reflexivity].
      destruct (existsb _ merges); reflexivity.
    + rewrite (bool_decide_eq_false_2 _ Ha). reflexivity.
Qed.


Lemma tc_at_insert_table (data : table_data) (table : docx_table) (R C : nat) (c : tc) :
  insert_table data = Some table ->
  tc_at table R C = Some c ->
  c = fold_left (fun c m => span_effect (merged_cells_of (merge_info data)) m R C c)
        (merge_info data)
        (match rows data !! R ≫= (fun row_texts => row_texts !! C) with
         | Some t => fill_cell (default false (row_backgrounds data !! R)) t empty_tc
         | None => empty_tc
         end).
Proof.
  unfold insert_table. destruct (rows data) as [|r0 rs] eqn:Erows; [discriminate|].
  intros [= <-]. rewrite tc_at_apply_merge, tc_at_fill_table, tc_at_add_table.
  destruct (bool_decide _ && bool_decide _); simpl; [|discriminate].
  intros [= <-]. reflexivity.
Qed.

Lemma covered_cells_below (m : MergeSpan) (dr : nat) :
  (0 < dr < Z.to_nat (rowspan m))%nat -> 0 < colspan m ->
  In ((row m + dr)%nat, col m) (covered_cells m).
Proof.
  intros Hdr Hcs. unfold covered_cells, range.
  apply in_flat_map. exists dr. split; [apply in_seq; lia|].
  apply in_flat_map. exists 0%nat. split; [apply in_seq; lia|].
  assert ((0 <? dr)%nat = true) as -> by (apply Nat.ltb_lt; lia).
  simpl. left. f_equal. lia.
Qed.

Lemma merged_cells_of_In (merges : list MergeSpan) (m : MergeSpan) (rc : nat * nat) :
  In m merges -> In rc (covered_cells m) -> rc ∈ merged_cells_of merges.
Proof.
  intros Hm Hrc. unfold merged_cells_of.
  apply elem_of_list_to_set, list_elem_of_In, in_flat_map. eauto.
Qed.


(** C1 (as stated): the shadow cell (0, 1) of the span at (0, 0) keeps the
    stray text of the source table. *)
Lemma stray_text_survives : ~ shadow_cells_empty stray_table.
Proof.
  intros H.
  specialize (H _ {| row := 0; col := 0; colspan := 3; rowspan := 2 |} 0%nat 1%nat
                {| text := of_ascii "x"; shd := Some (of_ascii "D9D9D9");
                   gridSpan := None; vMerge := None |} eq_refl).
  assert (of_ascii "x" = []) as E; [|discriminate E].
  apply H; [left; reflexivity | vm_compute; tauto | reflexivity].
Qed.

(** C1 (amended): the text of a cell of the destination table is empty
    when the cell is a shadow cell and lies in the starting column of a
    span that covers its row, and is the text of the source table
    otherwise.  So every shadow cell in the starting column of its span
    (the cells below the origin) is empty whatever the source had there,
    while shadow cells in the other columns of a span keep the text of the
    source table. *)
Theorem shadow_cells_text (data : table_data) (table : docx_table) :
  insert_table data = Some table ->
  (forall (R C : nat) (c : tc),
      tc_at table R C = Some c ->
      text c =
        if bool_decide ((R, C) ∈ merged_cells_of (merge_info data))
           && existsb (fun m => bool_decide (addresses m R C)) (merge_info data)
        then [] else source_text data R C)
  /\ (forall (m : MergeSpan) (dr : nat) (c : tc),
         In m (merge_info data) ->
         (0 < dr < Z.to_nat (rowspan m))%nat -> 0 < colspan m ->
         tc_at table (row m + dr)%nat (col m) = Some c ->
         text c = []).
Proof.
  intros Hins.
  assert (forall (R C : nat) (c : tc),
      tc_at table R C = Some c ->
      text c =
        if bool_decide ((R, C) ∈ merged_cells_of (merge_info data))
           && existsb (fun m => bool_decide (addresses m R C)) (merge_info data)
        then [] else source_text data R C) as Hall.
  { intros R C c Hc. rewrite (tc_at_insert_table data table R C c Hins Hc).
    rewrite text_fold_span_effect. unfold source_text.
    destruct (_ && _); [reflexivity|].
    destruct (rows data !! R ≫= _); reflexivity. }
  split; [exact Hall|].
  intros m dr c Hm Hdr Hcs Hc. rewrite (Hall _ _ _ Hc).
  rewrite bool_decide_eq_true_2
    by (eapply merged_cells_of_In; [exact Hm | apply covered_cells_below; assumption]).
  simpl.
  assert (existsb (fun m0 => bool_decide (addresses m0 (row m + dr) (col m)))
                  (merge_info data) = true) as ->; [|reflexivity].
  apply existsb_exists. exists m. split; [exact Hm|].
  apply bool_decide_eq_true_2. unfold addresses. lia.
Qed.


Lemma shadow_cells_text_witness :
  insert_table stray_table = Some stray_output
  /\ (text <$> tc_at stray_output 1%nat 0%nat) = Some []
  /\ (text <$> tc_at stray_output 1%nat 1%nat) = Some (of_ascii "q").
Proof.
  assert (insert_table stray_table = Some stray_output) as E by reflexivity.
  destruct (shadow_cells_text stray_table stray_output E) as [Hall Hcol].
  split; [exact E|].
  destruct (tc_at stray_output 1%nat 0%nat) as [c0|] eqn:E0; [|discriminate E0].
  destruct (tc_at stray_output 1%nat 1%nat) as [c1|] eqn:E1; [|discriminate E1].
  simpl. split; f_equal.
  - apply (Hcol stray_span 1%nat c0);
      [left; reflexivity | simpl; lia | simpl; lia | exact E0].
  - rewrite (Hall 1%nat 1%nat c1 E1). reflexivity.
Defined.






(* ================================================================== *)
(** * Results: the translation engine *)
(* ================================================================== *)

(** Case analysis on a look-up [H] in a list of length above [i] that was
    updated at index [i]. *)
Ltac insert_cases j i H Hlt :=
  destruct (decide (j = i)) as [->|?];
  [ rewrite list_lookup_insert_eq in H by exact Hlt
  | rewrite list_lookup_insert_ne in H by auto ].

(** ** The first loop of [translate_batch] *)

Lemma enumerate_snoc {A : Type} (l : list A) (x : A) :
  enumerate (l ++ [x]) = enumerate l ++ [(length l, x)].
Proof.
  unfold enumerate. rewrite imap_app. simpl. rewrite Nat.add_0_r. reflexivity.
Qed.

Lemma enumerate_In {A : Type} (l : list A) (i : nat) (x : A) :
  In (i, x) (enumerate l) <-> l !! i = Some x.
Proof.
  unfold enumerate. rewrite <- list_elem_of_In, elem_of_lookup_imap. split.
  - intros (j & y & [= -> ->] & H). exact H.
  - intros H. eauto.
Qed.

Lemma enumerate_fst {A : Type} (l : list A) : (enumerate l).*1 = seq 0 (length l).
Proof.
  induction l as [|x l IH] using rev_ind; [reflexivity|].
  rewrite enumerate_snoc, fmap_app, IH, length_app, seq_app. simpl.
  reflexivity.
Qed.

Lemma batch_scan_fold (cache : gmap pystr pystr) (l rest : list pystr) :
  fold_left (batch_scan cache) (enumerate l) (l ++ rest, [], [])
  = ((prefill cache <$> l) ++ rest, (queue cache l).*2, (queue cache l).*1).
Proof.
  revert rest. induction l as [|x l IH] using rev_ind; intros rest; [reflexivity|].
  rewrite enumerate_snoc, fold_left_app, <- app_assoc.
  cbn [fold_left app]. rewrite IH.
  unfold queue. rewrite enumerate_snoc, List.filter_app, !fmap_app.
  cbn [List.filter fmap list_fmap].
  assert (length l = length (prefill cache <$> l) + 0)%nat as Hlen
    by (rewrite length_fmap; lia).
  assert (queued cache (length l, x)
          = _should_translate x && bool_decide (cache !! strip x = None)) as Hq
    by reflexivity.
  assert (prefill cache x
          = if _should_translate x then default x (cache !! strip x) else x) as Hp
    by reflexivity.
  rewrite Hq, Hp. unfold batch_scan. cbn [fst snd].
  destruct (_should_translate x); cbn [andb].
  - destruct (cache !! strip x) as [hit|] eqn:E.
    + rewrite bool_decide_eq_false_2 by discriminate. cbn [fmap list_fmap default].
      rewrite !app_nil_r, <- app_assoc. cbn [app].
      rewrite Hlen at 1. rewrite insert_app_r. reflexivity.
    + rewrite bool_decide_eq_true_2 by reflexivity. cbn [fmap list_fmap fst snd default].
      rewrite <- app_assoc. reflexivity.
  - cbn [fmap list_fmap]. rewrite !app_nil_r, <- app_assoc. reflexivity.
Qed.

Lemma queue_lookup (cache : gmap pystr pystr) (texts : list pystr) (i : nat) (t : pystr) :
  In (i, t) (queue cache texts) <->
  texts !! i = Some t /\ _should_translate t = true /\ cache !! strip t = None.
Proof.
  unfold queue. rewrite List.filter_In, enumerate_In. unfold queued. simpl.
  rewrite andb_true_iff, bool_decide_eq_true. reflexivity.
Qed.

Lemma NoDup_filter_fst {A : Type} (f : nat * A -> bool) (l : list (nat * A)) :
  NoDup (l.*1) -> NoDup ((List.filter f l).*1).
Proof.
  induction l as [|[i x] l IH]; simpl; [constructor|].
  intros H. apply NoDup_cons in H. destruct H as [Hi Hl].
  destruct (f (i, x)); simpl; [|auto].
  apply NoDup_cons. split; [|auto].
  intros Hin. apply Hi.
  apply list_elem_of_fmap in Hin. destruct Hin as ([j y] & E & Hin). simpl in E. subst j.
  apply list_elem_of_fmap. exists (i, y). split; [reflexivity|].
  apply list_elem_of_In. apply list_elem_of_In in Hin. apply List.filter_In in Hin. tauto.
Qed.

Lemma queue_NoDup (cache : gmap pystr pystr) (texts : list pystr) :
  NoDup ((queue cache texts).*1).
Proof.
  apply NoDup_filter_fst. rewrite enumerate_fst. apply NoDup_seq.
Qed.

(** ** The invariant of the worker pool *)

Lemma answered_mono self0 reqs more t r :
  answered self0 reqs t r -> answered self0 (reqs ++ more) t r.
Proof.
  intros (n & content & Hn & Hl & Hb & Hr). exists n, content.
  repeat split; try assumption. apply lookup_app_l_Some. exact Hl.
Qed.

Lemma failed_mono self0 reqs more t :
  failed self0 reqs t -> failed self0 (reqs ++ more) t.
Proof.
  intros (n & Hn & Hl & Hb). exists n.
  repeat split; try assumption. apply lookup_app_l_Some. exact Hl.
Qed.

Lemma cache_value_mono self0 reqs more k r :
  cache_value self0 reqs k r -> cache_value self0 (reqs ++ more) k r.
Proof.
  intros [H|(t' & Hk & H)]; [left; exact H|].
  right. exists t'. split; [exact Hk|]. apply answered_mono, H.
Qed.

Lemma task_ok_mono self0 reqs more t tk :
  task_ok self0 reqs t tk -> task_ok self0 (reqs ++ more) t tk.
Proof.
  destruct tk as [t'|t'|t' r|r]; simpl; auto.
  - intros [-> H]. split; [reflexivity|]. apply answered_mono, H.
  - intros [[-> [H|H]]|H].
    + left. auto.
    + left. split; [reflexivity|]. right. apply failed_mono, H.
    + right. apply cache_value_mono, H.
Qed.

(** A pool with a single future runs [translate]: its three steps give
    the result and the translator of the uninterrupted call. *)
Lemma translate_as_pool (self : LLMTranslator) (text : pystr) :
  (0 < max_workers self)%nat ->
  exists p,
    run_schedule [0; 0; 0]%nat
      {| translator := self; tasks := [Pending text]; completed := [] |} = Some p
    /\ tasks p = [Finished (translate self text).1]
    /\ translator p = (translate self text).2.
Proof.
  intros Hw. unfold translate.
  assert (can_start {| translator := self; tasks := [Pending text]; completed := [] |} 0
          = true) as Hcs.
  { unfold can_start. simpl. apply Nat.ltb_lt. exact Hw. }
  cbn [run_schedule]. unfold pool_step at 1. cbn [tasks translator lookup list_lookup].
  rewrite Hcs.
  destruct (negb (enabled self) || negb (_should_translate text)).
  { eexists. split; [reflexivity|]. split; reflexivity. }
  destruct (_cache self !! strip text) as [hit|].
  { eexists. split; [reflexivity|]. split; reflexivity. }
  unfold pool_step at 1. cbn [tasks translator set_task lookup list_lookup insert list_insert].
  destruct (completion self text) as [result|].
  - eexists. split; [reflexivity|]. split; reflexivity.
  - eexists. split; [reflexivity|]. split; reflexivity.
Qed.

Lemma completion_backend (self : LLMTranslator) (text : pystr) :
  completion self text = strip <$> backend self (length (requests self)) text.
Proof.
  unfold completion, backend. destruct (client self); reflexivity.
Qed.

(** Replacing an unfinished future keeps the invariant when the new
    translator only adds requests and the new future and cache fit. *)
Lemma set_task_inv self0 tt p i tk_old tk_new self' more :
  pool_inv self0 tt p ->
  tasks p !! i = Some tk_old -> is_finished tk_old = false ->
  enabled self' = true -> client self' = client self0 ->
  max_workers self' = max_workers self0 ->
  requests self' = requests (translator p) ++ more ->
  (forall t, In t more -> In t tt) ->
  (forall t, tt !! i = Some t -> task_ok self0 (requests self') t tk_new) ->
  (forall k v, _cache self' !! k = Some v -> cache_value self0 (requests self') k v) ->
  pool_inv self0 tt (set_task p i tk_new self').
Proof.
  intros [He Hc Hw (extra & Hreq & Hextra) Hlen Htasks Hcache Hnd Hcomp]
         Hi Hold He' Hc' Hw' Hreq' Hmore Hnew Hcache'.
  assert (i < length (tasks p))%nat as Hilt by (eapply lookup_lt_Some; eauto).
  assert (~ In i (completed p)) as Hnotin.
  { intros Hin. apply Hcomp in Hin. destruct Hin as [r Hr].
    rewrite Hr in Hi. injection Hi as <-. discriminate. }
  constructor; simpl; try assumption.
  - exists (extra ++ more). split.
    + rewrite Hreq', Hreq, app_assoc. reflexivity.
    + intros t Ht. apply in_app_iff in Ht. destruct Ht; auto.
  - rewrite length_insert. exact Hlen.
  - intros j tk t Hj Ht. destruct (decide (j = i)) as [->|Hne].
    + rewrite list_lookup_insert_eq in Hj by exact Hilt. injection Hj as <-. auto.
    + rewrite list_lookup_insert_ne in Hj by auto.
      rewrite Hreq'. apply task_ok_mono. eauto.
  - destruct (is_finished tk_new); [|exact Hnd].
    apply NoDup_app. split; [exact Hnd|]. split.
    + intros x Hx Hx'. apply list_elem_of_In in Hx. apply list_elem_of_In in Hx'.
      destruct Hx' as [<-|[]]. contradiction.
    + apply NoDup_singleton.
  - intros j. destruct (decide (j = i)) as [->|Hne].
    + rewrite list_lookup_insert_eq by exact Hilt.
      destruct tk_new as [?|?|? ?|r]; simpl.
      * split; [contradiction|]. intros [r [=]].
      * split; [contradiction|]. intros [r [=]].
      * split; [contradiction|]. intros [r [=]].
      * split; [eauto|]. intros _. apply in_app_iff. right. left. reflexivity.
    + rewrite list_lookup_insert_ne by auto. rewrite <- Hcomp.
      destruct (is_finished tk_new); [|reflexivity].
      rewrite in_app_iff. simpl. intuition congruence.
Qed.

Lemma pool_step_inv self0 tt p i p' :
  pool_inv self0 tt p -> pool_step i p = Some p' -> pool_inv self0 tt p'.
Proof.
  intros Hinv. pose proof Hinv as [He Hc Hw (extra & Hreq & Hextra) Hlen Htasks Hcache Hnd Hcomp].
  unfold pool_step.
  destruct (tasks p !! i) as [[text|text|text result|r]|] eqn:Hi; [| | | |discriminate].
  - (* the cache look-up *)
    destruct (can_start p i); [|discriminate].
    assert (i < length tt)%nat as Hlt by (rewrite <- Hlen; eapply lookup_lt_Some; eauto).
    destruct (lookup_lt_is_Some_2 tt i Hlt) as [t Ht].
    assert (text = t) as -> by (exact (Htasks i _ t Hi Ht)).
    destruct (negb (enabled (translator p)) || negb (_should_translate t)) eqn:Eg.
    + intros [= <-].
      apply (set_task_inv self0 tt p i (Pending t) _ _ []); auto.
      * rewrite app_nil_r. reflexivity.
      * intros t0 [].
      * intros t0 Ht0. rewrite Ht in Ht0. injection Ht0 as <-. simpl. left.
        split; [reflexivity|]. left.
        rewrite He in Eg. simpl in Eg. apply negb_true_iff in Eg. exact Eg.
    + destruct (_cache (translator p) !! strip t) as [hit|] eqn:Ec; intros [= <-].
      * apply (set_task_inv self0 tt p i (Pending t) _ _ []); auto.
        -- rewrite app_nil_r. reflexivity.
        -- intros t0 [].
        -- intros t0 Ht0. rewrite Ht in Ht0. injection Ht0 as <-. simpl. right. auto.
      * apply (set_task_inv self0 tt p i (Pending t) _ _ []); auto.
        -- rewrite app_nil_r. reflexivity.
        -- intros t0 [].
        -- intros t0 Ht0. rewrite Ht in Ht0. injection Ht0 as <-. reflexivity.
  - (* the upstream request *)
    assert (i < length tt)%nat as Hlt by (rewrite <- Hlen; eapply lookup_lt_Some; eauto).
    destruct (lookup_lt_is_Some_2 tt i Hlt) as [t Ht].
    assert (text = t) as -> by (exact (Htasks i _ t Hi Ht)).
    assert (backend (translator p) = backend self0) as Hb
      by (unfold backend; rewrite Hc; reflexivity).
    assert ((requests (translator p) ++ [t]) !! length (requests (translator p)) = Some t)
      as Hlast by (apply list_lookup_middle; reflexivity).
    assert (length (requests self0) <= length (requests (translator p)))%nat as Hle
      by (rewrite Hreq, length_app; lia).
    rewrite completion_backend, Hb.
    destruct (backend self0 (length (requests (translator p))) t) as [content|] eqn:Eb;
      simpl; intros [= <-].
    + apply (set_task_inv self0 tt p i (Calling t) _ _ [t]); auto.
      * intros t0 [<-|[]]. eapply list_elem_of_In, list_elem_of_lookup_2, Ht.
      * intros t0 Ht0. rewrite Ht in Ht0. injection Ht0 as <-. simpl.
        split; [reflexivity|]. exists (length (requests (translator p))), content. auto.
      * simpl. intros k v Hk. apply cache_value_mono. auto.
    + apply (set_task_inv self0 tt p i (Calling t) _ _ [t]); auto.
      * intros t0 [<-|[]]. eapply list_elem_of_In, list_elem_of_lookup_2, Ht.
      * intros t0 Ht0. rewrite Ht in Ht0. injection Ht0 as <-. simpl. left.
        split; [reflexivity|]. right. exists (length (requests (translator p))). auto.
      * simpl. intros k v Hk. apply cache_value_mono. auto.
  - (* the cache store *)
    assert (i < length tt)%nat as Hlt by (rewrite <- Hlen; eapply lookup_lt_Some; eauto).
    destruct (lookup_lt_is_Some_2 tt i Hlt) as [t Ht].
    destruct (Htasks i _ t Hi Ht) as [-> Hans].
    intros [= <-].
    apply (set_task_inv self0 tt p i (Storing t result) _ _ []); auto.
    + simpl. rewrite app_nil_r. reflexivity.
    + intros t0 [].
    + intros t0 Ht0. rewrite Ht in Ht0. injection Ht0 as <-. simpl. right. right.
      exists t. auto.
    + simpl. intros k v Hk. destruct (decide (strip t = k)) as [<-|Hne].
      * rewrite lookup_insert_eq in Hk. injection Hk as <-. right. exists t. auto.
      * rewrite lookup_insert_ne in Hk by exact Hne. auto.
  - intros [= <-]. exact Hinv.
Qed.

Lemma run_schedule_inv self0 tt sched p p' :
  pool_inv self0 tt p -> run_schedule sched p = Some p' -> pool_inv self0 tt p'.
Proof.
  revert p. induction sched as [|i sched IH]; intros p Hinv; simpl.
  - intros [= <-]. exact Hinv.
  - destruct (pool_step i p) as [p1|] eqn:E; [|discriminate].
    apply IH. eapply pool_step_inv; eauto.
Qed.

Lemma pool_inv_init self0 tt :
  enabled self0 = true ->
  pool_inv self0 tt {| translator := self0; tasks := Pending <$> tt; completed := [] |}.
Proof.
  intros He. constructor; simpl; auto.
  - exists []. rewrite app_nil_r. split; [reflexivity|]. intros t [].
  - apply length_fmap.
  - intros j tk t Hj Ht. rewrite list_lookup_fmap, Ht in Hj. injection Hj as <-. reflexivity.
  - intros k v H. left. exact H.
  - constructor.
  - intros j. split; [intros []|]. intros [r Hr].
    rewrite list_lookup_fmap in Hr. destruct (tt !! j); discriminate.
Qed.

(** ** The collection of the results *)

Lemma collect_collect_in indices p results :
  collect indices p results = collect_in (completed p) indices (tasks p) results.
Proof. reflexivity. Qed.

Lemma collect_in_length order indices tks results :
  length (collect_in order indices tks results) = length results.
Proof.
  unfold collect_in. revert results.
  induction order as [|j order IH]; intros results; simpl; [reflexivity|].
  rewrite IH. destruct (tks !! j) as [[| | |r]|]; try reflexivity.
  destruct (indices !! j); [apply length_insert|reflexivity].
Qed.

Lemma collect_in_other order indices tks results i :
  (forall j, In j order -> indices !! j <> Some i) ->
  collect_in order indices tks results !! i = results !! i.
Proof.
  unfold collect_in. revert results.
  induction order as [|j order IH]; intros results H; simpl; [reflexivity|].
  rewrite IH by (intros j' Hj'; apply H; right; exact Hj').
  destruct (tks !! j) as [[| | |r]|]; try reflexivity.
  destruct (indices !! j) as [i'|] eqn:E; [|reflexivity].
  apply list_lookup_insert_ne. intros ->. apply (H j); [left; reflexivity | exact E].
Qed.

Lemma collect_in_hit order indices tks results i j r :
  NoDup indices -> indices !! j = Some i -> In j order ->
  tks !! j = Some (Finished r) -> (i < length results)%nat ->
  collect_in order indices tks results !! i = Some r.
Proof.
  intros Hnd Hji Hin Hr Hlt.
  induction order as [|j' order IH] using rev_ind; [destruct Hin|].
  unfold collect_in in *. rewrite fold_left_app. simpl.
  destruct (decide (j' = j)) as [->|Hne].
  - rewrite Hr, Hji. apply list_lookup_insert_eq.
    fold (collect_in order indices tks results). rewrite collect_in_length. exact Hlt.
  - apply in_app_iff in Hin. destruct Hin as [Hin|[->|[]]]; [|congruence].
    specialize (IH Hin).
    destruct (tks !! j') as [[| | |r']|]; try exact IH.
    destruct (indices !! j') as [i'|] eqn:E; [|exact IH].
    rewrite list_lookup_insert_ne; [exact IH|].
    intros ->. apply Hne. eapply NoDup_lookup; eauto.
Qed.


Lemma translate_batch_unfold (self : LLMTranslator) (texts : list pystr) (sched : list nat) :
  enabled self = true ->
  translate_batch self texts sched =
    match (queue (_cache self) texts).*2 with
    | [] => Some (prefill (_cache self) <$> texts, self)
    | _ :: _ =>
        match run_schedule sched
                {| translator := self;
                   tasks := Pending <$> (queue (_cache self) texts).*2;
                   completed := [] |} with
        | Some p =>
            if forallb is_finished (tasks p)
            then Some (collect (queue (_cache self) texts).*1 p
                               (prefill (_cache self) <$> texts), translator p)
            else None
        | None => None
        end
    end.
Proof.
  intros He. unfold translate_batch. rewrite He. simpl.
  pose proof (batch_scan_fold (_cache self) texts []) as H.
  rewrite !app_nil_r in H. rewrite H. reflexivity.
Qed.

Lemma answered_in_batch self0 tt p t r :
  pool_inv self0 tt p ->
  answered self0 (requests (translator p)) t r -> In t tt.
Proof.
  intros [_ _ _ (extra & Hreq & Hextra) _ _ _ _ _] (n & content & Hn & Hl & _).
  apply Hextra. rewrite Hreq in Hl.
  rewrite lookup_app_r in Hl by exact Hn.
  eapply list_elem_of_In, list_elem_of_lookup_2, Hl.
Qed.

Lemma slot_ok_prefill self self' texts t :
  (_should_translate t = false \/ _cache self !! strip t <> None) ->
  slot_ok self self' texts t (prefill (_cache self) t).
Proof.
  unfold slot_ok, prefill. intros H.
  destruct (_should_translate t); [|reflexivity].
  destruct (_cache self !! strip t); [reflexivity|].
  destruct H; [discriminate|contradiction].
Qed.

Lemma translate_batch_slots (self : LLMTranslator) (texts : list pystr)
    (sched : list nat) (out : list pystr) (self' : LLMTranslator) :
  enabled self = true ->
  translate_batch self texts sched = Some (out, self') ->
  length out = length texts
  /\ forall (i : nat) (t : pystr), texts !! i = Some t ->
       exists r, out !! i = Some r /\ slot_ok self self' texts t r.
Proof.
  intros He. rewrite (translate_batch_unfold self texts sched He).
  set (cache := _cache self). set (q := queue cache texts).
  assert (forall i t, texts !! i = Some t ->
            (prefill cache <$> texts) !! i = Some (prefill cache t)) as Hpre.
  { intros i t Ht. rewrite list_lookup_fmap, Ht. reflexivity. }
  destruct (q.*2) as [|t0 tt'] eqn:Eq.
  { (* nothing to send upstream *)
    intros [= <- <-]. split; [apply length_fmap|].
    intros i t Ht. exists (prefill cache t). split; [apply Hpre, Ht|].
    apply slot_ok_prefill.
    destruct (_should_translate t) eqn:Es; [|left; reflexivity]. right.
    intros Hc.
    assert (In (i, t) q) as Hin by (apply queue_lookup; auto).
    apply (in_map snd) in Hin. change (In t (q.*2)) in Hin. rewrite Eq in Hin.
    destruct Hin. }
  rewrite <- Eq. clear t0 tt' Eq.
  destruct (run_schedule sched _) as [p|] eqn:Erun; [|discriminate].
  destruct (forallb is_finished (tasks p)) eqn:Efin; [|discriminate].
  intros [= <- <-].
  pose proof (run_schedule_inv self (q.*2) sched _ p (pool_inv_init self (q.*2) He) Erun)
    as Hinv.
  pose proof Hinv as [_ _ _ _ Hlen Htasks _ _ Hcomp].
  rewrite collect_collect_in. split.
  { rewrite collect_in_length. apply length_fmap. }
  intros i t Ht.
  destruct (_should_translate t && bool_decide (cache !! strip t = None)) eqn:Equeued.
  - (* the item was queued: its future wrote the slot *)
    apply andb_true_iff in Equeued. destruct Equeued as [Es Ec].
    apply bool_decide_eq_true in Ec.
    assert (In (i, t) q) as Hin by (apply queue_lookup; auto).
    apply list_elem_of_In, list_elem_of_lookup in Hin. destruct Hin as [j Hj].
    assert (q.*1 !! j = Some i) as Hji by (rewrite list_lookup_fmap, Hj; reflexivity).
    assert (q.*2 !! j = Some t) as Hjt by (rewrite list_lookup_fmap, Hj; reflexivity).
    assert (j < length (tasks p))%nat as Hjlt
      by (rewrite Hlen; eapply lookup_lt_Some; eauto).
    destruct (lookup_lt_is_Some_2 _ _ Hjlt) as [tk Htk].
    assert (is_finished tk = true) as Hfin.
    { rewrite forallb_forall in Efin. apply Efin.
      eapply list_elem_of_In, list_elem_of_lookup_2, Htk. }
    destruct tk as [?|?|? ?|r]; try discriminate.
    exists r. split.
    + apply (collect_in_hit _ _ _ _ i j r); auto.
      * apply queue_NoDup.
      * apply Hcomp. eauto.
      * rewrite length_fmap. eapply lookup_lt_Some; eauto.
    + pose proof (Htasks j _ t Htk Hjt) as Hok. simpl in Hok.
      unfold slot_ok. rewrite Es. fold cache. rewrite Ec.
      destruct Hok as [[-> [Hs|Hf]]|[Hc|(t' & Hk & Ha)]].
      * congruence.
      * left. auto.
      * fold cache in Hc. congruence.
      * right. exists t'.
        pose proof (answered_in_batch _ _ _ _ _ Hinv Ha) as Hin'.
        apply (in_map_iff snd) in Hin'. destruct Hin' as ([i' t''] & E & Hin'). simpl in E. subst t''.
        apply queue_lookup in Hin'. destruct Hin' as (Hl & Hs' & _).
        split; [eapply list_elem_of_In, list_elem_of_lookup_2, Hl|]. auto.
  - (* the slot keeps the value of the first loop *)
    exists (prefill cache t). split.
    + rewrite collect_in_other; [apply Hpre, Ht|].
      intros j Hj Hji.
      rewrite list_lookup_fmap in Hji.
      destruct (q !! j) as [[i' t']|] eqn:Eqj; [|discriminate].
      simpl in Hji. injection Hji as ->.
      assert (In (i, t') q) as Hin
        by (eapply list_elem_of_In, list_elem_of_lookup_2, Eqj).
      apply queue_lookup in Hin. destruct Hin as (Ht' & Hs & Hc).
      rewrite Ht in Ht'. injection Ht' as <-.
      rewrite Hs in Equeued. simpl in Equeued.
      apply bool_decide_eq_false in Equeued. contradiction.
    + apply slot_ok_prefill.
      destruct (_should_translate t); [|left; reflexivity]. right.
      simpl in Equeued. apply bool_decide_eq_false in Equeued. exact Equeued.
Qed.

(** ** Progress of the worker pool *)

Lemma pool_step_frame i p p' :
  pool_step i p = Some p' ->
  length (tasks p') = length (tasks p)
  /\ max_workers (translator p') = max_workers (translator p)
  /\ (forall j, j <> i -> tasks p' !! j = tasks p !! j)
  /\ (forall tk tk', tasks p !! i = Some tk -> tasks p' !! i = Some tk' ->
                     (rank tk' <= rank tk)%nat).
Proof.
  unfold pool_step.
  destruct (tasks p !! i) as [[text|text|text result|r]|] eqn:Hi; [| | | |discriminate].
  - destruct (can_start p i); [|discriminate].
    assert (i < length (tasks p))%nat as Hlt by (eapply lookup_lt_Some; eauto).
    destruct (negb (enabled (translator p)) || negb (_should_translate text)).
    + intros [= <-]. simpl. rewrite length_insert.
      repeat split; auto.
      * intros j Hj. apply list_lookup_insert_ne. auto.
      * intros tk tk' [= <-]. rewrite list_lookup_insert_eq by exact Hlt.
        intros [= <-]. simpl. lia.
    + destruct (_cache (translator p) !! strip text); intros [= <-]; simpl;
        rewrite length_insert; repeat split; auto;
        try (intros j Hj; apply list_lookup_insert_ne; auto);
        intros tk tk' [= <-]; rewrite list_lookup_insert_eq by exact Hlt;
        intros [= <-]; simpl; lia.
  - assert (i < length (tasks p))%nat as Hlt by (eapply lookup_lt_Some; eauto).
    destruct (completion (translator p) text); intros [= <-]; simpl;
      rewrite length_insert; repeat split; auto;
      try (intros j Hj; apply list_lookup_insert_ne; auto);
      intros tk tk' [= <-]; rewrite list_lookup_insert_eq by exact Hlt;
      intros [= <-]; simpl; lia.
  - assert (i < length (tasks p))%nat as Hlt by (eapply lookup_lt_Some; eauto).
    intros [= <-]; simpl;
      rewrite length_insert; repeat split; auto;
      try (intros j Hj; apply list_lookup_insert_ne; auto);
      intros tk tk' [= <-]; rewrite list_lookup_insert_eq by exact Hlt;
      intros [= <-]; simpl; lia.
  - intros [= <-]. repeat split; auto.
    intros tk tk' H1 H2. rewrite Hi in H2. injection H1 as <-. injection H2 as <-. lia.
Qed.

Lemma can_start_before i p :
  can_start p i = true ->
  forall j tk, (j < i)%nat -> tasks p !! j = Some tk -> is_pending tk = false.
Proof.
  unfold can_start. intros H j tk Hj Htk.
  apply andb_true_iff in H. destruct H as [H _].
  rewrite forallb_forall in H.
  apply negb_true_iff. apply H.
  apply list_elem_of_In. apply (list_elem_of_lookup_2 _ j).
  rewrite lookup_take_lt by exact Hj. exact Htk.
Qed.

Lemma pool_step_fifo i p p' :
  fifo (tasks p) -> pool_step i p = Some p' -> fifo (tasks p').
Proof.
  intros Hf Hstep.
  destruct (pool_step_frame i p p' Hstep) as (Hlen & _ & Hother & Hrank).
  intros j j' tk tk' Hle Hj Hj' Hp.
  destruct (decide (j = i)) as [->|Hji].
  - (* a future never becomes pending *)
    assert (i < length (tasks p))%nat as Hlt
      by (rewrite <- Hlen; eapply lookup_lt_Some; eauto).
    destruct (lookup_lt_is_Some_2 _ _ Hlt) as [tk0 Htk0].
    pose proof (Hrank _ _ Htk0 Hj) as Hr.
    assert (is_pending tk0 = true) as Hp0.
    { destruct tk; try discriminate. destruct tk0; simpl in Hr; try lia. reflexivity. }
    (* so the step was not a start: the step on a pending future starts it *)
    exfalso. unfold pool_step in Hstep. rewrite Htk0 in Hstep.
    destruct tk0 as [text| | |]; try discriminate.
    destruct (can_start p i); [|discriminate].
    assert (exists tk1, is_pending tk1 = false /\ p' = set_task p i tk1 (translator p))
      as (tk1 & Hp1 & ->).
    { destruct (negb (enabled (translator p)) || negb (_should_translate text)).
      - injection Hstep as <-. eexists. split; [|reflexivity]. reflexivity.
      - destruct (_cache (translator p) !! strip text); injection Hstep as <-;
          eexists; (split; [|reflexivity]); reflexivity. }
    simpl in Hj. rewrite list_lookup_insert_eq in Hj by exact Hlt.
    injection Hj as <-. congruence.
  - rewrite (Hother j Hji) in Hj.
    destruct (decide (j' = i)) as [->|Hj'i].
    + assert (i < length (tasks p))%nat as Hlt
        by (rewrite <- Hlen; eapply lookup_lt_Some; eauto).
      destruct (lookup_lt_is_Some_2 _ _ Hlt) as [tk0 Htk0].
      pose proof (Hf j i tk tk0 Hle Hj Htk0 Hp) as Hp0.
      exfalso. unfold pool_step in Hstep. rewrite Htk0 in Hstep.
      destruct tk0 as [text| | |]; try discriminate.
      destruct (can_start p i) eqn:Ecs; [|discriminate].
      assert (j < i)%nat as Hlt' by lia.
      pose proof (can_start_before i p Ecs j tk Hlt' Hj). congruence.
    + rewrite (Hother j' Hj'i) in Hj'. eauto.
Qed.

Lemma filter_running_nil (tks : list task) :
  (forall j tk, tks !! j = Some tk -> is_running tk = false) ->
  List.filter is_running tks = [].
Proof.
  induction tks as [|tk tks IH]; intros H; simpl; [reflexivity|].
  rewrite (H 0%nat tk eq_refl). apply IH. intros j tk' Hj. apply (H (S j)). exact Hj.
Qed.

Lemma can_start_first_pending p k text :
  fifo (tasks p) -> (0 < max_workers (translator p))%nat ->
  tasks p !! k = Some (Pending text) ->
  (forall j tk, (j < k)%nat -> tasks p !! j = Some tk -> is_finished tk = true) ->
  can_start p k = true.
Proof.
  intros Hf Hw Hk Hdone. unfold can_start. apply andb_true_iff. split.
  - apply forallb_forall. intros tk Htk.
    apply list_elem_of_In, list_elem_of_lookup in Htk. destruct Htk as [j Hj].
    assert (j < k)%nat as Hjk.
    { apply lookup_lt_Some in Hj. rewrite length_take in Hj. lia. }
    rewrite lookup_take_lt in Hj by exact Hjk.
    pose proof (Hdone j tk Hjk Hj). destruct tk; try discriminate. reflexivity.
  - rewrite filter_running_nil; [apply Nat.ltb_lt; exact Hw|].
    intros j tk Hj. destruct (decide (j < k)%nat) as [Hjk|Hjk].
    + pose proof (Hdone j tk Hjk Hj). destruct tk; try discriminate. reflexivity.
    + assert (is_pending tk = true) as Hp
        by (apply (Hf k j (Pending text) tk); [lia|assumption|assumption|reflexivity]).
      destruct tk; try discriminate. reflexivity.
Qed.

(** A future that can run takes a step that brings it closer to
    completion. *)
Lemma pool_step_progress i p tk :
  tasks p !! i = Some tk ->
  (is_pending tk = true -> can_start p i = true) ->
  exists p' tk', pool_step i p = Some p' /\ tasks p' !! i = Some tk'
                 /\ (rank tk' <= pred (rank tk))%nat.
Proof.
  intros Hi Hcs. unfold pool_step. rewrite Hi.
  assert (i < length (tasks p))%nat as Hlt by (eapply lookup_lt_Some; eauto).
  destruct tk as [text|text|text result|r].
  - rewrite (Hcs eq_refl).
    destruct (negb (enabled (translator p)) || negb (_should_translate text)).
    + eexists _, _. split; [reflexivity|]. simpl.
      rewrite list_lookup_insert_eq by exact Hlt. split; [reflexivity|]. simpl. lia.
    + destruct (_cache (translator p) !! strip text);
        (eexists _, _; split; [reflexivity|]; simpl;
         rewrite list_lookup_insert_eq by exact Hlt; split; [reflexivity|]; simpl; lia).
  - destruct (completion (translator p) text);
      (eexists _, _; split; [reflexivity|]; simpl;
       rewrite list_lookup_insert_eq by exact Hlt; split; [reflexivity|]; simpl; lia).
  - eexists _, _; split; [reflexivity|]; simpl.
    rewrite list_lookup_insert_eq by exact Hlt. split; [reflexivity|]. simpl. lia.
  - eexists _, _. split; [reflexivity|]. split; [exact Hi|]. simpl. lia.
Qed.

(** Three steps complete the first unfinished future. *)
Lemma run_three k p :
  fifo (tasks p) -> (0 < max_workers (translator p))%nat ->
  (k < length (tasks p))%nat ->
  (forall j tk, (j < k)%nat -> tasks p !! j = Some tk -> is_finished tk = true) ->
  exists p', run_schedule [k; k; k] p = Some p'
    /\ fifo (tasks p') /\ max_workers (translator p') = max_workers (translator p)
    /\ length (tasks p') = length (tasks p)
    /\ (forall j tk, (j < S k)%nat -> tasks p' !! j = Some tk -> is_finished tk = true).
Proof.
  intros Hf Hw Hk Hdone.
  destruct (lookup_lt_is_Some_2 _ _ Hk) as [tk0 H0].
  destruct (pool_step_progress k p tk0 H0) as (p1 & tk1 & S1 & H1 & R1).
  { intros Hp. destruct tk0; try discriminate.
    eapply can_start_first_pending; eauto. }
  destruct (pool_step_progress k p1 tk1 H1) as (p2 & tk2 & S2 & H2 & R2).
  { intros Hp. destruct tk1; try discriminate. destruct tk0; simpl in R1; lia. }
  destruct (pool_step_progress k p2 tk2 H2) as (p3 & tk3 & S3 & H3 & R3).
  { intros Hp. destruct tk2; try discriminate. simpl in R2. destruct tk1; simpl in *; lia. }
  exists p3. simpl. rewrite S1, S2, S3.
  destruct (pool_step_frame _ _ _ S1) as (L1 & W1 & O1 & _).
  destruct (pool_step_frame _ _ _ S2) as (L2 & W2 & O2 & _).
  destruct (pool_step_frame _ _ _ S3) as (L3 & W3 & O3 & _).
  split; [reflexivity|]. split.
  { eapply pool_step_fifo; [|exact S3]. eapply pool_step_fifo; [|exact S2].
    eapply pool_step_fifo; [|exact S1]. exact Hf. }
  split; [congruence|]. split; [congruence|].
  intros j tk Hj Htk. destruct (decide (j = k)) as [->|Hne].
  - rewrite H3 in Htk. injection Htk as <-.
    assert (rank tk3 = 0)%nat as Hr.
    { destruct tk0, tk1, tk2; simpl in *; lia. }
    destruct tk3; simpl in Hr; try discriminate. reflexivity.
  - rewrite (O3 j Hne), (O2 j Hne), (O1 j Hne) in Htk.
    apply (Hdone j tk); [lia|exact Htk].
Qed.

Lemma run_schedule_app s1 s2 p :
  run_schedule (s1 ++ s2) p = run_schedule s1 p ≫= run_schedule s2.
Proof.
  revert p. induction s1 as [|i s1 IH]; intros p; simpl; [reflexivity|].
  destruct (pool_step i p); simpl; [apply IH|reflexivity].
Qed.

Lemma run_sequential_from (m k : nat) p :
  fifo (tasks p) -> (0 < max_workers (translator p))%nat ->
  (k + m = length (tasks p))%nat ->
  (forall j tk, (j < k)%nat -> tasks p !! j = Some tk -> is_finished tk = true) ->
  exists p', run_schedule (flat_map (fun i => [i; i; i]) (seq k m)) p = Some p'
    /\ forallb is_finished (tasks p') = true.
Proof.
  revert k p. induction m as [|m IH]; intros k p Hf Hw Hlen Hdone.
  - exists p. split; [reflexivity|]. apply forallb_forall. intros tk Htk.
    apply list_elem_of_In, list_elem_of_lookup in Htk. destruct Htk as [j Hj].
    apply (Hdone j); [|exact Hj]. apply lookup_lt_Some in Hj. lia.
  - destruct (run_three k p Hf Hw ltac:(lia) Hdone) as (p1 & Hrun & Hf1 & Hw1 & Hl1 & Hd1).
    destruct (IH (S k) p1 Hf1 ltac:(lia) ltac:(lia) Hd1) as (p' & Hrun' & Hfin).
    exists p'. split; [|exact Hfin].
    change (flat_map (fun i => [i; i; i]) (seq k (S m)))
      with ([k; k; k] ++ flat_map (fun i => [i; i; i]) (seq (S k) m)).
    rewrite run_schedule_app, Hrun. exact Hrun'.
Qed.

Lemma fifo_init (tt : list pystr) : fifo (Pending <$> tt).
Proof.
  intros j j' tk tk' _ _ Hj' _. rewrite list_lookup_fmap in Hj'.
  destruct (tt !! j'); [|discriminate]. injection Hj' as <-. reflexivity.
Qed.

Lemma run_schedule_frame (sched : list nat) p p' :
  run_schedule sched p = Some p' -> fifo (tasks p) ->
  fifo (tasks p') /\ max_workers (translator p') = max_workers (translator p)
  /\ length (tasks p') = length (tasks p).
Proof.
  revert p. induction sched as [|i sched IH]; intros p; simpl.
  - intros [= <-]. auto.
  - destruct (pool_step i p) as [p1|] eqn:E; [|discriminate].
    intros Hrun Hf.
    destruct (pool_step_frame _ _ _ E) as (L & W & _ & _).
    destruct (IH p1 Hrun (pool_step_fifo _ _ _ Hf E)) as (Hf' & W' & L').
    split; [exact Hf'|]. split; congruence.
Qed.

(** The pool never gets stuck: from any state it can reach, the
    sequential schedule completes every future. *)
Lemma run_schedule_completes (tt : list pystr) (self : LLMTranslator) (sched : list nat) p :
  (0 < max_workers self)%nat ->
  run_schedule sched {| translator := self; tasks := Pending <$> tt; completed := [] |}
    = Some p ->
  exists p', run_schedule (sequential_schedule (length tt)) p = Some p'
             /\ forallb is_finished (tasks p') = true.
Proof.
  intros Hw Hrun.
  destruct (run_schedule_frame sched _ p Hrun (fifo_init tt)) as (Hf & Hw' & Hl).
  simpl in Hw', Hl. rewrite length_fmap in Hl.
  apply (run_sequential_from (length tt) 0 p Hf); [lia | lia |].
  intros j tk Hj. lia.
Qed.

(** [translate_batch] returns: some schedule of the pool completes every
    future, whatever the backend answers. *)
Lemma translate_batch_returns (self : LLMTranslator) (texts : list pystr) :
  (0 < max_workers self)%nat ->
  exists sched out self', translate_batch self texts sched = Some (out, self').
Proof.
  intros Hw. destruct (enabled self) eqn:He.
  - exists (sequential_schedule (length (queue (_cache self) texts).*2)).
    rewrite (translate_batch_unfold self texts _ He).
    destruct ((queue (_cache self) texts).*2) as [|t0 tt'] eqn:Eq; [eauto|].
    rewrite <- Eq.
    destruct (run_schedule_completes ((queue (_cache self) texts).*2) self [] _ Hw eq_refl)
      as (p' & Hrun & Hfin).
    rewrite Hrun, Hfin. eauto.
  - exists [], texts, self. unfold translate_batch. rewrite He. reflexivity.
Qed.

(** ** A pool with a single worker *)

Lemma filter_running_none (tks : list task) :
  List.filter is_running tks = [] ->
  forall j tk, tks !! j = Some tk -> is_running tk = false.
Proof.
  induction tks as [|tk0 tks IH]; intros H j tk Hj; [discriminate|].
  simpl in H. destruct (is_running tk0) eqn:E; [discriminate|].
  destruct j as [|j]; simpl in Hj.
  - injection Hj as <-. exact E.
  - eapply IH; eauto.
Qed.

Lemma can_start_single p i :
  max_workers (translator p) = 1%nat -> can_start p i = true ->
  forall j tk, tasks p !! j = Some tk -> is_running tk = false.
Proof.
  intros Hw H. unfold can_start in H. apply andb_true_iff in H. destruct H as [_ H].
  rewrite Hw in H. apply Nat.ltb_lt in H.
  apply filter_running_none.
  destruct (List.filter is_running (tasks p)); [reflexivity|simpl in H; lia].
Qed.

Lemma new_requests_set_task self0 p i tk self' :
  new_requests self0 (set_task p i tk self') = drop (length (requests self0)) (requests self').
Proof. reflexivity. Qed.

Lemma new_requests_log self0 tt p t :
  pool_inv self0 tt p ->
  drop (length (requests self0)) (requests (log_request (translator p) t))
  = new_requests self0 p ++ [t].
Proof.
  intros [_ _ _ (extra & Hreq & _) _ _ _ _ _]. unfold new_requests. simpl.
  rewrite Hreq, <- app_assoc, !drop_app_length. reflexivity.
Qed.

Section SingleWorker.

(** The translator a batch starts from and the texts it queues: a single
    worker, a backend that answers every request, eligible texts. *)
Variable self0 : LLMTranslator.
Variable tt : list pystr.
Hypothesis Hone : max_workers self0 = 1%nat.
Hypothesis Hsucc : forall n t, backend self0 n t <> None.
Hypothesis Helig : forall t, In t tt -> _should_translate t = true.

Lemma pool_step_serial p i p' :
  pool_inv self0 tt p -> serial_inv self0 tt p ->
  pool_step i p = Some p' -> serial_inv self0 tt p'.
Proof.
  intros Hinv [Hrun Hnd Hkeys Hfin Hcall].
  pose proof Hinv as [He Hc Hw (extra & Hreq & Hextra) Hlen Htasks Hcache _ _].
  unfold pool_step.
  destruct (tasks p !! i) as [[text|text|text result|r]|] eqn:Hi; [| | | |discriminate].
  - (* the cache look-up *)
    destruct (can_start p i) eqn:Ecs; [|discriminate].
    assert (forall j tk, tasks p !! j = Some tk -> is_running tk = false) as Hidle
      by (apply (can_start_single p i); [congruence|exact Ecs]).
    assert (i < length (tasks p))%nat as Hilt by (eapply lookup_lt_Some; eauto).
    assert (i < length tt)%nat as Hlt by (rewrite <- Hlen; exact Hilt).
    destruct (lookup_lt_is_Some_2 tt i Hlt) as [t Ht].
    assert (text = t) as -> by (exact (Htasks i _ t Hi Ht)).
    assert (_should_translate t = true) as Hs
      by (apply Helig; eapply list_elem_of_In, list_elem_of_lookup_2, Ht).
    rewrite He, Hs. simpl.
    destruct (_cache (translator p) !! strip t) as [hit|] eqn:Ec; intros [= <-].
    + constructor; simpl.
      * intros j j' tk tk' Hj Hj' Hr Hr'.
        destruct (decide (j = i)) as [->|Hne];
          [rewrite list_lookup_insert_eq in Hj by exact Hilt; injection Hj as <-; discriminate|].
        rewrite list_lookup_insert_ne in Hj by auto.
        rewrite (Hidle j tk Hj) in Hr. discriminate.
      * exact Hnd.
      * intros t0 Ht0. destruct (Hkeys t0 Ht0) as [H|(j & t' & r & Hj & Hk)]; [left; exact H|].
        pose proof (Hidle j _ Hj). discriminate.
      * intros j r t0 Hj Ht0. destruct (decide (j = i)) as [->|Hne].
        -- rewrite Ht in Ht0. injection Ht0 as <-. rewrite Ec. discriminate.
        -- rewrite list_lookup_insert_ne in Hj by auto. eauto.
      * intros j t0 Hj. insert_cases j i Hj Hilt.
        -- discriminate.
        -- eauto.
    + constructor; simpl.
      * intros j j' tk tk' Hj Hj' Hr Hr'.
        destruct (decide (j = i)) as [->|Hne]; destruct (decide (j' = i)) as [->|Hne'];
          try reflexivity.
        -- rewrite list_lookup_insert_ne in Hj' by auto.
           rewrite (Hidle j' tk' Hj') in Hr'. discriminate.
        -- rewrite list_lookup_insert_ne in Hj by auto.
           rewrite (Hidle j tk Hj) in Hr. discriminate.
        -- rewrite list_lookup_insert_ne in Hj by auto.
           rewrite (Hidle j tk Hj) in Hr. discriminate.
      * exact Hnd.
      * intros t0 Ht0. destruct (Hkeys t0 Ht0) as [H|(j & t' & r & Hj & Hk)]; [left; exact H|].
        pose proof (Hidle j _ Hj). discriminate.
      * intros j r t0 Hj Ht0. insert_cases j i Hj Hilt.
        -- discriminate.
        -- eauto.
      * intros j t0 Hj. insert_cases j i Hj Hilt.
        -- injection Hj as <-. exact Ec.
        -- eauto.
  - (* the upstream request *)
    assert (i < length (tasks p))%nat as Hilt by (eapply lookup_lt_Some; eauto).
    assert (backend (translator p) = backend self0) as Hb
      by (unfold backend; rewrite Hc; reflexivity).
    rewrite completion_backend, Hb.
    destruct (backend self0 (length (requests (translator p))) text) as [content|] eqn:Eb;
      [|exfalso; exact (Hsucc _ _ Eb)].
    simpl. intros [= <-].
    constructor; simpl.
    + intros j j' tk tk' Hj Hj' Hr Hr'.
      assert (forall j0 tk0, <[i:=Storing text (strip content)]> (tasks p) !! j0 = Some tk0 ->
                             is_running tk0 = true -> j0 = i) as Honly.
      { intros j0 tk0 Hj0 Hr0. destruct (decide (j0 = i)) as [->|Hne]; [reflexivity|].
        rewrite list_lookup_insert_ne in Hj0 by auto.
        apply (Hrun j0 i tk0 (Calling text)); auto. }
      rewrite (Honly j tk Hj Hr), (Honly j' tk' Hj' Hr'). reflexivity.
    + rewrite new_requests_set_task, (new_requests_log self0 tt p text Hinv).
      rewrite fmap_app. apply NoDup_app. split; [exact Hnd|]. split; [|apply NoDup_singleton].
      intros k Hk Hk'. apply list_elem_of_In in Hk'. destruct Hk' as [<-|[]].
      apply list_elem_of_fmap in Hk. destruct Hk as (t0 & Hk & Ht0).
      apply list_elem_of_In in Ht0.
      destruct (Hkeys t0 Ht0) as [H|(j & t' & r & Hj & Hk')].
      * rewrite <- Hk in H. rewrite (Hcall i text Hi) in H. contradiction.
      * assert (j = i) by (apply (Hrun j i _ _ Hj Hi); reflexivity). subst j.
        rewrite Hi in Hj. discriminate.
    + rewrite new_requests_set_task, (new_requests_log self0 tt p text Hinv).
      intros t0 Ht0. apply in_app_iff in Ht0. destruct Ht0 as [Ht0|[<-|[]]].
      * destruct (Hkeys t0 Ht0) as [H|(j & t' & r & Hj & Hk)]; [left; exact H|].
        right. exists j, t', r. split; [|exact Hk].
        destruct (decide (j = i)) as [->|Hne]; [rewrite Hi in Hj; discriminate|].
        rewrite list_lookup_insert_ne by auto. exact Hj.
      * right. exists i, text, (strip content).
        rewrite list_lookup_insert_eq by exact Hilt. auto.
    + intros j r t0 Hj Ht0. insert_cases j i Hj Hilt.
      * discriminate.
      * eauto.
    + intros j t0 Hj. insert_cases j i Hj Hilt.
      * discriminate.
      * eauto.
  - (* the cache store *)
    assert (i < length (tasks p))%nat as Hilt by (eapply lookup_lt_Some; eauto).
    assert (i < length tt)%nat as Hlt by (rewrite <- Hlen; exact Hilt).
    destruct (lookup_lt_is_Some_2 tt i Hlt) as [t Ht].
    destruct (Htasks i _ t Hi Ht) as [-> _].
    intros [= <-].
    assert (forall k, _cache (translator p) !! k <> None ->
                      <[strip t:=result]> (_cache (translator p)) !! k <> None) as Hgrow.
    { intros k Hk. destruct (decide (strip t = k)) as [<-|Hne].
      - rewrite lookup_insert_eq. discriminate.
      - rewrite lookup_insert_ne by exact Hne. exact Hk. }
    constructor; simpl.
    + intros j j' tk tk' Hj Hj' Hr Hr'.
      destruct (decide (j = i)) as [->|Hne];
        [rewrite list_lookup_insert_eq in Hj by exact Hilt; injection Hj as <-; discriminate|].
      destruct (decide (j' = i)) as [->|Hne'];
        [rewrite list_lookup_insert_eq in Hj' by exact Hilt; injection Hj' as <-; discriminate|].
      rewrite list_lookup_insert_ne in Hj, Hj' by auto. eauto.
    + exact Hnd.
    + intros t0 Ht0. left.
      destruct (Hkeys t0 Ht0) as [H|(j & t' & r & Hj & Hk)]; [apply Hgrow, H|].
      assert (j = i) by (apply (Hrun j i _ _ Hj Hi); reflexivity). subst j.
      rewrite Hi in Hj. injection Hj as <- <-. rewrite <- Hk, lookup_insert_eq. discriminate.
    + intros j r t0 Hj Ht0. destruct (decide (j = i)) as [->|Hne].
      * rewrite Ht in Ht0. injection Ht0 as <-. rewrite lookup_insert_eq. discriminate.
      * rewrite list_lookup_insert_ne in Hj by auto. apply Hgrow. eauto.
    + intros j t0 Hj. destruct (decide (j = i)) as [->|Hne].
      * rewrite list_lookup_insert_eq in Hj by exact Hilt. discriminate.
      * rewrite list_lookup_insert_ne in Hj by auto.
        assert (j = i) by (apply (Hrun j i _ _ Hj Hi); reflexivity). contradiction.
  - intros [= <-]. constructor; assumption.
Qed.

Lemma run_schedule_serial sched p p' :
  pool_inv self0 tt p -> serial_inv self0 tt p ->
  run_schedule sched p = Some p' -> serial_inv self0 tt p'.
Proof.
  revert p.
  induction sched as [|i sched IH]; intros p Hinv Hser; simpl.
  - intros [= <-]. exact Hser.
  - destruct (pool_step i p) as [p1|] eqn:E; [|discriminate].
    apply IH.
    + eapply pool_step_inv; eauto.
    + eapply pool_step_serial; eauto.
Qed.

End SingleWorker.

Lemma serial_inv_init self0 tt :
  serial_inv self0 tt {| translator := self0; tasks := Pending <$> tt; completed := [] |}.
Proof.
  assert (forall j tk, (Pending <$> tt) !! j = Some tk -> exists t, tk = Pending t) as Hp.
  { intros j tk Hj. rewrite list_lookup_fmap in Hj.
    destruct (tt !! j); [|discriminate]. injection Hj as <-. eauto. }
  constructor; simpl.
  - intros j j' tk tk' Hj _ Hr. destruct (Hp j tk Hj) as [t ->]. discriminate.
  - unfold new_requests. simpl. rewrite drop_all. constructor.
  - unfold new_requests. simpl. rewrite drop_all. intros t [].
  - intros j r t Hj. destruct (Hp j _ Hj) as [t' [=]].
  - intros j t Hj. destruct (Hp j _ Hj) as [t' [=]].
Qed.

Lemma pool_step_cache_grows i p p' (k : pystr) :
  pool_step i p = Some p' ->
  _cache (translator p) !! k <> None -> _cache (translator p') !! k <> None.
Proof.
  unfold pool_step.
  destruct (tasks p !! i) as [[text|text|text result|r]|]; [| | | |discriminate].
  - destruct (can_start p i); [|discriminate].
    destruct (negb (enabled (translator p)) || negb (_should_translate text));
      [intros [= <-]; auto|].
    destruct (_cache (translator p) !! strip text); intros [= <-]; auto.
  - destruct (completion (translator p) text); intros [= <-]; auto.
  - intros [= <-] Hk. simpl. destruct (decide (strip text = k)) as [<-|Hne].
    + rewrite lookup_insert_eq. discriminate.
    + rewrite lookup_insert_ne by exact Hne. exact Hk.
  - intros [= <-]. auto.
Qed.

Lemma run_schedule_cache_grows sched p p' (k : pystr) :
  run_schedule sched p = Some p' ->
  _cache (translator p) !! k <> None -> _cache (translator p') !! k <> None.
Proof.
  revert p. induction sched as [|i sched IH]; intros p; simpl.
  - intros [= <-]. auto.
  - destruct (pool_step i p) as [p1|] eqn:E; [|discriminate].
    intros Hrun Hk. apply (IH p1 Hrun). eapply pool_step_cache_grows; eauto.
Qed.

Lemma queue_texts_In (cache : gmap pystr pystr) (texts : list pystr) (t : pystr) :
  In t (queue cache texts).*2 <->
  In t texts /\ _should_translate t = true /\ cache !! strip t = None.
Proof.
  split.
  - intros H. apply (in_map_iff snd) in H. destruct H as ([i t'] & E & H). simpl in E. subst t'.
    apply queue_lookup in H. destruct H as (Hl & Hs & Hc).
    split; [|auto]. eapply list_elem_of_In, list_elem_of_lookup_2, Hl.
  - intros (Hin & Hs & Hc).
    apply list_elem_of_In, list_elem_of_lookup in Hin. destruct Hin as [i Hi].
    apply (in_map_iff snd). exists (i, t). split; [reflexivity|].
    apply queue_lookup. auto.
Qed.

Lemma distinct_keys_In (self : LLMTranslator) (texts : list pystr) (k : pystr) :
  In k (distinct_keys self texts) <->
  exists t, In t texts /\ _should_translate t = true
            /\ _cache self !! strip t = None /\ strip t = k.
Proof.
  unfold distinct_keys.
  rewrite <- list_elem_of_In, elem_of_remove_dups, list_elem_of_fmap. split.
  - intros (t & -> & Ht). apply list_elem_of_In, queue_texts_In in Ht.
    exists t. tauto.
  - intros (t & Hin & Hs & Hc & <-). exists t. split; [reflexivity|].
    apply list_elem_of_In, queue_texts_In. auto.
Qed.

(** C4 (amended): with a single worker and a backend whose requests
    succeed, a batch sends upstream exactly one request for each distinct
    trimmed form of its eligible texts that are not in the cache, under
    every schedule of the pool; afterwards every eligible text of the
    batch is in the cache, so that later batches do not ask for it
    again. *)
Theorem single_worker_requests (self : LLMTranslator) (texts : list pystr)
    (sched : list nat) (out : list pystr) (self' : LLMTranslator) :
  enabled self = true ->
  max_workers self = 1%nat ->
  (forall n t, backend self n t <> None) ->
  translate_batch self texts sched = Some (out, self') ->
  exists new : list pystr,
    requests self' = requests self ++ new
    /\ NoDup (strip <$> new)
    /\ (forall k, In k (strip <$> new) <-> In k (distinct_keys self texts))
    /\ length new = length (distinct_keys self texts)
    /\ (forall t, In t texts -> _should_translate t = true ->
                  _cache self' !! strip t <> None).
Proof.
  intros He Hone Hsucc. rewrite (translate_batch_unfold self texts sched He).
  set (cache := _cache self). set (tt := (queue cache texts).*2).
  assert (forall new : list pystr,
             NoDup (strip <$> new) ->
             (forall k, In k (strip <$> new) <-> In k (distinct_keys self texts)) ->
             length new = length (distinct_keys self texts)) as Hcount.
  { intros new Hnd Hel. rewrite <- (length_fmap strip new).
    apply Permutation_length, NoDup_Permutation; [exact Hnd | apply NoDup_remove_dups |].
    intros k. rewrite !list_elem_of_In. apply Hel. }
  destruct tt as [|t0 tt'] eqn:Ett.
  { (* nothing is sent *)
    intros [= <- <-]. exists []. rewrite app_nil_r.
    assert (forall k, In k (strip <$> []) <-> In k (distinct_keys self texts)) as Hel.
    { intros k. rewrite distinct_keys_In. split; [intros []|].
      intros (t & Hin & Hs & Hc & _).
      assert (In t tt) as Hq by (apply queue_texts_In; auto).
      rewrite Ett in Hq. destruct Hq. }
    split; [reflexivity|]. split; [constructor|]. split; [exact Hel|].
    split; [apply Hcount; [constructor|exact Hel]|].
    intros t Hin Hs Hc.
    assert (In t tt) as Hq by (apply queue_texts_In; auto).
    rewrite Ett in Hq. destruct Hq. }
  rewrite <- Ett. clear t0 tt' Ett.
  destruct (run_schedule sched _) as [p|] eqn:Erun; [|discriminate].
  destruct (forallb is_finished (tasks p)) eqn:Efin; [|discriminate].
  intros [= <- <-].
  assert (forall t, In t tt -> _should_translate t = true) as Helig
    by (intros t Ht; apply queue_texts_In in Ht; tauto).
  pose proof (run_schedule_inv self tt sched _ p (pool_inv_init self tt He) Erun) as Hinv.
  pose proof (run_schedule_serial self tt Hone Hsucc Helig sched _ p
                (pool_inv_init self tt He) (serial_inv_init self tt) Erun) as Hser.
  pose proof Hinv as [_ _ _ (extra & Hreq & Hextra) Hlen Htasks Hcache _ _].
  pose proof Hser as [_ Hnd _ Hfin _].
  assert (new_requests self p = extra) as Hnew
    by (unfold new_requests; rewrite Hreq, drop_app_length; reflexivity).
  rewrite Hnew in Hnd.
  assert (forall t, In t tt -> _cache (translator p) !! strip t <> None) as Hstored.
  { intros t Ht. apply list_elem_of_In, list_elem_of_lookup in Ht. destruct Ht as [j Hj].
    assert (j < length (tasks p))%nat as Hjlt
      by (rewrite Hlen; eapply lookup_lt_Some; eauto).
    destruct (lookup_lt_is_Some_2 _ _ Hjlt) as [tk Htk].
    assert (is_finished tk = true) as Hf.
    { rewrite forallb_forall in Efin. apply Efin.
      eapply list_elem_of_In, list_elem_of_lookup_2, Htk. }
    destruct tk as [?|?|? ?|r]; try discriminate. eauto. }
  assert (forall k, In k (strip <$> extra) <-> In k (distinct_keys self texts)) as Hel.
  { intros k. rewrite distinct_keys_In. split.
    - intros Hk. apply (in_map_iff strip) in Hk. destruct Hk as (t & <- & Ht).
      apply Hextra, queue_texts_In in Ht. exists t. tauto.
    - intros (t & Hin & Hs & Hc & <-).
      assert (In t tt) as Hq by (apply queue_texts_In; auto).
      pose proof (Hstored t Hq) as Hst.
      destruct (_cache (translator p) !! strip t) as [v|] eqn:Ev; [|contradiction].
      destruct (Hcache _ _ Ev) as [H0|(t' & Hk & n & content & Hn & Hl & _)].
      + unfold cache in Hc. rewrite Hc in H0. discriminate.
      + rewrite <- Hk. apply (in_map strip).
        rewrite Hreq, lookup_app_r in Hl by exact Hn.
        eapply list_elem_of_In, list_elem_of_lookup_2, Hl. }
  exists extra. split; [exact Hreq|]. split; [exact Hnd|]. split; [exact Hel|].
  split; [apply Hcount; assumption|].
  intros t Hin Hs.
  destruct (cache !! strip t) as [v|] eqn:Ec.
  - apply (run_schedule_cache_grows sched _ p (strip t) Erun). simpl.
    fold cache. rewrite Ec. discriminate.
  - apply Hstored, queue_texts_In. auto.
Qed.

(** C4 (as stated): with five workers, two futures for the same text both
    miss the cache before either stores its result, and both send a
    request upstream. *)
Lemma two_workers_duplicate_request :
  ~ at_most_one_request (enabled_translator fixed_backend 5) repeated_texts alternating.
Proof.
  intros H.
  assert (exists out self',
             translate_batch (enabled_translator fixed_backend 5) repeated_texts alternating
             = Some (out, self')
             /\ strip <$> drop (length (requests (enabled_translator fixed_backend 5)))
                               (requests self')
                = [text_hello; text_hello]) as (out & self' & E & Hreq).
  { vm_compute. eexists _, _. split; reflexivity. }
  specialize (H out self' E). rewrite Hreq in H.
  apply NoDup_cons in H. destruct H as [H _]. apply H. left.
Qed.

Lemma single_worker_requests_witness :
  exists out self',
    translate_batch (enabled_translator fixed_backend 1) repeated_texts
                    (sequential_schedule 2) = Some (out, self')
    /\ length (requests self') = 1%nat.
Proof.
  assert (exists out self',
             translate_batch (enabled_translator fixed_backend 1) repeated_texts
                             (sequential_schedule 2) = Some (out, self'))
    as (out & self' & E).
  { vm_compute. eexists _, _. reflexivity. }
  exists out, self'. split; [exact E|].
  destruct (single_worker_requests (enabled_translator fixed_backend 1) repeated_texts
              (sequential_schedule 2) out self') as (new & Hreq & _ & _ & Hlen & _).
  - reflexivity.
  - reflexivity.
  - intros n t. discriminate.
  - exact E.
  - rewrite Hreq, length_app, Hlen. reflexivity.
Defined.




(** ** The final review *)

Lemma needs_review_eligible (value : pystr) : needs_review value = _should_translate value.
Proof.
  unfold needs_review, _should_translate. destruct value as [|c v]; [reflexivity|].
  destruct (length (strip (c :: v)) <? 3)%nat; [apply andb_false_r|].
  destruct (_is_chinese (c :: v)); reflexivity.
Qed.

Lemma to_review_clean (m d : fields) :
  (forall kv, In kv m -> _should_translate kv.2 = false) ->
  fold_left (fun d kv => if needs_review kv.2 then dict_set d kv.1 kv.2 else d) m d = d.
Proof.
  revert d. induction m as [|kv m IH]; intros d H; simpl; [reflexivity|].
  rewrite needs_review_eligible, (H kv) by (left; reflexivity).
  apply IH. intros kv' Hkv'. apply H. right. exact Hkv'.
Qed.

(** C9 (as stated): with a backend that returns text that is still
    eligible, the second run sends the output of the first upstream again
    and changes it. *)
Lemma final_review_not_idempotent :
  ~ final_review_idempotent (enabled_translator chatty_backend 5) title_field
      [0; 0; 0]%nat.
Proof.
  intros H.
  destruct (final_review (enabled_translator chatty_backend 5) title_field [0; 0; 0]%nat)
    as [[m1 self1]|] eqn:E1; [|vm_compute in E1; discriminate E1].
  pose proof E1 as V1. vm_compute in V1. injection V1 as <- <-.
  match type of E1 with _ = Some (?m, ?s) =>
    destruct (final_review s m [0; 0; 0]%nat) as [[m2 self2]|] eqn:E2;
      [|vm_compute in E2; discriminate E2]
  end.
  pose proof E2 as V2. vm_compute in V2. injection V2 as <- <-.
  pose proof (H _ _ _ _ E1 E2) as Heq. discriminate Heq.
Qed.

(** C9 (amended): on a field map without eligible field [final_review]
    returns its input and leaves the translator as it is, under every
    schedule; so a second run is a no-op whenever the output of the first
    run has no eligible field. *)
Theorem final_review_clean_noop :
  (forall (self : LLMTranslator) (m : fields) (sched : list nat),
      (forall kv, In kv m -> _should_translate kv.2 = false) ->
      final_review self m sched = Some (m, self))
  /\ (forall (self self' : LLMTranslator) (m m' : fields) (sched sched' : list nat),
         final_review self m sched = Some (m', self') ->
         (forall kv, In kv m' -> _should_translate kv.2 = false) ->
         final_review self' m' sched' = Some (m', self')).
Proof.
  assert (forall (self : LLMTranslator) (m : fields) (sched : list nat),
      (forall kv, In kv m -> _should_translate kv.2 = false) ->
      final_review self m sched = Some (m, self)) as Hclean.
  { intros self m sched H. unfold final_review.
    destruct (enabled self); [|reflexivity]. simpl.
    rewrite (to_review_clean m [] H). reflexivity. }
  split; [exact Hclean|].
  intros self self' m m' sched sched' _ H. apply Hclean, H.
Qed.

Lemma final_review_clean_noop_witness :
  final_review (enabled_translator chatty_backend 5)
    [(of_ascii "standard", text_IEC); (of_ascii "verdict", text_tongguo)] [0%nat]
  = Some ([(of_ascii "standard", text_IEC); (of_ascii "verdict", text_tongguo)],
          enabled_translator chatty_backend 5).
Proof.
  apply (proj1 final_review_clean_noop).
  intros kv [<-|[<-|[]]]; reflexivity.
Defined.

(* ================================================================== *)
(** * Results: [str.strip()] *)
(* ================================================================== *)

Lemma lstrip_starts_clean (s : pystr) : starts_clean (lstrip s).
Proof.
  induction s as [|c s IH]; simpl; [exact I|].
  destruct (Py_UNICODE_ISSPACE c) eqn:E; [exact IH | exact E].
Qed.

Lemma lstrip_clean (s : pystr) : starts_clean s -> lstrip s = s.
Proof. destruct s as [|c s]; simpl; [reflexivity|]. intros ->. reflexivity. Qed.

Lemma lstrip_split (s : pystr) :
  exists pre, s = pre ++ lstrip s /\ forallb Py_UNICODE_ISSPACE pre = true.
Proof.
  induction s as [|c s (pre & IH1 & IH2)]; simpl.
  - exists []. split; reflexivity.
  - destruct (Py_UNICODE_ISSPACE c) eqn:E.
    + exists (c :: pre). simpl. rewrite E, IH2. split; [f_equal; exact IH1 | reflexivity].
    + exists []. split; reflexivity.
Qed.

Lemma starts_clean_app (s t : pystr) : starts_clean s -> s <> [] -> starts_clean (s ++ t).
Proof. destruct s; simpl; [congruence | auto]. Qed.

Lemma strip_stripped (s : pystr) : stripped (strip s).
Proof.
  unfold stripped, strip. rewrite rev_involutive. split; [|apply lstrip_starts_clean].
  destruct (lstrip_split (rev (lstrip s))) as (pre & E & _).
  destruct (lstrip (rev (lstrip s))) as [|c w] eqn:Ew; [exact I|].
  pose proof (lstrip_starts_clean s) as Hs.
  apply (f_equal (@rev Z)) in E. rewrite rev_involutive, rev_app_distr in E.
  rewrite E in Hs. destruct (rev (c :: w)) eqn:Er.
  - apply (f_equal (@length Z)) in Er. rewrite length_rev in Er. discriminate.
  - exact Hs.
Qed.

Lemma strip_fixed (s : pystr) : stripped s -> strip s = s.
Proof.
  intros [H1 H2]. unfold strip.
  rewrite (lstrip_clean s H1), (lstrip_clean _ H2). apply rev_involutive.
Qed.

Lemma strip_idempotent (s : pystr) : strip (strip s) = strip s.
Proof. apply strip_fixed, strip_stripped. Qed.

(** What [strip] removes is whitespace at both ends. *)
Lemma strip_split (s : pystr) :
  exists pre post,
    s = pre ++ strip s ++ post
    /\ forallb Py_UNICODE_ISSPACE pre = true /\ forallb Py_UNICODE_ISSPACE post = true.
Proof.
  destruct (lstrip_split s) as (pre & E1 & H1).
  destruct (lstrip_split (rev (lstrip s))) as (post & E2 & H2).
  exists pre, (rev post). unfold strip. split; [|split; [exact H1|]].
  - rewrite <- rev_app_distr, <- E2, rev_involutive. exact E1.
  - rewrite forallb_forall in *. intros x Hx. apply H2. apply in_rev in Hx. exact Hx.
Qed.

Lemma is_cjk_not_space (c : Z) : is_cjk c = true -> Py_UNICODE_ISSPACE c = false.
Proof.
  unfold is_cjk, Py_UNICODE_ISSPACE. intros H.
  apply andb_true_iff in H. destruct H as [H1 H2].
  apply Z.leb_le in H1. apply Z.leb_le in H2.
  repeat match goal with
         | |- context [?a <=? ?b] => destruct (Z.leb_spec a b); try lia
         | |- context [?a =? ?b] => destruct (Z.eqb_spec a b); try lia
         end; reflexivity.
Qed.

Lemma filter_spaces_nil (f : Z -> bool) (l : pystr) :
  (forall c, f c = true -> Py_UNICODE_ISSPACE c = false) ->
  forallb Py_UNICODE_ISSPACE l = true -> List.filter f l = [].
Proof.
  intros Hf. induction l as [|c l IH]; simpl; [reflexivity|].
  intros H. apply andb_true_iff in H. destruct H as [Hc Hl].
  destruct (f c) eqn:E; [apply Hf in E; congruence | auto].
Qed.

Lemma filter_strip (f : Z -> bool) (s : pystr) :
  (forall c, f c = true -> Py_UNICODE_ISSPACE c = false) ->
  List.filter f (strip s) = List.filter f s.
Proof.
  intros Hf. destruct (strip_split s) as (pre & post & E & H1 & H2).
  rewrite E at 2. rewrite !List.filter_app.
  rewrite (filter_spaces_nil f pre Hf H1), (filter_spaces_nil f post Hf H2).
  rewrite app_nil_r. reflexivity.
Qed.

Lemma is_chinese_strip (text : pystr) :
  strip text <> [] -> _is_chinese (strip text) = _is_chinese text.
Proof.
  intros Hne. unfold _is_chinese.
  destruct text as [|c text]; [contradiction Hne; reflexivity|].
  destruct (strip (c :: text)) as [|d w] eqn:E; [contradiction Hne; reflexivity|].
  rewrite <- E.
  rewrite (filter_strip is_cjk) by apply is_cjk_not_space.
  rewrite (filter_strip (fun c => negb (Py_UNICODE_ISSPACE c))); [reflexivity|].
  intros x. destruct (Py_UNICODE_ISSPACE x); [discriminate | reflexivity].
Qed.

Lemma numeric_text_strip (text : pystr) :
  strip text <> [] -> numeric_text (strip text) <-> numeric_text text.
Proof.
  intros Hne. unfold numeric_text.
  destruct (strip_split text) as (pre & post & E & H1 & H2).
  assert (forall l, forallb Py_UNICODE_ISSPACE l = true -> forallb numeric_class l = true) as Hsp.
  { intros l. rewrite !forallb_forall. intros H x Hx. unfold numeric_class.
    rewrite (H x Hx). rewrite orb_true_r. reflexivity. }
  split; intros [Hn Hall]; split.
  - intros ->. apply Hne. reflexivity.
  - rewrite E, !forallb_app, Hall, (Hsp _ H1), (Hsp _ H2). reflexivity.
  - exact Hne.
  - rewrite E, !forallb_app in Hall.
    apply andb_true_iff in Hall. destruct Hall as [_ Hall].
    apply andb_true_iff in Hall. tauto.
Qed.

Lemma should_translate_unfold (text : pystr) :
  _should_translate text =
    if (length (strip text) <? 3)%nat then false
    else if _is_chinese text then false
    else if re_match_anchored numeric_pattern text then false
    else if re_match_anchored standard_pattern (strip text) then false
    else true.
Proof. destruct text; reflexivity. Qed.

Lemma should_translate_trimmed (text : pystr) :
  _should_translate (strip text) = _should_translate text.
Proof.
  rewrite !should_translate_unfold, strip_idempotent.
  destruct (length (strip text) <? 3)%nat eqn:El; [reflexivity|].
  assert (strip text <> []) as Hne.
  { intros E. rewrite E in El. discriminate. }
  rewrite (is_chinese_strip _ Hne).
  destruct (_is_chinese text); [reflexivity|].
  assert (re_match_anchored numeric_pattern (strip text)
          = re_match_anchored numeric_pattern text) as ->; [|reflexivity].
  apply eq_true_iff_eq. rewrite !numeric_pattern_spec. apply numeric_text_strip, Hne.
Qed.

(** X1: eligibility is decided by the key of the cache: two texts with the
    same trimmed form are both eligible for translation or both not. *)
Theorem should_translate_strip (text text' : pystr) :
  strip text = strip text' -> _should_translate text = _should_translate text'.
Proof.
  intros H. rewrite <- (should_translate_trimmed text), <- (should_translate_trimmed text'), H.
  reflexivity.
Qed.

Lemma should_translate_strip_witness :
  _should_translate ([32; 10] ++ text_hello ++ [9]) = _should_translate text_hello.
Proof. apply should_translate_strip. vm_compute. reflexivity. Defined.

(* ================================================================== *)
(** * Results: the normalization of the cells *)
(* ================================================================== *)

Lemma sub_blank_runs_ok (b : bool) (t : pystr) : blank_ok b (sub_blank_runs b t) = true.
Proof.
  revert b. induction t as [|c t IH]; intros b; simpl; [reflexivity|].
  destruct (is_blank c) eqn:E.
  - destruct b; simpl; [apply IH|]. rewrite IH. reflexivity.
  - simpl. rewrite E. apply IH.
Qed.

Lemma sub_blank_runs_fixed (b : bool) (t : pystr) :
  blank_ok b t = true -> sub_blank_runs b t = t.
Proof.
  revert b. induction t as [|c t IH]; intros b; simpl; [reflexivity|].
  destruct (is_blank c) eqn:E.
  - intros H. apply andb_true_iff in H. destruct H as [H H3].
    apply andb_true_iff in H. destruct H as [H1 H2].
    apply Z.eqb_eq in H1. subst c. destruct b; [discriminate|].
    simpl. f_equal. apply IH, H3.
  - intros H. f_equal. apply IH, H.
Qed.

Lemma newline_ok_replicate (m : nat) (c : Z) (t : pystr) :
  (m <= 2)%nat -> c <> 10 ->
  newline_ok 0 (replicate m 10 ++ c :: t) = newline_ok 0 t.
Proof.
  intros Hm Hc. apply Z.eqb_neq in Hc.
  destruct m as [|[|[|m]]]; simpl; rewrite ?Hc; try reflexivity. lia.
Qed.

Lemma sub_newline_runs_ok (k : nat) (t : pystr) :
  newline_ok 0 (sub_newline_runs k t) = true.
Proof.
  revert k. induction t as [|c t IH]; intros k; simpl.
  - destruct k as [|[|[|k]]]; reflexivity.
  - destruct (Z.eqb_spec c 10) as [->|Hc]; [apply IH|].
    rewrite newline_ok_replicate by (auto; lia). apply IH.
Qed.

Lemma sub_newline_runs_fixed (k : nat) (t : pystr) :
  (k <= 2)%nat -> newline_ok k t = true ->
  sub_newline_runs k t = replicate k 10 ++ t.
Proof.
  revert k. induction t as [|c t IH]; intros k Hk; simpl.
  - intros _. rewrite Nat.min_l by lia. rewrite app_nil_r. reflexivity.
  - destruct (Z.eqb_spec c 10) as [->|Hc].
    + intros H. apply andb_true_iff in H. destruct H as [H1 H2].
      apply Nat.ltb_lt in H1. rewrite IH by (auto; lia).
      rewrite replicate_S_end, <- app_assoc. reflexivity.
    + intros H. rewrite Nat.min_l by lia. rewrite (IH 0%nat) by (auto; lia). reflexivity.
Qed.

Lemma is_blank_newline : is_blank 10 = false.
Proof. reflexivity. Qed.

(** Shortening the runs of newlines joins no two spaces. *)
Lemma sub_newline_runs_blank_ok (b : bool) (k : nat) (t : pystr) :
  blank_ok (b && (k =? 0)%nat) t = true -> blank_ok b (sub_newline_runs k t) = true.
Proof.
  revert b k. induction t as [|c t IH]; intros b k; simpl.
  - intros _. destruct k as [|[|[|k]]]; reflexivity.
  - destruct (Z.eqb_spec c 10) as [->|Hc].
    + simpl. intros H. apply IH. rewrite andb_false_r. exact H.
    + destruct k as [|k].
      * rewrite andb_true_r. simpl.
        destruct (is_blank c).
        -- intros H. apply andb_true_iff in H. destruct H as [H H3]. rewrite H. simpl.
           apply IH. exact H3.
        -- intros H. apply IH. exact H.
      * rewrite andb_false_r.
        assert (forall u, blank_ok b (replicate (Nat.min (S k) 2) 10 ++ u) = blank_ok false u) as ->.
        { intros u. destruct k as [|[|k]]; reflexivity. }
        simpl. destruct (is_blank c).
        -- intros H. apply andb_true_iff in H. destruct H as [H H3]. rewrite H. simpl.
           apply IH. exact H3.
        -- intros H. apply IH. exact H.
Qed.

Lemma blank_ok_weaken (b : bool) (t : pystr) : blank_ok b t = true -> blank_ok false t = true.
Proof.
  destruct t as [|c t]; simpl; [reflexivity|].
  destruct (is_blank c); [|auto].
  intros H. apply andb_true_iff in H. destruct H as [H H3].
  apply andb_true_iff in H. destruct H as [H1 H2]. rewrite H1, H3. reflexivity.
Qed.

Lemma blank_ok_app (b : bool) (s t : pystr) :
  blank_ok b (s ++ t) = true -> blank_ok b s = true /\ blank_ok false t = true.
Proof.
  revert b. induction s as [|c s IH]; intros b; simpl.
  - intros H. split; [reflexivity | exact (blank_ok_weaken _ _ H)].
  - destruct (is_blank c).
    + intros H. apply andb_true_iff in H. destruct H as [H H3].
      apply IH in H3. rewrite H. tauto.
    + apply IH.
Qed.

Lemma newline_ok_mono (j k : nat) (t : pystr) :
  (j <= k)%nat -> newline_ok k t = true -> newline_ok j t = true.
Proof.
  revert j k. induction t as [|c t IH]; intros j k Hjk; simpl; [reflexivity|].
  destruct (c =? 10); [|auto].
  intros H. apply andb_true_iff in H. destruct H as [H1 H2]. apply Nat.ltb_lt in H1.
  apply andb_true_iff. split; [apply Nat.ltb_lt; lia|].
  apply (IH (S j) (S k)); [lia | exact H2].
Qed.

Lemma newline_ok_weaken (k : nat) (t : pystr) : newline_ok k t = true -> newline_ok 0 t = true.
Proof. apply newline_ok_mono. lia. Qed.

Lemma newline_ok_app (k : nat) (s t : pystr) :
  newline_ok k (s ++ t) = true -> newline_ok k s = true /\ newline_ok 0 t = true.
Proof.
  revert k. induction s as [|c s IH]; intros k; simpl.
  - intros H. split; [reflexivity | exact (newline_ok_weaken _ _ H)].
  - destruct (c =? 10).
    + intros H. apply andb_true_iff in H. destruct H as [H H3].
      apply IH in H3. rewrite H. tauto.
    + apply IH.
Qed.

Lemma blank_ok_strip (t : pystr) : blank_ok false t = true -> blank_ok false (strip t) = true.
Proof.
  destruct (strip_split t) as (pre & post & E & _). intros H. rewrite E in H.
  apply blank_ok_app in H. destruct H as [_ H]. apply blank_ok_app in H. tauto.
Qed.

Lemma newline_ok_strip (t : pystr) : newline_ok 0 t = true -> newline_ok 0 (strip t) = true.
Proof.
  destruct (strip_split t) as (pre & post & E & _). intros H. rewrite E in H.
  apply newline_ok_app in H. destruct H as [_ H]. apply newline_ok_app in H. tauto.
Qed.

Lemma blank_ok_no_tab (b : bool) (t : pystr) : blank_ok b t = true -> py_in [9] t = false.
Proof.
  revert b. induction t as [|c t IH]; intros b; [reflexivity|].
  cbn [py_in startswith blank_ok]. intros H.
  assert (py_in [9] t = false) as ->.
  { destruct (is_blank c); [|exact (IH _ H)].
    apply andb_true_iff in H. destruct H as [_ H]. exact (IH _ H). }
  rewrite orb_false_r, andb_true_r.
  apply Z.eqb_neq. intros <-. cbn in H. discriminate H.
Qed.

Lemma blank_ok_no_double (b : bool) (t : pystr) :
  blank_ok b t = true -> py_in [32; 32] t = false.
Proof.
  revert b. induction t as [|c t IH]; intros b; [reflexivity|].
  cbn [py_in startswith blank_ok]. intros H.
  assert (py_in [32; 32] t = false) as ->.
  { destruct (is_blank c); [|exact (IH _ H)].
    apply andb_true_iff in H. destruct H as [_ H]. exact (IH _ H). }
  rewrite orb_false_r.
  destruct (Z.eqb_spec 32 c) as [<-|Hc]; [|reflexivity].
  change (is_blank 32) with true in H. cbn iota in H.
  apply andb_true_iff in H. destruct H as [_ H].
  destruct t as [|d t]; [reflexivity|]. cbn [startswith].
  destruct (Z.eqb_spec 32 d) as [<-|Hd]; [|reflexivity].
  cbn in H. discriminate H.
Qed.

Lemma newline_ok_triple (k : nat) (t : pystr) : newline_ok k (10 :: 10 :: 10 :: t) = false.
Proof.
  cbn [newline_ok]. change (10 =? 10) with true. cbn iota.
  destruct k as [|[|k]]; reflexivity.
Qed.

Lemma newline_ok_no_triple (k : nat) (t : pystr) :
  newline_ok k t = true -> py_in [10; 10; 10] t = false.
Proof.
  revert k. induction t as [|c t IH]; intros k; [reflexivity|].
  cbn [py_in]. intros H.
  assert (py_in [10; 10; 10] t = false) as ->.
  { cbn [newline_ok] in H. destruct (c =? 10); [|exact (IH _ H)].
    apply andb_true_iff in H. destruct H as [_ H]. exact (IH _ H). }
  rewrite orb_false_r. cbn [startswith].
  destruct (Z.eqb_spec 10 c) as [<-|Hc]; [|reflexivity].
  destruct t as [|d t]; [reflexivity|].
  destruct (Z.eqb_spec 10 d) as [<-|Hd]; [|reflexivity].
  destruct t as [|e t]; [reflexivity|].
  destruct (Z.eqb_spec 10 e) as [<-|He]; [|reflexivity].
  rewrite newline_ok_triple in H. discriminate H.
Qed.

(** The three properties of a normalized cell, in the form the proofs
    use. *)
Lemma normalize_cell_ok (c : option pystr) :
  blank_ok false (_normalize_cell c) = true
  /\ newline_ok 0 (_normalize_cell c) = true
  /\ stripped (_normalize_cell c).
Proof.
  destruct c as [text|]; simpl; [|repeat split].
  split; [|split].
  - apply blank_ok_strip, sub_newline_runs_blank_ok. simpl. apply sub_blank_runs_ok.
  - apply newline_ok_strip, sub_newline_runs_ok.
  - apply strip_stripped.
Qed.

Lemma normalize_cell_fixed (t : pystr) :
  blank_ok false t = true -> newline_ok 0 t = true -> stripped t ->
  _normalize_cell (Some t) = t.
Proof.
  intros H1 H2 H3. unfold _normalize_cell.
  rewrite (sub_blank_runs_fixed _ _ H1), (sub_newline_runs_fixed 0 t) by (auto; lia).
  simpl. apply strip_fixed, H3.
Qed.

(** X2: a normalized cell holds no tab, no two adjacent spaces and no three
    adjacent newlines, and neither starts nor ends with whitespace. *)
Theorem normalize_cell_normal_form (c : option pystr) :
  py_in [9] (_normalize_cell c) = false
  /\ py_in [32; 32] (_normalize_cell c) = false
  /\ py_in [10; 10; 10] (_normalize_cell c) = false
  /\ strip (_normalize_cell c) = _normalize_cell c.
Proof.
  destruct (normalize_cell_ok c) as (H1 & H2 & H3).
  split; [exact (blank_ok_no_tab _ _ H1)|].
  split; [exact (blank_ok_no_double _ _ H1)|].
  split; [exact (newline_ok_no_triple _ _ H2)|].
  apply strip_fixed, H3.
Qed.

(** X3: normalizing twice changes nothing more: [_normalize_cell] is
    idempotent. *)
Theorem normalize_cell_idempotent (c : option pystr) :
  _normalize_cell (Some (_normalize_cell c)) = _normalize_cell c.
Proof.
  destruct (normalize_cell_ok c) as (H1 & H2 & H3).
  apply normalize_cell_fixed; assumption.
Qed.

(* ================================================================== *)
(** * Results: the selection of the cells to translate *)
(* ================================================================== *)

Lemma letters_cjk_disjoint (c : Z) : is_ascii_letter c = true -> is_cjk c = false.
Proof.
  unfold is_ascii_letter, is_cjk. intros H.
  repeat match goal with
         | |- context [?a <=? ?b] => destruct (Z.leb_spec a b); try lia
         | H : context [?a <=? ?b] |- _ => destruct (Z.leb_spec a b); try lia
         end; simpl in *; try reflexivity; try discriminate.
Qed.

Lemma count_letters_cjk (text : pystr) :
  length (List.filter (fun c => is_ascii_letter c || is_cjk c) text)
  = (length (List.filter is_ascii_letter text) + length (List.filter is_cjk text))%nat.
Proof.
  induction text as [|c text IH]; simpl; [reflexivity|].
  destruct (is_ascii_letter c) eqn:E.
  - rewrite (letters_cjk_disjoint c E). simpl. lia.
  - simpl. destruct (is_cjk c); simpl; lia.
Qed.

(** X4: a cell is selected for translation exactly when it holds at least
    one ASCII letter and at most nine CJK characters for each ASCII
    letter. *)
Theorem needs_translation_iff (text : pystr) :
  _needs_translation text = true
  <-> (0 < length (List.filter is_ascii_letter text))%nat
      /\ (length (List.filter is_cjk text)
          <= 9 * length (List.filter is_ascii_letter text))%nat.
Proof.
  unfold _needs_translation. destruct text as [|c text]; [simpl; split; [discriminate | lia]|].
  set (t := c :: text). rewrite count_letters_cjk.
  set (l := length (List.filter is_ascii_letter t)).
  set (k := length (List.filter is_cjk t)).
  destruct (Z.eqb_spec (Z.of_nat (l + k)) 0) as [E|E]; [split; [discriminate | lia]|].
  destruct (Z.ltb_spec (9 * Z.of_nat (l + k)) (10 * Z.of_nat k)); split;
    try discriminate; try reflexivity; lia.
Qed.

(* ================================================================== *)
(** * Results: the page range and the extraction *)
(* ================================================================== *)

Lemma upper_bound_le (pages : list pdf_page) : (upper_bound pages <= length pages)%nat.
Proof.
  unfold upper_bound. destruct (first_index has_end_marker 0 pages) as [hi|] eqn:E; simpl.
  - apply first_index_bounds in E. lia.
  - lia.
Qed.

Lemma lower_bound_le (pages : list pdf_page) : (lower_bound pages <= upper_bound pages)%nat.
Proof.
  unfold lower_bound.
  destruct (first_index has_start_marker 0 (take (S (upper_bound pages)) pages)) as [lo|] eqn:E;
    simpl; [|lia].
  apply first_index_bounds in E. rewrite length_take in E. lia.
Qed.

(** X5: the range [find_translation_range] returns is a range of pages of
    the document: [start_page <= end_page <= len(pdf.pages)]. *)
Theorem find_translation_range_bounds (pages : list pdf_page) :
  ((find_translation_range pages).1 <= (find_translation_range pages).2)%nat
  /\ ((find_translation_range pages).2 <= length pages)%nat.
Proof.
  rewrite find_translation_range_closed. simpl.
  split; [apply lower_bound_le | apply upper_bound_le].
Qed.

Lemma extract_fold (pages : list page_geometry) (idxs : list nat)
    (acc : option (list table_data)) :
  fold_left
    (fun acc page_idx =>
       match acc, extract_page pages page_idx with
       | Some tables, Some page_tables => Some (tables ++ page_tables)
       | _, _ => None
       end)
    idxs acc
  = match acc, mapM (extract_page pages) idxs with
    | Some tables, Some per_page => Some (tables ++ concat per_page)
    | _, _ => None
    end.
Proof.
  revert acc. induction idxs as [|i idxs IH]; intros acc; simpl.
  - destruct acc; [rewrite app_nil_r|]; reflexivity.
  - rewrite IH. destruct acc as [tables|].
    + destruct (extract_page pages i) as [pt|]; simpl; [|reflexivity].
      destruct (mapM (extract_page pages) idxs); simpl; [|reflexivity].
      rewrite app_assoc. reflexivity.
    + destruct (mapM (extract_page pages) idxs); reflexivity.
Qed.

(** [extract_tables_from_range] gathers the tables of its pages in
    order. *)
Lemma extract_tables_from_range_pages (pages : list page_geometry) (lo hi : nat) :
  extract_tables_from_range pages lo hi
  = match mapM (extract_page pages) (seq lo (hi - lo)) with
    | Some per_page => Some (concat per_page)
    | None => None
    end.
Proof. unfold extract_tables_from_range. rewrite extract_fold. reflexivity. Qed.

Lemma extract_page_is_Some (pages : list page_geometry) (i : nat) :
  is_Some (extract_page pages i) <-> (i < length pages)%nat.
Proof.
  unfold extract_page. rewrite <- lookup_lt_is_Some.
  destruct (pages !! i) as [pg|]; [|split; intros [? ?]; discriminate].
  split; [eauto|]. intros _. destruct (find_tables pg); eauto.
Qed.

Lemma extract_tables_from_range_is_Some (pages : list page_geometry) (lo hi : nat) :
  is_Some (extract_tables_from_range pages lo hi)
  <-> (hi <= lo)%nat \/ (hi <= length pages)%nat.
Proof.
  rewrite extract_tables_from_range_pages.
  assert (is_Some (mapM (extract_page pages) (seq lo (hi - lo)))
          <-> (hi <= lo)%nat \/ (hi <= length pages)%nat) as <-.
  { rewrite mapM_is_Some, List.Forall_forall. split.
    - intros H. destruct (decide (hi <= lo)%nat) as [|Hlt]; [left; assumption|right].
      specialize (H (hi - 1)%nat). simpl in H. rewrite extract_page_is_Some in H.
      enough (hi - 1 < length pages)%nat by lia.
      apply H, in_seq. lia.
    - intros H i Hi. apply in_seq in Hi. simpl. apply extract_page_is_Some. lia. }
  destruct (mapM _ _); split; intros [? ?]; eauto; discriminate.
Qed.

(** X6: [extract_tables_from_range] raises (the [IndexError] of
    [pdf.pages[page_idx]]) exactly when its range is not empty and ends
    beyond the last page. *)
Theorem extract_tables_from_range_fails (pages : list page_geometry) (lo hi : nat) :
  extract_tables_from_range pages lo hi = None
  <-> (lo < hi)%nat /\ (length pages < hi)%nat.
Proof.
  rewrite eq_None_not_Some, extract_tables_from_range_is_Some. lia.
Qed.

(** On the range [find_translation_range] finds, the extraction reads
    pages of the document only: it raises no [IndexError]. *)
Lemma extract_found_range (doc : pdf) :
  is_Some (extract_tables_from_range (doc.*2) (find_translation_range (doc.*1)).1
                                     (find_translation_range (doc.*1)).2).
Proof.
  apply extract_tables_from_range_is_Some. right.
  pose proof (upper_bound_le (doc.*1)) as H.
  rewrite find_translation_range_closed. simpl.
  rewrite !length_fmap in *. exact H.
Qed.

Lemma normalize_rows_In (tbl : list (list (option pystr))) (r : list pystr) :
  In r (normalize_rows tbl)
  <-> exists raw_row, In raw_row tbl /\ raw_row <> [] /\ r = _normalize_cell <$> raw_row.
Proof.
  unfold normalize_rows. rewrite in_flat_map. split.
  - intros (raw & Hin & Hr). exists raw. destruct raw as [|c raw]; [destruct Hr|].
    destruct Hr as [<-|[]]. repeat split; [exact Hin | discriminate].
  - intros (raw & Hin & Hne & ->). exists raw. split; [exact Hin|].
    destruct raw; [contradiction|]. left. reflexivity.
Qed.

Lemma max_cols_fold (rows : list (list pystr)) (m : nat) :
  fold_left (fun m normalized_row => Nat.max m (length normalized_row)) rows m
  = Nat.max m (max_cols rows).
Proof.
  unfold max_cols. revert m. induction rows as [|r rows IH]; intros m; simpl; [lia|].
  rewrite IH, (IH (length r)). lia.
Qed.

Lemma max_cols_cons (r : list pystr) (rows : list (list pystr)) :
  max_cols (r :: rows) = Nat.max (length r) (max_cols rows).
Proof. unfold max_cols at 1. simpl. apply max_cols_fold. Qed.

Lemma max_cols_bound (rows : list (list pystr)) :
  Forall (fun r => (length r <= max_cols rows)%nat) rows.
Proof.
  induction rows as [|r rows IH]; [constructor|].
  rewrite max_cols_cons. constructor; [lia|].
  eapply Forall_impl; [exact IH|]. simpl. intros; lia.
Qed.

Lemma max_cols_attained (rows : list (list pystr)) :
  rows <> [] -> Exists (fun r => length r = max_cols rows) rows.
Proof.
  induction rows as [|r rows IH]; [congruence|]. intros _.
  rewrite max_cols_cons.
  destruct (Nat.max_spec (length r) (max_cols rows)) as [[Hlt ->]|[Hge ->]].
  - apply Exists_cons_tl. apply IH. intros ->. change (max_cols []) with 0%nat in Hlt. lia.
  - apply Exists_cons_hd. reflexivity.
Qed.

Lemma row_backgrounds_length (cells : list cell) (rows : list (list pystr))
    (col_count : nat) (filled_rects : list filled_rect) :
  length (_analyze_row_backgrounds cells rows col_count filled_rects) = length rows.
Proof. unfold _analyze_row_backgrounds. rewrite length_fmap, length_seq. reflexivity. Qed.


Lemma extract_table_well_formed (page_num : nat) (filled_rects : list filled_rect)
    (table_obj : pdf_table) (t : table_data) :
  extract_table page_num filled_rects table_obj = Some t ->
  well_formed_table t /\ page t = page_num.
Proof.
  unfold extract_table. destruct (extract table_obj) as [|raw0 tbl0] eqn:Et; [discriminate|].
  remember (raw0 :: tbl0) as tbl eqn:Etbl. clear Etbl.
  destruct (normalize_rows tbl) as [|r0 rs] eqn:Er; [discriminate|].
  rewrite <- Er. destruct (is_header_table (normalize_rows tbl)) eqn:Eh; [discriminate|].
  intros [= <-]. split; [|reflexivity]. unfold well_formed_table. simpl.
  assert (normalize_rows tbl <> []) as Hne by (rewrite Er; discriminate).
  split; [exact Hne|]. split; [|split; [|split; [|split]]].
  - pose proof (max_cols_bound (normalize_rows tbl)) as Hb.
    rewrite List.Forall_forall in Hb |- *. intros r Hr. split; [|exact (Hb r Hr)].
    apply normalize_rows_In in Hr. destruct Hr as (raw & _ & Hraw & ->).
    destruct raw; [contradiction | discriminate].
  - apply max_cols_attained, Hne.
  - rewrite List.Forall_forall. intros r Hr.
    apply normalize_rows_In in Hr. destruct Hr as (raw & _ & _ & ->).
    rewrite List.Forall_forall. intros c Hc.
    apply in_map_iff in Hc. destruct Hc as (c0 & <- & _).
    destruct (normalize_cell_ok c0) as (H1 & H2 & H3).
    apply normalize_cell_fixed; assumption.
  - apply row_backgrounds_length.
  - exact Eh.
Qed.

Lemma extract_page_In (pages : list page_geometry) (i : nat) (tbls : list table_data)
    (t : table_data) :
  extract_page pages i = Some tbls -> In t tbls ->
  well_formed_table t /\ page t = (i + 1)%nat.
Proof.
  unfold extract_page. destruct (pages !! i) as [pg|]; [|discriminate].
  destruct (find_tables pg) as [objs|]; intros [= <-]; [|intros []].
  intros Hin. apply list_elem_of_In, list_elem_of_omap in Hin.
  destruct Hin as (obj & _ & Hobj). exact (extract_table_well_formed _ _ _ _ Hobj).
Qed.

(** X7: every table [extract_tables_from_range] returns is well formed (it
    has rows, none of them empty; [col_count] is the length of its longest
    row; its cells are in normal form; it has one background flag for each
    row; it is not a page header) and carries the 1-based number of a page
    of the range. *)
Theorem extracted_tables_well_formed (pages : list page_geometry) (lo hi : nat)
    (tables : list table_data) (t : table_data) :
  extract_tables_from_range pages lo hi = Some tables ->
  In t tables ->
  well_formed_table t /\ (lo < page t <= hi)%nat.
Proof.
  rewrite extract_tables_from_range_pages.
  destruct (mapM (extract_page pages) (seq lo (hi - lo))) as [per_page|] eqn:E; [|discriminate].
  intros [= <-] Hin. apply in_concat in Hin. destruct Hin as (tbls & Htbls & Hin).
  apply mapM_Some_1 in E. apply list_elem_of_In, list_elem_of_lookup in Htbls.
  destruct Htbls as [j Hj].
  destruct (Forall2_lookup_r _ _ _ _ _ E Hj) as (i & Hi & Hp).
  apply list_elem_of_lookup_2, list_elem_of_In, in_seq in Hi.
  destruct (extract_page_In _ _ _ _ Hp Hin) as [Hwf Hpage].
  split; [exact Hwf | lia].
Qed.

Lemma extracted_tables_well_formed_witness :
  well_formed_table synthetic_extracted /\ (0 < page synthetic_extracted <= 1)%nat.
Proof.
  apply (extracted_tables_well_formed [synthetic_page] 0 1 [synthetic_extracted]).
  - vm_compute. reflexivity.
  - left. reflexivity.
Defined.

(* ================================================================== *)
(** * Results: the shape and the shading of the destination tables *)
(* ================================================================== *)

Lemma add_table_shape (n k : nat) : has_shape n k (add_table n k).
Proof.
  unfold has_shape, add_table. rewrite length_replicate. split; [reflexivity|].
  apply Forall_replicate. apply length_replicate.
Qed.

Lemma insert_row_shape (n k i : nat) (tr : list tc) (table : docx_table) :
  has_shape n k table -> length tr = k -> has_shape n k (<[i := tr]> table).
Proof.
  intros [Hn Hk] Htr. unfold has_shape. rewrite length_insert. split; [exact Hn|].
  apply Forall_insert; assumption.
Qed.

Lemma shape_lookup (n k i : nat) (tr : list tc) (table : docx_table) :
  has_shape n k table -> table !! i = Some tr -> length tr = k.
Proof.
  intros [_ Hk] Hi. rewrite List.Forall_forall in Hk. apply Hk.
  apply list_elem_of_In. eapply list_elem_of_lookup_2. exact Hi.
Qed.

Lemma fold_left_preserves {A B : Type} (P : A -> Prop) (f : A -> B -> A) (l : list B) (a : A) :
  (forall a b, P a -> P (f a b)) -> P a -> P (fold_left f l a).
Proof.
  intros Hf. revert a. induction l as [|b l IH]; intros a Ha; simpl; [exact Ha|].
  apply IH, Hf, Ha.
Qed.

Lemma fill_row_length (b : bool) (texts : list pystr) (tr : list tc) :
  length (fill_row b texts tr) = length tr.
Proof.
  unfold fill_row. apply (fold_left_preserves (fun tr' => length tr' = length tr)); [|reflexivity].
  intros tr' item H. destruct (tr' !! item.1); [|exact H].
  rewrite length_insert. exact H.
Qed.

Lemma fill_table_shape (n k : nat) (rws : list (list pystr)) (bgs : list bool)
    (table : docx_table) :
  has_shape n k table -> has_shape n k (fill_table rws bgs table).
Proof.
  unfold fill_table. apply fold_left_preserves.
  intros t item H. destruct (t !! item.1) as [tr|] eqn:E; [|exact H].
  apply insert_row_shape; [exact H|].
  rewrite fill_row_length. exact (shape_lookup _ _ _ _ _ H E).
Qed.

Lemma apply_merge_shape (n k : nat) (merges : list MergeSpan) (mc : gset (nat * nat))
    (table : docx_table) :
  has_shape n k table -> has_shape n k (_apply_merge_to_table table merges mc).
Proof.
  unfold _apply_merge_to_table. apply fold_left_preserves.
  intros t m. apply fold_left_preserves.
  intros t' dr H. unfold apply_merge_row.
  destruct (t' !! (row m + dr)%nat) as [tr|] eqn:E; [|exact H].
  destruct (tr !! col m); [|exact H].
  apply insert_row_shape; [exact H|].
  rewrite length_insert. exact (shape_lookup _ _ _ _ _ H E).
Qed.

Lemma insert_table_None (data : table_data) : insert_table data = None <-> rows data = [].
Proof.
  unfold insert_table. destruct (rows data); split; congruence.
Qed.

Lemma insert_table_Some (data : table_data) :
  rows data <> [] ->
  insert_table data
  = Some (_apply_merge_to_table
            (fill_table (rows data) (row_backgrounds data)
                        (add_table (length (rows data)) (col_count data)))
            (merge_info data) (merged_cells_of (merge_info data))).
Proof. unfold insert_table. destruct (rows data); [congruence | reflexivity]. Qed.

(** X8: a table is left out of the document exactly when it has no rows;
    otherwise the destination table has one row for each row of the
    source and [col_count] cells in every row, whatever the texts and the
    merges. *)
Theorem insert_table_shape (data : table_data) :
  (insert_table data = None <-> rows data = [])
  /\ (forall table : docx_table,
         insert_table data = Some table ->
         has_shape (length (rows data)) (col_count data) table).
Proof.
  split; [apply insert_table_None|].
  intros table. unfold insert_table.
  destruct (rows data) as [|r0 rs] eqn:E; [discriminate|].
  rewrite <- E. intros [= <-].
  apply apply_merge_shape, fill_table_shape, add_table_shape.
Qed.

Lemma insert_table_shape_witness : has_shape 3 4 stray_output.
Proof. apply (proj2 (insert_table_shape stray_table) stray_output). reflexivity. Defined.

Lemma shd_merge_cell (mc : gset (nat * nat)) (m : MergeSpan) (dr : nat) (c : tc) :
  shd (merge_cell mc m dr c) = shd c.
Proof.
  unfold merge_cell.
  destruct (bool_decide _), (1 <? colspan m), (1 <? rowspan m); reflexivity.
Qed.

Lemma shd_fold_span_effect (mc : gset (nat * nat)) (merges : list MergeSpan)
    (R C : nat) (c : tc) :
  shd (fold_left (fun c m => span_effect mc m R C c) merges c) = shd c.
Proof.
  revert c. induction merges as [|m merges IH]; intros c; simpl; [reflexivity|].
  rewrite IH. unfold span_effect. destruct (bool_decide _); [apply shd_merge_cell | reflexivity].
Qed.

(** X9: a cell of the destination table is shaded, with the fill D9D9D9,
    exactly when the source row has a cell in its column and the row is
    flagged in [row_backgrounds]; a row without a flag is not shaded, and
    the merges do not change the shading. *)
Theorem insert_table_shading (data : table_data) (table : docx_table) (R C : nat) (c : tc) :
  insert_table data = Some table ->
  tc_at table R C = Some c ->
  shd c =
    match rows data !! R ≫= (fun row_texts => row_texts !! C), row_backgrounds data !! R with
    | Some _, Some true => Some (of_ascii "D9D9D9")
    | _, _ => None
    end.
Proof.
  intros Hins Hc. rewrite (tc_at_insert_table data table R C c Hins Hc).
  rewrite shd_fold_span_effect.
  destruct (rows data !! R ≫= _); [|reflexivity].
  destruct (row_backgrounds data !! R) as [[|]|]; reflexivity.
Qed.

Lemma insert_table_shading_witness :
  (shd <$> tc_at stray_output 0%nat 3%nat) = Some (Some (of_ascii "D9D9D9"))
  /\ (shd <$> tc_at stray_output 1%nat 3%nat) = Some None.
Proof.
  assert (insert_table stray_table = Some stray_output) as E by reflexivity.
  destruct (tc_at stray_output 0%nat 3%nat) as [c0|] eqn:E0; [|discriminate E0].
  destruct (tc_at stray_output 1%nat 3%nat) as [c1|] eqn:E1; [|discriminate E1].
  simpl. split; f_equal.
  - exact (insert_table_shading stray_table stray_output 0%nat 3%nat c0 E E0).
  - exact (insert_table_shading stray_table stray_output 1%nat 3%nat c1 E E1).
Defined.

(** X10: no cell of an extracted table is lost for lack of room: a well
    formed table is materialized, and every cell of its rows has its cell
    in the destination table. *)
Theorem well_formed_table_materialized (t : table_data) :
  well_formed_table t ->
  exists table : docx_table,
    insert_table t = Some table
    /\ forall (R C : nat) (row_texts : list pystr) (cell_text : pystr),
         rows t !! R = Some row_texts -> row_texts !! C = Some cell_text ->
         is_Some (tc_at table R C).
Proof.
  intros (Hne & Hrows & _).
  rewrite (insert_table_Some t Hne). eexists. split; [reflexivity|].
  intros R C row_texts cell_text HR HC.
  rewrite tc_at_apply_merge, tc_at_fill_table, tc_at_add_table.
  rewrite List.Forall_forall in Hrows.
  destruct (Hrows row_texts) as [_ Hlen].
  { apply list_elem_of_In. eapply list_elem_of_lookup_2. exact HR. }
  apply lookup_lt_Some in HR, HC.
  rewrite !bool_decide_eq_true_2 by lia. simpl. eauto.
Qed.

Lemma well_formed_table_materialized_witness :
  exists table : docx_table,
    insert_table synthetic_extracted = Some table
    /\ is_Some (tc_at table 2%nat 3%nat).
Proof.
  destruct (well_formed_table_materialized synthetic_extracted) as (table & E & H).
  - apply (extract_table_well_formed 1%nat (_extract_filled_rects (rects synthetic_page))
             synthetic_pdf_table).
    vm_compute. reflexivity.
  - exists table. split; [exact E|].
    apply (H 2%nat 3%nat [of_ascii "d"; of_ascii "e"; of_ascii "f"; of_ascii "g"]
             (of_ascii "g")); reflexivity.
Defined.

(* ================================================================== *)
(** * Results: the cells no span addresses *)
(* ================================================================== *)

Lemma fold_span_effect_none (mc : gset (nat * nat)) (merges : list MergeSpan)
    (R C : nat) (c : tc) :
  (forall m, In m merges -> ~ addresses m R C) ->
  fold_left (fun c m => span_effect mc m R C c) merges c = c.
Proof.
  revert c. induction merges as [|m merges IH]; intros c H; simpl; [reflexivity|].
  unfold span_effect at 2.
  rewrite bool_decide_eq_false_2 by (apply H; left; reflexivity).
  apply IH. intros m' Hm'. apply H. right. exact Hm'.
Qed.

(** X11: the merges touch the starting column of their spans only: a cell
    of the destination table that is not in the starting column of a
    span, on a row the span covers, carries neither [w:gridSpan] nor
    [w:vMerge] and holds the text of the source table, whether another
    column of a span covers it or not. *)
Theorem unaddressed_cells_plain (data : table_data) (table : docx_table)
    (R C : nat) (c : tc) :
  insert_table data = Some table ->
  tc_at table R C = Some c ->
  (forall m, In m (merge_info data) -> ~ addresses m R C) ->
  gridSpan c = None /\ vMerge c = None /\ text c = source_text data R C.
Proof.
  intros Hins Hc Hno. rewrite (tc_at_insert_table data table R C c Hins Hc).
  rewrite (fold_span_effect_none _ _ _ _ _ Hno). unfold source_text.
  destruct (rows data !! R ≫= _); repeat split; reflexivity.
Qed.

Lemma unaddressed_cells_plain_witness :
  (gridSpan <$> tc_at stray_output 0%nat 1%nat) = Some None
  /\ (vMerge <$> tc_at stray_output 0%nat 1%nat) = Some None
  /\ (text <$> tc_at stray_output 0%nat 1%nat) = Some (of_ascii "x").
Proof.
  assert (insert_table stray_table = Some stray_output) as E by reflexivity.
  destruct (tc_at stray_output 0%nat 1%nat) as [c|] eqn:Ec; [|discriminate Ec].
  destruct (unaddressed_cells_plain stray_table stray_output 0%nat 1%nat c E Ec)
    as (Hg & Hv & Ht).
  - intros m [<-|[]] [Hcol _]. discriminate Hcol.
  - simpl. rewrite Hg, Hv, Ht. repeat split; reflexivity.
Defined.

(* ================================================================== *)
(** * Results: the translation of the tables *)
(* ================================================================== *)

Lemma same_frame_refl (d : table_data) : same_frame d d.
Proof.
  unfold same_frame. repeat split. apply Forall_Forall2_diag, List.Forall_forall. auto.
Qed.

Lemma same_frame_trans (d1 d2 d3 : table_data) :
  same_frame d1 d2 -> same_frame d2 d3 -> same_frame d1 d3.
Proof.
  intros (H1 & H2 & H3 & H4 & H5) (G1 & G2 & G3 & G4 & G5). unfold same_frame.
  repeat split; try congruence.
  eapply Forall2_trans; [|exact H5|exact G5]. simpl. intros; congruence.
Qed.

Lemma set_cell_frame (tables : list table_data) (pos : position) (v : pystr)
    (tables' : list table_data) :
  set_cell tables pos v = Some tables' -> Forall2 same_frame tables tables'.
Proof.
  destruct pos as [[t r] c]. unfold set_cell.
  assert (Forall2 same_frame tables tables) as Hrefl.
  { apply Forall_Forall2_diag, List.Forall_forall. intros; apply same_frame_refl. }
  destruct (tables !! t) as [d|] eqn:Ed; [|discriminate].
  destruct (rows d !! r) as [row_texts|] eqn:Er; [|discriminate].
  destruct (c <? length row_texts)%nat; [|discriminate]. intros [= <-].
  rewrite <- (list_insert_id tables t d Ed) at 1.
  apply Forall2_insert; [exact Hrefl|].
  unfold same_frame. simpl. repeat split.
  rewrite <- (list_insert_id (rows d) r row_texts Er) at 1.
  apply Forall2_insert; [|apply length_insert].
  apply Forall_Forall2_diag, List.Forall_forall. auto.
Qed.

(** An assignment succeeds exactly on the position of a cell. *)
Lemma set_cell_is_Some (tables : list table_data) (pos : position) (v : pystr) :
  is_Some (set_cell tables pos v) <-> is_Some (cell_at tables pos).
Proof.
  destruct pos as [[t r] c]. unfold set_cell, cell_at. simpl.
  destruct (tables !! t) as [d|]; simpl; [|split; intros [? [=]]].
  destruct (rows d !! r) as [row_texts|]; simpl; [|split; intros [? [=]]].
  rewrite lookup_lt_is_Some.
  destruct (Nat.ltb_spec c (length row_texts)); split; try (intros [? [=]]); eauto; lia.
Qed.

Lemma cell_at_set_cell (tables : list table_data) (pos pos' : position) (v : pystr)
    (tables' : list table_data) :
  set_cell tables pos v = Some tables' ->
  cell_at tables' pos' = if decide (pos = pos') then Some v else cell_at tables pos'.
Proof.
  destruct pos as [[t r] c], pos' as [[t' r'] c']. unfold set_cell, cell_at. simpl.
  destruct (tables !! t) as [d|] eqn:Ed; [|discriminate].
  destruct (rows d !! r) as [row_texts|] eqn:Er; [|discriminate].
  destruct (Nat.ltb_spec c (length row_texts)) as [Hc|Hc]; [|discriminate].
  intros [= <-].
  destruct (decide (t = t')) as [->|Ht].
  2:{ rewrite list_lookup_insert_ne by exact Ht. rewrite decide_False by congruence.
      reflexivity. }
  rewrite list_lookup_insert_eq by (eapply lookup_lt_Some; eauto).
  rewrite Ed. simpl.
  destruct (decide (r = r')) as [->|Hr].
  2:{ rewrite list_lookup_insert_ne by exact Hr. rewrite decide_False by congruence.
      reflexivity. }
  rewrite list_lookup_insert_eq by (eapply lookup_lt_Some; eauto).
  rewrite Er. simpl.
  destruct (decide (c = c')) as [->|Hne].
  - rewrite list_lookup_insert_eq by exact Hc. rewrite decide_True by reflexivity.
    reflexivity.
  - rewrite list_lookup_insert_ne by exact Hne. rewrite decide_False by congruence.
    reflexivity.
Qed.

Lemma fill_back_snoc (positions : list position) (p : position) (translated : list pystr)
    (tables : list table_data) :
  fill_back (positions ++ [p]) translated tables
  = match fill_back positions translated tables, translated !! length positions with
    | Some tables1, Some v => set_cell tables1 p v
    | _, _ => None
    end.
Proof. unfold fill_back. rewrite enumerate_snoc, fold_left_app. reflexivity. Qed.

Lemma fill_back_frame (positions : list position) (translated : list pystr)
    (tables tables' : list table_data) :
  fill_back positions translated tables = Some tables' -> Forall2 same_frame tables tables'.
Proof.
  revert tables'. induction positions as [|p positions IH] using rev_ind; intros tables'.
  - intros [= <-]. apply Forall_Forall2_diag, List.Forall_forall.
    intros; apply same_frame_refl.
  - rewrite fill_back_snoc.
    destruct (fill_back positions translated tables) as [tables1|]; [|discriminate].
    destruct (translated !! length positions) as [v|]; [|discriminate].
    intros H. eapply Forall2_trans; [|apply IH; reflexivity|exact (set_cell_frame _ _ _ _ H)].
    apply same_frame_trans.
Qed.

(** X12: [translate_tables] keeps the frame of every table: the tables come
    back in the same number and order, each with its page, column count,
    merges and background flags, and with rows of the same lengths. *)
Theorem translate_tables_frame (env : environment) (g : option LLMTranslator)
    (tables : list table_data) (sched : list nat)
    (out : list table_data) (g' : option LLMTranslator) :
  translate_tables env g tables sched = Some (out, g') ->
  Forall2 same_frame tables out.
Proof.
  unfold translate_tables.
  destruct ((selected_cells tables).*2) as [|x0 xs].
  - destruct (fill_back _ _ _) as [tables'|] eqn:E; [|discriminate].
    intros [= <- _]. exact (fill_back_frame _ _ _ _ E).
  - destruct (translate_batch _ _ _) as [[translated self']|]; [|discriminate].
    destruct (fill_back _ _ _) as [tables'|] eqn:E; [|discriminate].
    intros [= <- _]. exact (fill_back_frame _ _ _ _ E).
Qed.

Lemma translate_tables_frame_witness :
  Forall2 same_frame [synthetic_extracted] synthetic_translated.
Proof.
  apply (translate_tables_frame env_fixed None [synthetic_extracted] (sequential_schedule 1)
           synthetic_translated
           (snd (default ([], None)
                   (translate_tables env_fixed None [synthetic_extracted]
                                     (sequential_schedule 1))))).
  vm_compute. reflexivity.
Defined.



Lemma fill_back_valid (positions : list position) (translated : list pystr)
    (tables tables' : list table_data) (pos : position) :
  fill_back positions translated tables = Some tables' ->
  is_Some (cell_at tables pos) -> is_Some (cell_at tables' pos).
Proof.
  revert tables'. induction positions as [|p positions IH] using rev_ind; intros tables'.
  - intros [= <-]. auto.
  - rewrite fill_back_snoc.
    destruct (fill_back positions translated tables) as [tables1|]; [|discriminate].
    destruct (translated !! length positions) as [v|]; [|discriminate].
    intros H Hpos. rewrite (cell_at_set_cell _ _ pos _ _ H).
    destruct (decide (p = pos)); [eauto | exact (IH tables1 eq_refl Hpos)].
Qed.

(** The last loop raises no [IndexError] when the positions are positions
    of cells and every one of them has its translated text. *)
Lemma fill_back_is_Some (positions : list position) (translated : list pystr)
    (tables : list table_data) :
  (forall p, In p positions -> is_Some (cell_at tables p)) ->
  (length positions <= length translated)%nat ->
  is_Some (fill_back positions translated tables).
Proof.
  induction positions as [|p positions IH] using rev_ind; intros Hpos Hlen;
    [eexists; reflexivity|].
  rewrite length_app in Hlen. simpl in Hlen. rewrite fill_back_snoc.
  destruct IH as [tables1 E1];
    [intros; apply Hpos, in_app_iff; left; assumption | lia |].
  rewrite E1. destruct (lookup_lt_is_Some_2 translated (length positions)) as [v ->]; [lia|].
  apply set_cell_is_Some, (fill_back_valid _ _ _ _ _ E1), Hpos, in_app_iff.
  right. left. reflexivity.
Qed.

Lemma selected_cells_In (tables : list table_data) (pos : position) (x : pystr) :
  In (pos, x) (selected_cells tables) <-> cell_at tables pos = Some x /\ selected x = true.
Proof.
  unfold selected_cells, cell_at. split.
  - intros H. apply in_flat_map in H. destruct H as ([t d] & Ht & H).
    apply in_flat_map in H. destruct H as ([r row_texts] & Hr & H).
    apply in_flat_map in H. destruct H as ([c y] & Hc & H). simpl in *.
    destruct (selected y) eqn:Es; [|destruct H].
    destruct H as [[= <- <-]|[]].
    apply enumerate_In in Ht, Hr, Hc. simpl. rewrite Ht. simpl. rewrite Hr. simpl. auto.
  - intros [H Hs]. destruct pos as [[t r] c]. simpl in H.
    destruct (tables !! t) as [d|] eqn:Ed; [|discriminate]. simpl in H.
    destruct (rows d !! r) as [row_texts|] eqn:Er; [|discriminate]. simpl in H.
    apply in_flat_map. exists (t, d). split; [apply enumerate_In; exact Ed|].
    apply in_flat_map. exists (r, row_texts). split; [apply enumerate_In; exact Er|].
    apply in_flat_map. exists (c, x). split; [apply enumerate_In; exact H|].
    simpl. rewrite Hs. left. reflexivity.
Qed.





Lemma translate_batch_length (self : LLMTranslator) (texts : list pystr) (sched : list nat)
    (out : list pystr) (self' : LLMTranslator) :
  translate_batch self texts sched = Some (out, self') ->
  length out = length texts
  /\ forall (i : nat) (t : pystr), texts !! i = Some t ->
       exists r, out !! i = Some r
                 /\ if enabled self then slot_ok self self' texts t r else r = t.
Proof.
  intros H. destruct (enabled self) eqn:He.
  - apply (translate_batch_slots self texts sched out self' He H).
  - unfold translate_batch in H. rewrite He in H. injection H as <- <-.
    split; [reflexivity|]. eauto.
Qed.

Lemma selected_positions_valid (tables : list table_data) (p : position) :
  In p (selected_cells tables).*1 -> is_Some (cell_at tables p).
Proof.
  intros H. apply in_map_iff in H. destruct H as ([p' x] & <- & H).
  apply selected_cells_In in H. simpl. destruct H as [-> _]. eauto.
Qed.



Lemma set_cell_id (tables : list table_data) (pos : position) (v : pystr) :
  cell_at tables pos = Some v -> set_cell tables pos v = Some tables.
Proof.
  destruct pos as [[t r] c]. unfold cell_at, set_cell. simpl.
  destruct (tables !! t) as [d|] eqn:Ed; [|discriminate]. simpl.
  destruct (rows d !! r) as [row_texts|] eqn:Er; [|discriminate]. simpl.
  intros Hc. pose proof (lookup_lt_Some _ _ _ Hc) as Hlt.
  apply Nat.ltb_lt in Hlt. rewrite Hlt. f_equal.
  rewrite (list_insert_id _ _ _ Hc), (list_insert_id _ _ _ Er).
  apply list_insert_id. rewrite Ed. f_equal. destruct d; reflexivity.
Qed.

Lemma fill_back_same (positions : list position) (translated : list pystr)
    (tables : list table_data) :
  (forall i p, positions !! i = Some p ->
               exists v, translated !! i = Some v /\ cell_at tables p = Some v) ->
  fill_back positions translated tables = Some tables.
Proof.
  induction positions as [|p positions IH] using rev_ind; intros H; [reflexivity|].
  rewrite fill_back_snoc, IH.
  - destruct (H (length positions) p) as (v & -> & Hv);
      [apply list_lookup_middle; reflexivity|].
    apply set_cell_id, Hv.
  - intros i q Hi. apply H. rewrite lookup_app_l by (eapply lookup_lt_Some; eauto).
    exact Hi.
Qed.

Lemma fill_back_id (tables : list table_data) :
  fill_back (selected_cells tables).*1 (selected_cells tables).*2 tables = Some tables.
Proof.
  apply fill_back_same. intros i p Hi. rewrite list_lookup_fmap in Hi.
  rewrite list_lookup_fmap.
  destruct (selected_cells tables !! i) as [[p' x]|] eqn:E; [|discriminate].
  injection Hi as <-. exists x. split; [reflexivity|].
  apply list_elem_of_lookup_2, list_elem_of_In, selected_cells_In in E. tauto.
Qed.

(** X14: with a disabled translator (no package, no key, or a failed
    initialization) [translate_tables] returns the tables as they are,
    under every schedule, and sends nothing upstream. *)
Theorem translate_tables_disabled (env : environment) (g : option LLMTranslator)
    (tables : list table_data) (sched : list nat) :
  enabled (get_translator env g) = false ->
  translate_tables env g tables sched = Some (tables, Some (get_translator env g)).
Proof.
  intros He. unfold translate_tables.
  pose proof (fill_back_id tables) as E.
  destruct ((selected_cells tables).*2) as [|x0 xs] eqn:Et.
  - rewrite E. reflexivity.
  - rewrite <- Et in E |- *. unfold translate_batch. rewrite He. cbn [negb].
    rewrite E. reflexivity.
Qed.

Lemma translate_tables_disabled_witness :
  translate_tables env_no_key None [synthetic_extracted] []
  = Some ([synthetic_extracted], Some (disabled_translator 5)).
Proof.
  apply (translate_tables_disabled env_no_key None [synthetic_extracted] []). reflexivity.
Defined.

(* ================================================================== *)
(** * Results: the cache of the translator *)
(* ================================================================== *)

Lemma translate_memoizes (self : LLMTranslator) (text text' : pystr) :
  enabled self = true -> _should_translate text = true ->
  (_cache self !! strip text <> None \/ completion self text <> None) ->
  strip text' = strip text ->
  translate (translate self text).2 text' = translate self text.
Proof.
  intros He Hs Hok Hk.
  assert (_should_translate text' = true) as Hs'.
  { rewrite <- (should_translate_trimmed text'), Hk, should_translate_trimmed. exact Hs. }
  unfold translate at 2 3. rewrite He, Hs. simpl.
  destruct (_cache self !! strip text) as [hit|] eqn:Ec.
  - simpl. unfold translate. rewrite He, Hs', Hk, Ec. reflexivity.
  - destruct (completion self text) as [result|] eqn:Er; [|destruct Hok; congruence].
    simpl. unfold translate. simpl. rewrite He, Hs', Hk. simpl.
    rewrite lookup_insert_eq. reflexivity.
Qed.

(** X15: a translation is asked for once: after a call of [llm_translate]
    that found its text in the cache or whose request was answered, a
    call for any text with the same trimmed form returns the same
    result, sends no request and leaves the global translator as it is,
    whatever the environment has become. *)
Theorem llm_translate_memoizes (env env' : environment) (g : option LLMTranslator)
    (text text' : pystr) :
  enabled (get_translator env g) = true ->
  _should_translate text = true ->
  (_cache (get_translator env g) !! strip text <> None
   \/ completion (get_translator env g) text <> None) ->
  strip text' = strip text ->
  llm_translate env' (llm_translate env g text).2 text' = llm_translate env g text.
Proof.
  intros He Hs Hok Hk. unfold llm_translate.
  pose proof (translate_memoizes (get_translator env g) text text' He Hs Hok Hk) as H.
  destruct (translate (get_translator env g) text) as [r self1]. simpl in *.
  rewrite H. reflexivity.
Qed.

Lemma llm_translate_memoizes_witness :
  llm_translate env_no_key (llm_translate env_fixed None text_hello).2
                ([32] ++ text_hello ++ [10])
  = llm_translate env_fixed None text_hello.
Proof.
  apply (llm_translate_memoizes env_fixed env_no_key None text_hello).
  - reflexivity.
  - reflexivity.
  - right. vm_compute. discriminate.
  - vm_compute. reflexivity.
Defined.

(* ================================================================== *)
(** * Results: the requests and the cache of a batch *)
(* ================================================================== *)









Lemma translate_as_pool_completed (self : LLMTranslator) (text : pystr) :
  (0 < max_workers self)%nat ->
  exists p,
    run_schedule [0; 0; 0]%nat
      {| translator := self; tasks := [Pending text]; completed := [] |} = Some p
    /\ tasks p = [Finished (translate self text).1]
    /\ translator p = (translate self text).2
    /\ completed p = [0%nat].
Proof.
  intros Hw. unfold translate.
  assert (can_start {| translator := self; tasks := [Pending text]; completed := [] |} 0
          = true) as Hcs.
  { unfold can_start. simpl. apply Nat.ltb_lt. exact Hw. }
  cbn [run_schedule]. unfold pool_step at 1. cbn [tasks translator lookup list_lookup].
  rewrite Hcs.
  destruct (negb (enabled self) || negb (_should_translate text)).
  { eexists. split; [reflexivity|]. repeat split; reflexivity. }
  destruct (_cache self !! strip text) as [hit|].
  { eexists. split; [reflexivity|]. repeat split; reflexivity. }
  unfold pool_step at 1. cbn [tasks translator set_task lookup list_lookup insert list_insert].
  destruct (completion self text) as [result|].
  - eexists. split; [reflexivity|]. repeat split; reflexivity.
  - eexists. split; [reflexivity|]. repeat split; reflexivity.
Qed.

(** X17: a batch of one text is the single translation: [translate_batch]
    on [[text]] returns the result of [translate] on [text] and leaves
    the translator, its cache and its requests as [translate] does. *)
Theorem translate_batch_singleton (self : LLMTranslator) (text : pystr) :
  (0 < max_workers self)%nat ->
  translate_batch self [text] [0; 0; 0]%nat
  = Some ([(translate self text).1], (translate self text).2).
Proof.
  intros Hw. destruct (translate_as_pool_completed self text Hw) as (p & Hrun & Htk & Htr & Hc).
  destruct (enabled self) eqn:He.
  2:{ unfold translate_batch, translate. rewrite He. reflexivity. }
  rewrite (translate_batch_unfold self [text] _ He).
  assert (queue (_cache self) [text]
          = if _should_translate text && bool_decide (_cache self !! strip text = None)
            then [(0%nat, text)] else []) as -> by reflexivity.
  cbn [fmap list_fmap]. unfold prefill.
  destruct (_should_translate text) eqn:Hs.
  2:{ unfold translate. rewrite He, Hs. simpl. reflexivity. }
  destruct (_cache self !! strip text) as [hit|] eqn:Ec.
  { unfold translate. rewrite He, Hs, Ec. simpl. reflexivity. }
  rewrite bool_decide_eq_true_2 by reflexivity.
  cbn [andb fmap list_fmap fst snd]. rewrite Hrun, Htk.
  cbn [forallb is_finished andb]. unfold collect. rewrite Hc, Htk, Htr. reflexivity.
Qed.

Lemma translate_batch_singleton_witness :
  translate_batch (enabled_translator fixed_backend 5) [text_hello] [0; 0; 0]%nat
  = Some ([(translate (enabled_translator fixed_backend 5) text_hello).1],
          (translate (enabled_translator fixed_backend 5) text_hello).2).
Proof. apply translate_batch_singleton. simpl. lia. Defined.

(* ================================================================== *)
(** * Results: what a batch leaves in the cache *)
(* ================================================================== *)







(* ================================================================== *)
(** * Results: the fields of the final review *)
(* ================================================================== *)

Lemma pystr_eqb_eq (s t : pystr) : pystr_eqb s t = true <-> s = t.
Proof.
  revert t. induction s as [|a s IH]; intros [|b t]; simpl; try (split; congruence).
  rewrite andb_true_iff, Z.eqb_eq, IH. split; [intros [-> ->]; reflexivity|].
  intros [= -> ->]. auto.
Qed.

Lemma dict_set_keys (d : fields) (key value : pystr) :
  In key (d.*1) -> (dict_set d key value).*1 = d.*1.
Proof.
  induction d as [|[k v] d IH]; simpl; [intros []|].
  destruct (pystr_eqb k key) eqn:E.
  - reflexivity.
  - intros [->|H]; [|simpl; f_equal; exact (IH H)].
    assert (pystr_eqb key key = true) by (apply pystr_eqb_eq; reflexivity). congruence.
Qed.

Lemma dict_set_In_keys (d : fields) (key value k : pystr) :
  In k ((dict_set d key value).*1) -> k = key \/ In k (d.*1).
Proof.
  induction d as [|[k0 v0] d IH]; simpl.
  - intros [<-|[]]. left. reflexivity.
  - destruct (pystr_eqb k0 key) eqn:E; simpl; [tauto|].
    intros [<-|H]; [tauto|]. destruct (IH H); tauto.
Qed.

Lemma dict_set_other (d : fields) (key value k v : pystr) :
  k <> key -> In (k, v) d -> In (k, v) (dict_set d key value).
Proof.
  intros Hne. induction d as [|[k0 v0] d IH]; simpl; [intros []|].
  destruct (pystr_eqb k0 key) eqn:E.
  - apply pystr_eqb_eq in E. subst k0. intros [[= <- <-]|H]; [congruence | right; exact H].
  - intros [H|H]; [left; exact H | right; exact (IH H)].
Qed.

Lemma NoDup_keys_functional (d : fields) (k v v' : pystr) :
  NoDup (d.*1) -> In (k, v) d -> In (k, v') d -> v = v'.
Proof.
  induction d as [|[k0 v0] d IH]; simpl; [intros _ []|].
  intros Hnd. apply NoDup_cons in Hnd. destruct Hnd as [Hk0 Hnd].
  intros [E1|H1] [E2|H2]; [congruence| | |auto].
  - injection E1 as -> ->. exfalso. apply Hk0, list_elem_of_In. apply (in_map fst) in H2. exact H2.
  - injection E2 as -> ->. exfalso. apply Hk0, list_elem_of_In.
    apply (in_map fst) in H1. exact H1.
Qed.

Lemma to_review_keys (texts acc : fields) (k : pystr) :
  In k ((fold_left (fun d kv => if needs_review kv.2 then dict_set d kv.1 kv.2 else d)
                   texts acc).*1) ->
  In k (acc.*1) \/ exists v, In (k, v) texts /\ needs_review v = true.
Proof.
  revert acc. induction texts as [|[k0 v0] texts IH]; intros acc; simpl; [tauto|].
  intros H. apply IH in H. destruct H as [H|(v & Hv & Hr)]; [|right; eauto].
  destruct (needs_review v0) eqn:E; [|tauto].
  apply dict_set_In_keys in H. destruct H as [->|H]; [right; eauto | tauto].
Qed.

Lemma review_fold (texts : fields) (translated : list pystr) (keys : list pystr)
    (result : fields) :
  (forall k, In k keys -> In k (texts.*1)) ->
  result.*1 = texts.*1 ->
  let out :=
    fold_left (fun result ik => match translated !! ik.1 with
                                | Some v => dict_set result ik.2 v
                                | None => result
                                end) (enumerate keys) result in
  out.*1 = texts.*1
  /\ forall k v, ~ In k keys -> In (k, v) result -> In (k, v) out.
Proof.
  intros Hkeys Hres. simpl.
  induction keys as [|key keys IH] using rev_ind; [simpl; auto|].
  rewrite enumerate_snoc, fold_left_app. simpl.
  destruct IH as [IH1 IH2]; [intros; apply Hkeys, in_app_iff; left; assumption|].
  destruct (translated !! length keys) as [v0|].
  - split.
    + rewrite dict_set_keys; [exact IH1|]. rewrite IH1. apply Hkeys, in_app_iff.
      right. left. reflexivity.
    + intros k v Hk Hin. apply dict_set_other.
      * intros ->. apply Hk, in_app_iff. right. left. reflexivity.
      * apply IH2; [|exact Hin]. intros H. apply Hk, in_app_iff. left. exact H.
  - split; [exact IH1|]. intros k v Hk Hin. apply IH2; [|exact Hin].
    intros H. apply Hk, in_app_iff. left. exact H.
Qed.

(** X19: [final_review] returns the fields it was given, under the same
    keys and in the same order, and changes no field that needs no review
    (the keys of a dictionary being distinct): only eligible values are
    replaced. *)
Theorem final_review_fields (self : LLMTranslator) (texts : fields) (sched : list nat)
    (out : fields) (self' : LLMTranslator) :
  final_review self texts sched = Some (out, self') ->
  out.*1 = texts.*1
  /\ (NoDup (texts.*1) ->
      forall k v, In (k, v) texts -> _should_translate v = false -> In (k, v) out).
Proof.
  unfold final_review. destruct (enabled self); [|intros [= <- <-]; auto].
  simpl.
  set (to_review := fold_left _ texts []).
  destruct to_review as [|kv0 rest] eqn:Er; [intros [= <- <-]; auto|].
  rewrite <- Er. clear kv0 rest Er.
  destruct (translate_batch self (to_review.*2) sched) as [[translated self1]|];
    [|discriminate].
  intros [= <- <-].
  assert (forall k, In k (to_review.*1) -> exists v, In (k, v) texts /\ needs_review v = true)
    as Hkeys.
  { intros k Hk. apply to_review_keys in Hk. destruct Hk as [[]|Hk]. exact Hk. }
  destruct (review_fold texts translated (to_review.*1) texts) as [H1 H2].
  - intros k Hk. destruct (Hkeys k Hk) as (v & Hv & _).
    apply (in_map fst) in Hv. exact Hv.
  - reflexivity.
  - split; [exact H1|].
    intros Hnd k v Hin Hs. apply H2; [|exact Hin].
    intros Hk. destruct (Hkeys k Hk) as (v' & Hv' & Hr).
    rewrite needs_review_eligible in Hr.
    assert (v' = v) as -> by exact (NoDup_keys_functional texts k v' v Hnd Hv' Hin).
    congruence.
Qed.

Lemma final_review_fields_witness :
  exists out self',
    final_review (enabled_translator fixed_backend 5) report_fields [0; 0; 0]%nat
    = Some (out, self')
    /\ out.*1 = report_fields.*1
    /\ In (of_ascii "standard", text_IEC) out.
Proof.
  assert (exists out self',
             final_review (enabled_translator fixed_backend 5) report_fields [0; 0; 0]%nat
             = Some (out, self')) as (out & self' & E).
  { vm_compute. eexists _, _. reflexivity. }
  exists out, self'. split; [exact E|].
  destruct (final_review_fields _ _ _ _ _ E) as [Hk Hv]. split; [exact Hk|].
  apply Hv.
  - repeat constructor; rewrite ?list_elem_of_In; simpl; intros H;
      repeat (destruct H as [H|H]; [discriminate H|]); exact H.
  - left. reflexivity.
  - reflexivity.
Defined.

(* ================================================================== *)
(** * Results: the whole process *)
(* ================================================================== *)

Lemma omap_Forall2 {A B : Type} (f : A -> option B) (l : list A) :
  Forall (fun x => is_Some (f x)) l -> Forall2 (fun x y => f x = Some y) l (omap f l).
Proof.
  induction 1 as [|x l [y Hy] Hl IH]; simpl; [constructor|].
  rewrite Hy. constructor; assumption.
Qed.

Lemma process_unfold (env : environment) (g : option LLMTranslator) (doc : pdf)
    (sched : list nat) :
  process_pdf_to_docx env g doc sched
  = match extract_tables_from_range (doc.*2) (find_translation_range (doc.*1)).1
                                    (find_translation_range (doc.*1)).2 with
    | None => None
    | Some tables =>
        match translate_tables env g tables sched with
        | None => None
        | Some (translated_tables, g') =>
            Some (insert_tables_to_template translated_tables, g')
        end
    end.
Proof.
  unfold process_pdf_to_docx. destruct (find_translation_range (doc.*1)). reflexivity.
Qed.

(** X20: the document [process_pdf_to_docx] writes holds one table for each
    table extracted from the range, in order, with one row for each row
    of the extracted table and [col_count] cells in every row: no table
    is dropped between the extraction and the document, whatever the
    translation returns. *)
Theorem process_pdf_to_docx_tables (env : environment) (g : option LLMTranslator)
    (doc : pdf) (sched : list nat) (out : list docx_table) (g' : option LLMTranslator) :
  process_pdf_to_docx env g doc sched = Some (out, g') ->
  exists tables : list table_data,
    extract_tables_from_range (doc.*2) (find_translation_range (doc.*1)).1
                              (find_translation_range (doc.*1)).2 = Some tables
    /\ Forall2 (fun t d => has_shape (length (rows t)) (col_count t) d) tables out.
Proof.
  rewrite process_unfold.
  destruct (extract_tables_from_range _ _ _) as [tables|] eqn:Ex; [|discriminate].
  destruct (translate_tables env g tables sched) as [[tt g1]|] eqn:Et; [|discriminate].
  intros [= <- <-]. exists tables. split; [reflexivity|].
  assert (Forall2 same_frame tables tt) as Hframe.
  { revert Et. unfold translate_tables.
    destruct ((selected_cells tables).*2).
    - destruct (fill_back _ _ _) as [tables'|] eqn:E; [|discriminate].
      intros [= <- _]. exact (fill_back_frame _ _ _ _ E).
    - destruct (translate_batch _ _ _) as [[? ?]|]; [|discriminate].
      destruct (fill_back _ _ _) as [tables'|] eqn:E; [|discriminate].
      intros [= <- _]. exact (fill_back_frame _ _ _ _ E). }
  assert (Forall (fun t => rows t <> []) tables) as Hne.
  { rewrite List.Forall_forall. intros t Ht.
    rewrite extract_tables_from_range_pages in Ex.
    destruct (mapM _ _) as [per_page|] eqn:E; [|discriminate]. injection Ex as <-.
    apply in_concat in Ht. destruct Ht as (tbls & Htbls & Hin).
    apply mapM_Some_1 in E. apply list_elem_of_In, list_elem_of_lookup in Htbls.
    destruct Htbls as [j Hj]. destruct (Forall2_lookup_r _ _ _ _ _ E Hj) as (i & _ & Hp).
    destruct (extract_page_In _ _ _ _ Hp Hin) as [Hwf _]. apply Hwf. }
  unfold insert_tables_to_template.
  eapply Forall2_trans; [|exact Hframe|apply omap_Forall2].
  - intros t t' d (_ & Hc & _ & _ & Hrows) Hd. simpl in Hd.
    rewrite (Forall2_length _ _ _ Hrows), <- Hc.
    assert (rows t' <> []) as Hr.
    { intros E. apply insert_table_None in E. congruence. }
    rewrite (insert_table_Some t' Hr) in Hd. injection Hd as <-.
    apply apply_merge_shape, fill_table_shape, add_table_shape.
  - rewrite List.Forall_forall in Hne |- *. intros t' Ht'.
    apply list_elem_of_In, list_elem_of_lookup in Ht'. destruct Ht' as [i Hi].
    destruct (Forall2_lookup_r _ _ _ _ _ Hframe Hi) as (t & Ht & (_ & _ & _ & _ & Hrows)).
    assert (rows t' <> []) as Hr.
    { intros E. rewrite E in Hrows. inversion Hrows as [E'|]. symmetry in E'.
      revert E'. apply Hne. eapply list_elem_of_In, list_elem_of_lookup_2, Ht. }
    rewrite (insert_table_Some t' Hr). eauto.
Qed.

Lemma process_pdf_to_docx_tables_witness :
  exists out g',
    process_pdf_to_docx env_fixed None synthetic_pdf (sequential_schedule 1) = Some (out, g')
    /\ Forall2 (fun t d => has_shape (length (rows t)) (col_count t) d)
               [synthetic_extracted] out.
Proof.
  assert (exists out g',
             process_pdf_to_docx env_fixed None synthetic_pdf (sequential_schedule 1)
             = Some (out, g')) as (out & g' & E).
  { vm_compute. eexists _, _. reflexivity. }
  exists out, g'. split; [exact E|].
  destruct (process_pdf_to_docx_tables _ _ _ _ _ _ E) as (tables & Ex & H).
  assert (tables = [synthetic_extracted]) as <-; [|exact H].
  vm_compute in Ex. injection Ex as <-. reflexivity.
Defined.

(** X21: the process completes on every document: the range it finds lies
    within the document, the extraction raises no error on it, the pool
    of the batch has an execution that completes every translation,
    whatever fails upstream, and the translations are written back to
    cells of the tables. *)
Theorem process_pdf_to_docx_completes (env : environment) (g : option LLMTranslator)
    (doc : pdf) :
  (0 < max_workers (get_translator env g))%nat ->
  exists sched out g', process_pdf_to_docx env g doc sched = Some (out, g').
Proof.
  intros Hw. destruct (extract_found_range doc) as [tables Ex].
  destruct (translate_batch_returns (get_translator env g) ((selected_cells tables).*2) Hw)
    as (sched & translated & self' & Eb).
  exists sched. rewrite process_unfold, Ex. unfold translate_tables.
  destruct (translate_batch_length _ _ _ _ _ Eb) as [Hlen _].
  destruct (fill_back_is_Some (selected_cells tables).*1 translated tables) as [tables' Ef].
  { apply selected_positions_valid. }
  { rewrite Hlen, !length_fmap. reflexivity. }
  destruct ((selected_cells tables).*2) as [|x0 xs] eqn:Et.
  - assert (selected_cells tables = []) as Hnil
      by (destruct (selected_cells tables); [reflexivity | discriminate]).
    rewrite Hnil. simpl. eauto.
  - rewrite Eb, Ef. eauto.
Qed.

Lemma process_pdf_to_docx_completes_witness :
  exists sched out g', process_pdf_to_docx env_fixed None synthetic_pdf sched = Some (out, g').
Proof.
  apply (process_pdf_to_docx_completes env_fixed None synthetic_pdf). simpl. lia.
Defined.

(* ================================================================== *)
(** * Results: the spans of the merge inferencer *)
(* ================================================================== *)

Lemma index_lt (v : Z) (l : list Z) (i : nat) : index v l = Some i -> (i < length l)%nat.
Proof. intros H. apply index_lookup in H. eapply lookup_lt_Some, H. Qed.

Lemma index_increasing (l : list Z) (a b : Z) (i j : nat) :
  StronglySorted Z.lt l -> index a l = Some i -> index b l = Some j -> a < b ->
  (i < j)%nat.
Proof.
  intros Hs Ha Hb Hlt. apply index_lookup in Ha, Hb.
  destruct (decide (i < j)%nat) as [|Hge]; [assumption|exfalso].
  assert (forall (l : list Z) (i j : nat) (x y : Z),
             StronglySorted Z.lt l -> (i < j)%nat -> l !! i = Some x -> l !! j = Some y ->
             x < y) as Hmono.
  { clear. intros l. induction l as [|w l IH]; intros i j x y Hs Hij Hi Hj; [discriminate|].
    apply StronglySorted_inv in Hs. destruct Hs as [Hs Hall].
    destruct j as [|j]; [lia|]. simpl in Hj. destruct i as [|i].
    - injection Hi as <-. rewrite List.Forall_forall in Hall. apply Hall.
      eapply list_elem_of_In, list_elem_of_lookup_2, Hj.
    - simpl in Hi. apply (IH i j); [assumption | lia | assumption | assumption]. }
  destruct (decide (i = j)) as [->|Hne]; [rewrite Ha in Hb; injection Hb as ->; lia|].
  assert (b < a) by (apply (Hmono l j i); [assumption | lia | assumption | assumption]).
  lia.
Qed.

(** X22: when the rounded edges of every cell are in order, every span of
    the inferred merge set has a column span and a row span of at least
    1, and ends within the grid of the rounded edges of the table. *)
Theorem analyze_merged_cells_positive (cells : list cell) (rows : list (list pystr))
    (col_count : nat) (m : MergeSpan) :
  (forall c, In c cells -> proper_cell c) ->
  In m (_analyze_merged_cells cells rows col_count) ->
  1 <= colspan m /\ 1 <= rowspan m
  /\ Z.of_nat (col m) + colspan m < Z.of_nat (length (x_coords_of cells))
  /\ Z.of_nat (row m) + rowspan m < Z.of_nat (length (y_coords_of cells)).
Proof.
  intros Hproper. unfold _analyze_merged_cells.
  destruct rows as [|r rows]; [intros []|].
  destruct col_count as [|k]; [intros []|].
  destruct cells as [|c0 cells]; [intros []|].
  set (cs := c0 :: cells) in *.
  destruct ((length (x_coords_of cs) <? 2)%nat || (length (y_coords_of cs) <? 2)%nat);
    [intros []|].
  rewrite in_flat_map. intros (c & Hc & Hm).
  apply cell_merge_In in Hm.
  destruct Hm as (_ & _ & Hx & Hy & (ec & Hec & ->) & (er & Her & ->)).
  destruct (Hproper c Hc) as [Hcx Hcy].
  pose proof (index_increasing _ _ _ _ _ (sorted_set_increasing _) Hx Hec Hcx).
  pose proof (index_increasing _ _ _ _ _ (sorted_set_increasing _) Hy Her Hcy).
  apply index_lt in Hec, Her. lia.
Qed.

Lemma analyze_merged_cells_positive_witness :
  1 <= colspan stray_span /\ 1 <= rowspan stray_span
  /\ Z.of_nat (col stray_span) + colspan stray_span
     < Z.of_nat (length (x_coords_of synthetic_cells))
  /\ Z.of_nat (row stray_span) + rowspan stray_span
     < Z.of_nat (length (y_coords_of synthetic_cells)).
Proof.
  apply (analyze_merged_cells_positive synthetic_cells synthetic_rows 4).
  - intros c Hc. simpl in Hc.
    destruct Hc as [<-|[<-|[<-|[<-|[<-|[<-|[<-|[]]]]]]]]; vm_compute; split; reflexivity.
  - vm_compute. left. reflexivity.
Defined.

(* ================================================================== *)
(** * Results: the clauses *)
(* ================================================================== *)

Section Dedupe.
Context {clause V : Type} `{EqDecision V}.
Variable clause_id : clause -> V.
Variable truthy : V -> bool.

Lemma dedupe_seen (l : list clause) (v : V) :
  v ∈ (fold_left (dedupe_step clause_id truthy) l ([], [])).1
  <-> truthy v = true /\ v ∈ clause_id <$> l.
Proof.
  induction l as [|c l IH] using rev_ind.
  - simpl. split; [intros Hv; inversion Hv | intros [_ Hv]; inversion Hv].
  - rewrite fold_left_app, fmap_app. simpl.
    destruct (fold_left _ l ([], [])) as [seen result] eqn:E. simpl in *.
    rewrite elem_of_app, list_elem_of_singleton.
    destruct (truthy (clause_id c)) eqn:Et; simpl.
    + destruct (decide (clause_id c ∈ seen)) as [Hin|Hin].
      * rewrite bool_decide_eq_true_2 by exact Hin. simpl. rewrite IH.
        split; [tauto|]. intros [Hv [Hl| ->]]; [tauto|]. apply IH. exact Hin.
      * rewrite bool_decide_eq_false_2 by exact Hin. simpl.
        rewrite elem_of_cons, IH. split.
        -- intros [->|[? ?]]; auto.
        -- intros [Hv [Hl| ->]]; auto.
    + rewrite IH. split; [tauto|]. intros [Hv [Hl| ->]]; [tauto | congruence].
Qed.

Lemma dedupe_clauses_snoc (l : list clause) (c : clause) :
  dedupe_clauses clause_id truthy (l ++ [c])
  = dedupe_clauses clause_id truthy l
    ++ (if truthy (clause_id c) && negb (bool_decide (clause_id c ∈ clause_id <$> l))
        then [c] else []).
Proof.
  unfold dedupe_clauses. rewrite fold_left_app. simpl.
  pose proof (dedupe_seen l (clause_id c)) as Hseen.
  destruct (fold_left _ l ([], [])) as [seen result]. simpl in *.
  destruct (truthy (clause_id c)) eqn:Et; simpl; [|rewrite app_nil_r; reflexivity].
  destruct (decide (clause_id c ∈ seen)) as [Hin|Hin].
  - rewrite !bool_decide_eq_true_2 by tauto. simpl. rewrite app_nil_r. reflexivity.
  - rewrite !bool_decide_eq_false_2 by tauto. reflexivity.
Qed.

Lemma dedupe_clauses_sublist (l : list clause) :
  sublist (dedupe_clauses clause_id truthy l) l.
Proof.
  induction l as [|c l IH] using rev_ind; [constructor|].
  rewrite dedupe_clauses_snoc. apply sublist_app; [exact IH|].
  destruct (_ && _); [reflexivity | apply sublist_nil_l].
Qed.

Lemma dedupe_clauses_In (l : list clause) (c : clause) :
  In c (dedupe_clauses clause_id truthy l)
  <-> truthy (clause_id c) = true /\ exists i, first_with_id clause_id l i c.
Proof.
  induction l as [|c0 l IH] using rev_ind.
  - simpl. split; [intros [] | intros (_ & i & Hi & _); discriminate].
  - rewrite dedupe_clauses_snoc, in_app_iff, IH. clear IH. split.
    + intros [(Ht & i & Hi & Hfirst)|Hc].
      * split; [exact Ht|]. exists i. split.
        -- rewrite lookup_app_l by (eapply lookup_lt_Some; eauto). exact Hi.
        -- intros j c' Hj Hc'. apply (Hfirst j c' Hj).
           rewrite lookup_app_l in Hc'; [exact Hc'|].
           apply lookup_lt_Some in Hi. lia.
      * destruct (truthy (clause_id c0)) eqn:Et; simpl in Hc; [|destruct Hc].
        destruct (decide (clause_id c0 ∈ clause_id <$> l)) as [Hin|Hin].
        { rewrite bool_decide_eq_true_2 in Hc by exact Hin. destruct Hc. }
        rewrite bool_decide_eq_false_2 in Hc by exact Hin.
        destruct Hc as [<-|[]]. split; [exact Et|]. exists (length l). split.
        -- apply list_lookup_middle. reflexivity.
        -- intros j c' Hj Hc' E. rewrite lookup_app_l in Hc' by exact Hj.
           apply Hin. rewrite <- E. apply list_elem_of_fmap. exists c'.
           split; [reflexivity|]. eapply list_elem_of_lookup_2, Hc'.
    + intros (Ht & i & Hi & Hfirst).
      destruct (decide (i < length l)%nat) as [Hlt|Hge].
      * left. split; [exact Ht|]. exists i. split.
        -- rewrite lookup_app_l in Hi by exact Hlt. exact Hi.
        -- intros j c' Hj Hc'. apply (Hfirst j c' Hj).
           rewrite lookup_app_l by lia. exact Hc'.
      * right. assert (i = length l) as ->.
        { apply lookup_lt_Some in Hi. rewrite length_app in Hi. simpl in Hi. lia. }
        rewrite list_lookup_middle in Hi by reflexivity. injection Hi as ->.
        rewrite Ht. simpl.
        rewrite bool_decide_eq_false_2; [left; reflexivity|].
        intros Hin. apply list_elem_of_fmap in Hin. destruct Hin as (c' & E & Hc').
        apply list_elem_of_lookup in Hc'. destruct Hc' as [j Hj].
        apply (Hfirst j c'); [eapply lookup_lt_Some; eauto| |congruence].
        rewrite lookup_app_l by (eapply lookup_lt_Some; eauto). exact Hj.
Qed.

Lemma dedupe_clauses_NoDup (l : list clause) :
  NoDup (clause_id <$> dedupe_clauses clause_id truthy l).
Proof.
  induction l as [|c l IH] using rev_ind; [constructor|].
  rewrite dedupe_clauses_snoc, fmap_app.
  destruct (truthy (clause_id c)); simpl; [|rewrite app_nil_r; exact IH].
  destruct (decide (clause_id c ∈ clause_id <$> l)) as [Hin|Hin].
  - rewrite bool_decide_eq_true_2 by exact Hin. simpl. rewrite app_nil_r. exact IH.
  - rewrite bool_decide_eq_false_2 by exact Hin. simpl.
    apply NoDup_app. split; [exact IH|]. split; [|repeat constructor; intros H'; inversion H'].
    intros v Hv Hv'. apply list_elem_of_singleton in Hv'. subst v. apply Hin.
    apply list_elem_of_fmap in Hv. destruct Hv as (c' & E & Hc').
    rewrite E. apply list_elem_of_fmap. exists c'. split; [reflexivity|].
    exact (sublist_subseteq _ _ (dedupe_clauses_sublist l) c' Hc').
Qed.

Lemma dedupe_clauses_fixed (l : list clause) :
  NoDup (clause_id <$> l) -> (forall c, In c l -> truthy (clause_id c) = true) ->
  dedupe_clauses clause_id truthy l = l.
Proof.
  induction l as [|c l IH] using rev_ind; [reflexivity|].
  rewrite fmap_app. intros Hnd Ht. apply NoDup_app in Hnd. destruct Hnd as (Hnd & Hdisj & _).
  rewrite dedupe_clauses_snoc, IH; [|exact Hnd|intros; apply Ht, in_app_iff; left; assumption].
  rewrite Ht by (apply in_app_iff; right; left; reflexivity). simpl.
  rewrite bool_decide_eq_false_2; [reflexivity|].
  intros Hin. apply (Hdisj _ Hin). left.
Qed.

(** X23: [dedupe_clauses] keeps, in their order, exactly the clauses that
    have a (truthy) id and are the first of the list with that id; so the
    ids of the result are distinct, and deduplicating twice changes
    nothing more. *)
Theorem dedupe_clauses_spec (clauses_raw : list clause) :
  sublist (dedupe_clauses clause_id truthy clauses_raw) clauses_raw
  /\ NoDup (clause_id <$> dedupe_clauses clause_id truthy clauses_raw)
  /\ (forall c, In c (dedupe_clauses clause_id truthy clauses_raw)
                <-> truthy (clause_id c) = true
                    /\ exists i, first_with_id clause_id clauses_raw i c)
  /\ dedupe_clauses clause_id truthy (dedupe_clauses clause_id truthy clauses_raw)
     = dedupe_clauses clause_id truthy clauses_raw.
Proof.
  split; [apply dedupe_clauses_sublist|]. split; [apply dedupe_clauses_NoDup|].
  split; [apply dedupe_clauses_In|].
  apply dedupe_clauses_fixed; [apply dedupe_clauses_NoDup|].
  intros c Hc. apply dedupe_clauses_In in Hc. tauto.
Qed.

End Dedupe.
